(** * Moodify: the speed-optimised recommendation pipeline

    A shallow embedding of the recommendation module of the repository
    (the file that exports [generateClassicRecommendations]) and the
    properties of it that the specification states.

    Conventions of the embedding.
    - A JavaScript string is a [string] of 7-bit characters; [toLowerCase],
      [trim] and the regular-expression classes are the ASCII ones.
    - An absent ([undefined]) object field is [None].
    - Counts and integer scores are [Z]; the scores read from the model's
      JSON are rationals [Q]; similarities, which the code computes by
      division and square root, are IEEE binary64 [float]s.
    - An [async] function that may reject is a function into [completion];
      the external services are the fields of a record of oracles. *)

From Stdlib Require Import ZArith QArith Floats Uint63 Ascii String DecimalString List Bool Lia Sorted.
From stdpp Require Import base decidable list strings gmap.
Import ListNotations.

Set Warnings "-inexact-float,-clear-no-such-hyp".

Local Open Scope string_scope.
Local Open Scope Z_scope.

(** ** JavaScript strings *)

Module Str.

Definition is_upper (c : ascii) : bool :=
  ((65 <=? nat_of_ascii c) && (nat_of_ascii c <=? 90))%nat.

Definition is_lower (c : ascii) : bool :=
  ((97 <=? nat_of_ascii c) && (nat_of_ascii c <=? 122))%nat.

Definition is_digit (c : ascii) : bool :=
  ((48 <=? nat_of_ascii c) && (nat_of_ascii c <=? 57))%nat.

(** White space and line terminators, as [trim] and [\s] see them. *)
Definition is_space (c : ascii) : bool :=
  ((9 <=? nat_of_ascii c) && (nat_of_ascii c <=? 13))%nat
  || (nat_of_ascii c =? 32)%nat.

(** A word character of [\b]: [A-Za-z0-9_]. *)
Definition is_word (c : ascii) : bool :=
  is_upper c || is_lower c || is_digit c || (nat_of_ascii c =? 95)%nat.

Definition lower_char (c : ascii) : ascii :=
  if is_upper c then ascii_of_nat (nat_of_ascii c + 32) else c.

Definition upper_char (c : ascii) : ascii :=
  if is_lower c then ascii_of_nat (nat_of_ascii c - 32) else c.

Fixpoint toLowerCase (s : string) : string :=
  match s with
  | EmptyString => EmptyString
  | String c r => String (lower_char c) (toLowerCase r)
  end.

Fixpoint trimStart (s : string) : string :=
  match s with
  | EmptyString => EmptyString
  | String c r => if is_space c then trimStart r else s
  end.

Fixpoint trimEnd (s : string) : string :=
  match s with
  | EmptyString => EmptyString
  | String c r =>
      match trimEnd r with
      | EmptyString => if is_space c then EmptyString else String c EmptyString
      | r' => String c r'
      end
  end.

Definition trim (s : string) : string := trimEnd (trimStart s).

(** [s.slice(0, n)] for a non-negative [n]. *)
Fixpoint slice0 (n : nat) (s : string) : string :=
  match n, s with
  | S n', String c r => String c (slice0 n' r)
  | _, _ => EmptyString
  end.

Fixpoint startsWith (p s : string) : bool :=
  match p, s with
  | EmptyString, _ => true
  | String a p', String b s' => Ascii.eqb a b && startsWith p' s'
  | String _ _, EmptyString => false
  end.

(** [s.includes(p)] *)
Fixpoint includes (s p : string) : bool :=
  startsWith p s ||
  match s with
  | EmptyString => false
  | String _ r => includes r p
  end.

(** [s.split(' ')]: the pieces between single spaces, at least one. *)
Fixpoint split_space (s : string) : list string :=
  match s with
  | EmptyString => [EmptyString]
  | String c r =>
      if Ascii.eqb c " "%char then EmptyString :: split_space r
      else
        match split_space r with
        | piece :: pieces => String c piece :: pieces
        | [] => [String c EmptyString]
        end
  end.

Definition len (s : string) : Z := Z.of_nat (String.length s).

End Str.

(** ** Arrays *)

(** [a.slice(0, n)]: a negative [n] counts from the end of the array. *)
Definition slice_to {A} (n : Z) (a : list A) : list A :=
  if n <? 0 then take (Z.to_nat (Z.of_nat (length a) + n)) a
  else take (Z.to_nat n) a.

(** ** Data model *)

(** A candidate song, as the fetchers build it and as the model's JSON is
    read.  Every field may be absent.  [sourceUrl] and [match_reason],
    which no function of the module reads, are left out.  A field that the
    JSON gives as [null] is not represented: a song here has a field or
    lacks it. *)
Record Song := mkSong {
  title : option string;
  artist : option string;
  album : option string;
  year : option Z;
  genre : option string;
  source : option string;
  reason : option string;
  cultural_impact_score : option Q;
  basicScore : option Z;
  similarity_score : option float;
  alignment_score : option Q
}.

(** The template literal [`${x}`] of a string field. *)
Definition render (x : option string) : string :=
  match x with
  | Some s => s
  | None => "undefined"
  end.

(** ** Deduplication *)

(** [x?.toLowerCase().trim().slice(0, 20)] *)
Definition norm20 (x : option string) : option string :=
  match x with
  | Some s => Some (Str.slice0 20 (Str.trim (Str.toLowerCase s)))
  | None => None
  end.

Definition song_key (song : Song) : string :=
  render (norm20 (title song)) ++ "-" ++ render (norm20 (artist song)).

(** The [filter] callback of [removeDuplicateSongsFast], with the [Set] it
    mutates passed along. *)
Fixpoint filter_unseen (seen : gset string) (songs : list Song) : list Song :=
  match songs with
  | [] => []
  | song :: rest =>
      if decide (song_key song ∈ seen) then filter_unseen seen rest
      else song :: filter_unseen ({[song_key song]} ∪ seen) rest
  end.

Definition removeDuplicateSongsFast (songs : list Song) : list Song :=
  filter_unseen ∅ songs.

(** ** Regular expressions

    A backtracking matcher for the fragment of the language's regular
    expressions that the module uses: literals, character classes, greedy
    [+], capture groups, [\b], and the [i] flag. *)

Module Regex.

Inductive re :=
| Lit (c : ascii)                                         (* a character *)
| Cls (ranges : list (ascii * ascii)) (space : bool)      (* [a-z...\s] *)
| Seq (r1 r2 : re)
| Plus (r : re)                                           (* r+, greedy *)
| Group (r : re)                                          (* ( r ), group 1 *)
| WordB                                                   (* \b *)
| Eps.

(** The position of the matcher: the character before it, if any, and the
    input that remains. *)
Record pos := mkPos { before : option ascii; rest : list ascii }.

Definition advance (c : ascii) (r : list ascii) : pos := mkPos (Some c) r.

Definition in_ranges (ranges : list (ascii * ascii)) (c : ascii) : bool :=
  existsb (fun '(lo, hi) =>
    ((nat_of_ascii lo <=? nat_of_ascii c) && (nat_of_ascii c <=? nat_of_ascii hi))%nat)
    ranges.

Definition in_class (ranges : list (ascii * ascii)) (space : bool) (c : ascii) : bool :=
  in_ranges ranges c || (space && Str.is_space c).

(** With the [i] flag two characters match when their upper-case forms
    agree; a class matches when it holds a case variant of the character. *)
Definition lit_matches (icase : bool) (c x : ascii) : bool :=
  if icase then Ascii.eqb (Str.upper_char c) (Str.upper_char x) else Ascii.eqb c x.

Definition cls_matches (icase : bool) ranges space (x : ascii) : bool :=
  in_class ranges space x
  || (icase && (in_class ranges space (Str.upper_char x)
                || in_class ranges space (Str.lower_char x))).

Definition word_before (p : pos) : bool :=
  match before p with Some c => Str.is_word c | None => false end.

Definition word_after (p : pos) : bool :=
  match rest p with c :: _ => Str.is_word c | [] => false end.

Definition at_boundary (p : pos) : bool := xorb (word_before p) (word_after p).

Definition result := option (option (list ascii)).
Definition cont := pos -> option (list ascii) -> result.

(** Greedy repetition of [step], at least once: after an iteration that
    consumed input, one more iteration is tried before the continuation. *)
Fixpoint iterate (step : pos -> option (list ascii) -> cont -> result) (k : cont)
    (fuel : nat) (p0 : pos) (cap0 : option (list ascii)) {struct fuel} : result :=
  step p0 cap0 (fun p' cap' =>
    match fuel with
    | O => k p' cap'
    | S fuel' =>
        if (length (rest p') <? length (rest p0))%nat then
          match iterate step k fuel' p' cap' with
          | Some res => Some res
          | None => k p' cap'
          end
        else k p' cap'
    end).

(** [run icase r p cap k]: match [r] at [p], then continue with [k]; the
    result is the text of group 1. *)
Fixpoint run (icase : bool) (r : re) (p : pos) (cap : option (list ascii)) (k : cont)
    {struct r} : result :=
  match r with
  | Lit c =>
      match rest p with
      | x :: xs => if lit_matches icase c x then k (advance x xs) cap else None
      | [] => None
      end
  | Cls ranges space =>
      match rest p with
      | x :: xs => if cls_matches icase ranges space x then k (advance x xs) cap else None
      | [] => None
      end
  | Seq r1 r2 => run icase r1 p cap (fun p' cap' => run icase r2 p' cap' k)
  | Plus r1 => iterate (run icase r1) k (length (rest p)) p cap
  | Group r1 =>
      run icase r1 p cap (fun p' _ =>
        k p' (Some (take (length (rest p) - length (rest p')) (rest p))))
  | WordB => if at_boundary p then k p cap else None
  | Eps => k p cap
  end.

Definition match_at (icase : bool) (r : re) (p : pos) : result :=
  run icase r p None (fun _ cap => Some cap).

(** The leftmost match: every start position in turn. *)
Fixpoint search (icase : bool) (r : re) (prev : option ascii) (s : list ascii)
    : result :=
  match match_at icase r (mkPos prev s) with
  | Some cap => Some cap
  | None =>
      match s with
      | [] => None
      | c :: s' => search icase r (Some c) s'
      end
  end.

(** [s.match(r)[1]] for a pattern without the [g] flag: [None] when there
    is no match or group 1 did not take part. *)
Definition match1 (icase : bool) (r : re) (s : string) : option string :=
  match search icase r None (list_ascii_of_string s) with
  | Some (Some cap) => Some (string_of_list_ascii cap)
  | _ => None
  end.

(** A run of literal characters. *)
Fixpoint word (w : string) : re :=
  match w with
  | EmptyString => Eps
  | String c w' => Seq (Lit c) (word w')
  end.

Definition upperAZ : re := Cls [("A", "Z")]%char false.
Definition lowerAZ : re := Cls [("a", "z")]%char false.
Definition letters_or_space : re := Cls [("A", "Z"); ("a", "z")]%char true.
Definition space : re := Cls [] true.
Definition digit : re := Cls [("0", "9")]%char false.

End Regex.

(** ** Prompt heuristics *)

(** [/by ([A-Za-z\s]+)/i], [/from ([A-Za-z\s]+)/i] and
    [/([A-Z][a-z]+\s[A-Z][a-z]+)\s+songs/i]; all three carry the [i] flag. *)
Definition artistPatterns : list Regex.re :=
  [ Regex.Seq (Regex.word "by ") (Regex.Group (Regex.Plus Regex.letters_or_space));
    Regex.Seq (Regex.word "from ") (Regex.Group (Regex.Plus Regex.letters_or_space));
    Regex.Seq
      (Regex.Group
         (Regex.Seq Regex.upperAZ (Regex.Seq (Regex.Plus Regex.lowerAZ)
            (Regex.Seq Regex.space (Regex.Seq Regex.upperAZ (Regex.Plus Regex.lowerAZ))))))
      (Regex.Seq (Regex.Plus Regex.space) (Regex.word "songs")) ].

(** The [for] loop of [extractArtistFromPrompt] over the patterns that remain. *)
Fixpoint first_artist (patterns : list Regex.re) (prompt : string) : option string :=
  match patterns with
  | [] => None
  | pattern :: more =>
      match Regex.match1 true pattern prompt with
      | Some m1 =>
          if (0 <? Str.len m1) && (3 <? Str.len m1) then Some (Str.trim m1)
          else first_artist more prompt
      | None => first_artist more prompt
      end
  end.

Definition extractArtistFromPrompt (prompt : string) : option string :=
  first_artist artistPatterns prompt.

(** [parseInt] of a run of decimal digits, up to its conversion to a
    Number: the integer that the digits denote. *)
Definition digit_value (c : ascii) : Z := Z.of_nat (nat_of_ascii c) - 48.

Definition parseInt (digits : string) : Z :=
  fold_left (fun acc c => 10 * acc + digit_value c) (list_ascii_of_string digits) 0.

(** A non-negative integer as a Number.  A binary64 holds an integer below
    2^53 exactly.  A larger one is rounded, to Infinity in the end, and how
    the digits past the twentieth are read is left to the runtime: of such
    a number the model keeps only that it is at least 2^53. *)
Inductive Number :=
| Exact (n : Z)
| Huge.

Definition to_number (n : Z) : Number := if n <? 2 ^ 53 then Exact n else Huge.

(** [x || d], a parsed number or a default; 0 is falsy. *)
Definition number_or (x : option Number) (d : Z) : Number :=
  match x with
  | Some (Exact n) => if n =? 0 then Exact d else Exact n
  | Some Huge => Huge
  | None => Exact d
  end.

(** [Math.min(x, k)] for a bound [k] below 2^53. *)
Definition number_min (x : Number) (k : Z) : Z :=
  match x with
  | Exact n => Z.min n k
  | Huge => k
  end.

(** [/\b(\d+)\b/] *)
Definition numberPattern : Regex.re :=
  Regex.Seq Regex.WordB (Regex.Seq (Regex.Group (Regex.Plus Regex.digit)) Regex.WordB).

Definition extractNumberFromPrompt (prompt : string) : option Number :=
  match Regex.match1 false numberPattern prompt with
  | Some m1 => Some (to_number (parseInt m1))
  | None => None
  end.

(** ** Completions and the external services *)

Inductive JsError :=
| Error (message : string)
| TypeError (message : string)
| ReferenceError (message : string).

(** How a call ends: with a value, or with a thrown error (for an [async]
    function: a promise that resolves, or one that rejects). *)
Inductive completion (A : Type) :=
| Normal (value : A)
| Throw (err : JsError).
Arguments Normal {A} value.
Arguments Throw {A} err.

Record Constraints := mkConstraints {
  targetCount : option Z;
  minCount : option Z;
  decade : option string;
  specificArtist : option string;
  mood : option string
}.

Record Analysis := mkAnalysis {
  constraints : Constraints;
  searchQueries : list string;
  refinedPrompt : string;
  keywords : list string;
  originalEmbedding : option (list float)
}.

(** What [JSON.parse] returns where the code expects an array of songs. *)
Inductive SongsJson :=
| JsonArray (songs : list Song)
| JsonOther.

(** A track of the catalog: its name and the names of its artists. *)
Record Track := mkTrack {
  name : string;
  artists : list string;
  uri : string
}.

(** A track with the [classicMetadata] the resolver attaches to it. *)
Record ResolvedTrack := mkResolved {
  track : Track;
  classicMetadata : Song;
  search_strategy : string
}.

(** The third-party services, each as the answer it gives to a request.
    - [analysis_reply prompt]: [callMistralAI] on the analysis messages and
      [JSON.parse] of its text; [Throw] on a failed request, a timeout or
      text that does not parse.
    - [embeddings_reply texts]: [getMistralEmbeddingsBatch], one vector per
      element of [data].
    - [brave_reply query]: one search request and the songs that
      [extractSongsFromBraveResultsFast] mines from its response; the empty
      list when the request fails.
    - [generation_reply] and [verification_reply]: [callMistralAI] on the
      curator and the rating messages, and [JSON.parse] of the text.
    - [spotify_reply query token]: [fetchFromSpotify] on the search URL of
      [query], giving [response?.tracks?.items || []].
    A reply that parses is taken to have the shape its prompt asks for:
    an analysis has its [constraints], and the elements of an array are
    song objects with fields of the types of [Song]. *)
Record Services := mkServices {
  analysis_reply : string -> completion Analysis;
  embeddings_reply : list string -> completion (list (list float));
  brave_reply : string -> list Song;
  generation_reply : string -> Constraints -> completion SongsJson;
  verification_reply : string -> list Song -> completion SongsJson;
  spotify_reply : string -> string -> completion (list Track)
}.

(** [SPEED_CONFIG] *)
Definition maxCandidatesForEmbedding : Z := 15.
Definition maxConcurrentRequests : nat := 8.
Definition skipSemanticSimilarity : bool := false.

(** [x || d] for a count: [undefined] and [0] are falsy. *)
Definition or_default (x : option Z) (d : Z) : Z :=
  match x with
  | Some n => if n =? 0 then d else n
  | None => d
  end.

(** ** Step 1: prompt analysis *)

(** The [catch] branch of [analyzeUserPromptFast]. *)
Definition analysis_fallback (prompt : string) : Analysis :=
  let fallbackCount := number_or (extractNumberFromPrompt prompt) 10 in
  {| constraints :=
       {| targetCount := Some (number_min fallbackCount 15);
          minCount := Some (number_min fallbackCount 3);
          decade := None;
          specificArtist := extractArtistFromPrompt prompt;
          mood := Some "balanced" |};
     searchQueries := [prompt ++ " songs best"; prompt ++ " music top"];
     refinedPrompt := prompt;
     keywords := take 5 (List.filter (fun w => 2 <? Str.len w) (Str.split_space prompt));
     originalEmbedding := None |}.

Definition analyzeUserPromptFast (sv : Services) (prompt : string) : Analysis :=
  match analysis_reply sv prompt, embeddings_reply sv [prompt] with
  | Normal analysis, Normal (embedding :: _) =>
      {| constraints := constraints analysis;
         searchQueries := searchQueries analysis;
         refinedPrompt := refinedPrompt analysis;
         keywords := keywords analysis;
         originalEmbedding := Some embedding |}
  | _, _ => analysis_fallback prompt
  end.

(** ** Steps 2 and 3: the two fetchers *)

Definition searchWithBraveAPIFast (sv : Services) (queries : list string) : list Song :=
  removeDuplicateSongsFast (concat (map (brave_reply sv) (take 2 queries))).

Definition with_source (src : string) (song : Song) : Song :=
  {| title := title song; artist := artist song; album := album song;
     year := year song; genre := genre song; source := Some src;
     reason := reason song; cultural_impact_score := cultural_impact_score song;
     basicScore := basicScore song; similarity_score := similarity_score song;
     alignment_score := alignment_score song |}.

Definition generateAIRecommendationsFast (sv : Services) (refined : string)
    (c : Constraints) : list Song :=
  match generation_reply sv refined c with
  | Normal (JsonArray parsed) =>
      map (with_source "mistral_ai_generation")
          (slice_to (or_default (targetCount c) 15) parsed)
  | Normal JsonOther => []
  | Throw _ => []
  end.

(** ** Step 4: fusion, scoring and verification *)

Definition with_basicScore (score : Z) (song : Song) : Song :=
  {| title := title song; artist := artist song; album := album song;
     year := year song; genre := genre song; source := source song;
     reason := reason song; cultural_impact_score := cultural_impact_score song;
     basicScore := Some score; similarity_score := similarity_score song;
     alignment_score := alignment_score song |}.

Definition with_similarity (sim : float) (song : Song) : Song :=
  {| title := title song; artist := artist song; album := album song;
     year := year song; genre := genre song; source := source song;
     reason := reason song; cultural_impact_score := cultural_impact_score song;
     basicScore := basicScore song; similarity_score := Some sim;
     alignment_score := alignment_score song |}.

Definition source_is (song : Song) (s : string) : bool :=
  match source song with
  | Some src => String.eqb src s
  | None => false
  end.

(** [song.year && song.year >= 1950 && song.year <= 2024] *)
Definition year_plausible (song : Song) : bool :=
  match year song with
  | Some y => negb (y =? 0) && (1950 <=? y) && (y <=? 2024)
  | None => false
  end.

(** [song.cultural_impact_score && song.cultural_impact_score >= 6] *)
Definition impact_high (song : Song) : bool :=
  match cultural_impact_score song with
  | Some q => negb (Qeq_bool q 0) && Qle_bool 6 q
  | None => false
  end.

(** [!x || x.length < 2] *)
Definition missing_or_short (x : option string) : bool :=
  match x with
  | Some s => (Str.len s =? 0) || (Str.len s <? 2)
  | None => true
  end.

Definition searchTerms (originalPrompt : string) : list string :=
  List.filter (fun term => 2 <? Str.len term)
              (Str.split_space (Str.toLowerCase originalPrompt)).

Definition songText (song : Song) : string :=
  Str.toLowerCase (render (title song) ++ " " ++ render (artist song)).

Definition keywordMatches (originalPrompt : string) (song : Song) : Z :=
  Z.of_nat (length (List.filter (fun term => Str.includes (songText song) term)
                                (searchTerms originalPrompt))).

(** The body of the scoring callback, statement by statement. *)
Definition basic_score (originalPrompt : string) (song : Song) : Z :=
  let score := 0 in
  let score :=
    if source_is song "mistral_ai_generation" then score + 5
    else if source_is song "brave_search" then score + 2
    else score in
  let score := if year_plausible song then score + 2 else score in
  let score := if impact_high song then score + 3 else score in
  let score := score + keywordMatches originalPrompt song in
  let score := if missing_or_short (title song) then score - 3 else score in
  let score := if missing_or_short (artist song) then score - 3 else score in
  score.

Definition score_song (originalPrompt : string) (song : Song) : Song :=
  with_basicScore (basic_score originalPrompt song) song.

(** [Array.prototype.sort] with a comparator, as a stable insertion sort:
    [x] goes before [y] unless the comparator is positive.  For a consistent
    comparator this is the order the language prescribes, which every
    runtime returns.  Where the comparator is not consistent (a difference
    of similarities that is NaN for some pairs and not for others) the
    language leaves the order to the runtime: the result here is then a
    permutation of the input, and its order is not the runtime's. *)
Fixpoint sort_insert {A} (cmp : A -> A -> Z) (x : A) (l : list A) : list A :=
  match l with
  | [] => [x]
  | y :: l' => if cmp x y <=? 0 then x :: y :: l' else y :: sort_insert cmp x l'
  end.

Definition js_sort {A} (cmp : A -> A -> Z) (l : list A) : list A :=
  fold_right (sort_insert cmp) [] l.

(** [(a, b) => b.basicScore - a.basicScore] *)
Definition by_basicScore_desc (a b : Song) : Z :=
  match basicScore b, basicScore a with
  | Some x, Some y => x - y
  | _, _ => 0
  end.

(** The sign of [b.similarity_score - a.similarity_score]; a comparator
    value of NaN counts as 0. *)
Definition by_similarity_desc (a b : Song) : Z :=
  match similarity_score b, similarity_score a with
  | Some x, Some y =>
      let d := (x - y)%float in
      if (d <? 0)%float then -1 else if (0 <? d)%float then 1 else 0
  | _, _ => 0
  end.

(** [vecB[i]] inside a product: [undefined] becomes NaN. *)
Definition index_num (v : list float) (i : nat) : float := List.nth i v nan.

(** [l.reduce((acc, a, i) => f acc a i, acc)] from index [i]. *)
Fixpoint reduce_indexed {A B} (f : B -> A -> nat -> B) (i : nat) (l : list A) (acc : B) : B :=
  match l with
  | [] => acc
  | a :: l' => reduce_indexed f (S i) l' (f acc a i)
  end.

Definition sum_squares (v : list float) : float :=
  reduce_indexed (fun sum a _ => (sum + a * a)%float) 0 v 0%float.

Definition cosineSimilarity (vecA vecB : list float) : float :=
  let dotProduct :=
    reduce_indexed (fun sum a i => (sum + a * index_num vecB i)%float) 0 vecA 0%float in
  let magnitudeA := PrimFloat.sqrt (sum_squares vecA) in
  let magnitudeB := PrimFloat.sqrt (sum_squares vecB) in
  (dotProduct / (magnitudeA * magnitudeB))%float.

Definition embedding_text (song : Song) : string :=
  render (title song) ++ " " ++ render (artist song) ++ " " ++
  match genre song with
  | Some g => g
  | None => EmptyString
  end.

(** [filteredSongs.map((song, index) => ...)]: reading [.embedding] of a
    missing element of [embeddingData] throws. *)
Fixpoint attach_similarity (originalEmbedding : list float) (songs : list Song)
    (embeddingData : list (list float)) : completion (list Song) :=
  match songs with
  | [] => Normal []
  | song :: songs' =>
      match embeddingData with
      | [] => Throw (TypeError "Cannot read properties of undefined (reading 'embedding')")
      | e :: data' =>
          match attach_similarity originalEmbedding songs' data' with
          | Normal l => Normal (with_similarity (cosineSimilarity originalEmbedding e) song :: l)
          | Throw err => Throw err
          end
      end
  end.

Definition rankSongsBySementicSimilarityFast (sv : Services) (filteredSongs : list Song)
    (originalEmbedding : list float) : list Song :=
  match embeddings_reply sv (map embedding_text filteredSongs) with
  | Normal embeddingData =>
      match attach_similarity originalEmbedding filteredSongs embeddingData with
      | Normal songsWithSimilarity => js_sort by_similarity_desc songsWithSimilarity
      | Throw _ => filteredSongs
      end
  | Throw _ => filteredSongs
  end.

(** [!song.alignment_score || song.alignment_score < 6] *)
Definition alignment_low (song : Song) : bool :=
  match alignment_score song with
  | Some a => Qeq_bool a 0 || negb (Qle_bool 6 a)
  | None => true
  end.

(** The artist check of the client-side filter; [true] keeps the song. *)
Definition artist_check (c : Constraints) (song : Song) : bool :=
  match specificArtist c with
  | Some requested =>
      if Str.len requested =? 0 then true
      else
        let requestedArtist := Str.toLowerCase requested in
        let songArtist :=
          match artist song with
          | Some a => Str.toLowerCase a
          | None => EmptyString
          end in
        Str.includes songArtist requestedArtist || Str.includes requestedArtist songArtist
  | None => true
  end.

Definition verified_keep (c : Constraints) (song : Song) : bool :=
  if alignment_low song then false else artist_check c song.

(** The bindings of [combineAndVerifyAlignmentFast] that hold song arrays
    and are visible in its [catch] block: the parameters.  [allSongs] and
    the other [const]s of the [try] block are local to that block, and the
    module declares nothing under those names. *)
Definition catch_scope (webResults aiResults : list Song) : list (string * list Song) :=
  [("webResults", webResults); ("aiResults", aiResults)].

Fixpoint scope_lookup (scope : list (string * list Song)) (x : string)
    : completion (list Song) :=
  match scope with
  | [] => Throw (ReferenceError (x ++ " is not defined"))
  | (y, v) :: scope' => if String.eqb x y then Normal v else scope_lookup scope' x
  end.

(** [song.title && song.artist] *)
Definition has_title_and_artist (song : Song) : bool :=
  match title song, artist song with
  | Some t, Some a => negb (Str.len t =? 0) && negb (Str.len a =? 0)
  | _, _ => false
  end.

Definition combineAndVerifyAlignmentFast (sv : Services) (webResults aiResults : list Song)
    (originalPrompt : string) (originalEmbedding : option (list float))
    (c : Constraints) : completion (list Song) :=
  let allSongs := removeDuplicateSongsFast (webResults ++ aiResults) in
  if (length allSongs =? 0)%nat then Normal []
  else
    let scoredSongs := map (score_song originalPrompt) allSongs in
    let topCandidates :=
      slice_to maxCandidatesForEmbedding (js_sort by_basicScore_desc scoredSongs) in
    let rankedSongs :=
      match originalEmbedding with
      | Some embedding =>
          if negb skipSemanticSimilarity && (0 <? length topCandidates)%nat
          then rankSongsBySementicSimilarityFast sv topCandidates embedding
          else topCandidates
      | None => topCandidates
      end in
    match verification_reply sv originalPrompt (slice_to 10 rankedSongs) with
    | Normal verified =>
        let filtered :=
          match verified with
          | JsonArray songs => List.filter (verified_keep c) songs
          | JsonOther => []
          end in
        Normal (slice_to (or_default (targetCount c) 12) filtered)
    | Throw _ =>
        (* catch (err) { return allSongs.filter(...).slice(...) } *)
        match scope_lookup (catch_scope webResults aiResults) "allSongs" with
        | Normal visible =>
            Normal (slice_to (or_default (targetCount c) 12)
                             (List.filter has_title_and_artist visible))
        | Throw err => Throw err
        end
    end.

(** ** Step 5: catalog resolution *)

(** A size, as a number. *)
Definition to_float (n : nat) : float := PrimFloat.of_uint63 (Uint63.of_Z (Z.of_nat n)).

(** [new Set(str.toLowerCase())] *)
Definition char_set (str : string) : gset ascii :=
  list_to_set (list_ascii_of_string (Str.toLowerCase str)).

Definition calculateStringSimilarityFast (str1 str2 : string) : float :=
  if String.eqb str1 str2 then 1%float
  else if (Str.len str1 =? 0) || (Str.len str2 =? 0) then 0%float
  else
    let chars1 := char_set str1 in
    let chars2 := char_set str2 in
    let intersection : gset ascii := filter (fun x => x ∈ chars2) chars1 in
    (to_float (size intersection) / to_float (Nat.max (size chars1) (size chars2)))%float.

(** [Math.max(...xs)]: minus infinity for no argument, NaN if one is NaN. *)
Definition math_max (xs : list float) : float :=
  fold_left (fun m x =>
               if PrimFloat.is_nan m || PrimFloat.is_nan x then nan
               else if (m <? x)%float then x else m)
            xs neg_infinity.

(** The similarities of the track's artists to the song's artist; the
    callback reads [targetSong.artist.toLowerCase()], so it throws on an
    absent artist as soon as the track has one artist. *)
Definition artist_similarities (t : Track) (targetSong : Song) : completion (list float) :=
  match artists t with
  | [] => Normal []
  | _ :: _ =>
      match artist targetSong with
      | Some a =>
          Normal (map (fun artist_name =>
                         calculateStringSimilarityFast (Str.toLowerCase artist_name)
                                                       (Str.toLowerCase a))
                      (artists t))
      | None => Throw (TypeError "Cannot read properties of undefined (reading 'toLowerCase')")
      end
  end.

Definition combinedScore (titleSim artistSim : float) : float :=
  (titleSim * 0.6 + artistSim * 0.4)%float.

(** The [for] loop of [findBestTrackMatchFast]: the first track whose
    combined score exceeds 0.5, [None] when the loop runs to its end. *)
Fixpoint first_decent_match (tracks : list Track) (targetSong : Song)
    : completion (option Track) :=
  match tracks with
  | [] => Normal None
  | t :: more =>
      match title targetSong with
      | None => Throw (TypeError "Cannot read properties of undefined (reading 'toLowerCase')")
      | Some target_title =>
          let titleSim :=
            calculateStringSimilarityFast (Str.toLowerCase (name t))
                                          (Str.toLowerCase target_title) in
          match artist_similarities t targetSong with
          | Throw err => Throw err
          | Normal sims =>
              let artistSim := math_max sims in
              if (0.5 <? combinedScore titleSim artistSim)%float then Normal (Some t)
              else first_decent_match more targetSong
          end
      end
  end.

Definition findBestTrackMatchFast (tracks : list Track) (targetSong : Song)
    : completion (option Track) :=
  match tracks with
  | [] => Normal None
  | first :: _ =>
      match first_decent_match tracks targetSong with
      | Normal (Some t) => Normal (Some t)
      | Normal None => Normal (Some first)
      | Throw err => Throw err
      end
  end.

Definition dquote : string := String (ascii_of_nat 34) EmptyString.

(** [track:"T" artist:"A"], then [T A]. *)
Definition searchStrategies (song : Song) : list string :=
  [ "track:" ++ dquote ++ render (title song) ++ dquote ++
    " artist:" ++ dquote ++ render (artist song) ++ dquote;
    render (title song) ++ " " ++ render (artist song) ].

(** The loop over the search strategies that remain. *)
Fixpoint try_strategies (sv : Services) (token : string) (song : Song)
    (queries : list string) : completion (option ResolvedTrack) :=
  match queries with
  | [] => Normal None
  | query :: more =>
      match spotify_reply sv query token with
      | Throw err => Throw err
      | Normal tracks =>
          match findBestTrackMatchFast tracks song with
          | Throw err => Throw err
          | Normal (Some bestMatch) =>
              Normal (Some {| track := bestMatch; classicMetadata := song;
                              search_strategy := query |})
          | Normal None => try_strategies sv token song more
          end
      end
  end.

(** One element of [batchPromises]: the [try] with its [catch]. *)
Definition resolve_song (sv : Services) (token : string) (song : Song) : option ResolvedTrack :=
  match try_strategies sv token song (searchStrategies song) with
  | Normal found => found
  | Throw _ => None
  end.

(** The slices [songs.slice(i, i + n)] for [i = 0, n, 2n, ...]. *)
Fixpoint batches_of {A} (fuel n : nat) (l : list A) : list (list A) :=
  match fuel with
  | O => []
  | S fuel' =>
      match l with
      | [] => []
      | _ :: _ => take n l :: batches_of fuel' n (drop n l)
      end
  end.

Definition searchTracksOnSpotifyFast (sv : Services) (songs : list Song) (token : string)
    : list ResolvedTrack :=
  concat (map (fun batch => omap (resolve_song sv token) batch)
              (batches_of (length songs) maxConcurrentRequests songs)).

(** ** The entry point *)

Definition show_Z (n : Z) : string := NilZero.string_of_int (Z.to_int n).

(** [Math.min(constraints.minCount, 3)]: NaN, here [None], for an absent
    [minCount]. *)
Definition min_needed (c : Constraints) : option Z :=
  match minCount c with
  | Some m => Some (Z.min m 3)
  | None => None
  end.

(** [alignedSongs.length < Math.min(minCount, 3)]; false against NaN. *)
Definition too_few (c : Constraints) (alignedSongs : list Song) : bool :=
  match min_needed c with
  | Some need => Z.of_nat (length alignedSongs) <? need
  | None => false
  end.

(** [Math.min(constraints.targetCount, 15)] as the end of a slice: NaN
    counts as 0 there. *)
Definition resolve_limit (c : Constraints) : Z :=
  match targetCount c with
  | Some t => Z.min t 15
  | None => 0
  end.

(** Steps 1 to 4 of the [try] block: the final aligned list. *)
Definition alignedSongs_of (sv : Services) (prompt : string) : completion (list Song) :=
  let analysisResult := analyzeUserPromptFast sv prompt in
  let webResults := searchWithBraveAPIFast sv (searchQueries analysisResult) in
  let aiResults :=
    generateAIRecommendationsFast sv (refinedPrompt analysisResult)
                                  (constraints analysisResult) in
  combineAndVerifyAlignmentFast sv webResults aiResults prompt
    (originalEmbedding analysisResult) (constraints analysisResult).

(** The [try] block of [generateClassicRecommendations]. *)
Definition workflow (sv : Services) (prompt token : string)
    : completion (list ResolvedTrack) :=
  let analysisResult := analyzeUserPromptFast sv prompt in
  match alignedSongs_of sv prompt with
  | Throw err => Throw err
  | Normal alignedSongs =>
      if too_few (constraints analysisResult) alignedSongs then
        Throw (Error ("Not enough quality results: found "
                      ++ show_Z (Z.of_nat (length alignedSongs)) ++ ", need "
                      ++ show_Z (default 0 (min_needed (constraints analysisResult)))))
      else
        Normal (searchTracksOnSpotifyFast sv
                  (slice_to (resolve_limit (constraints analysisResult)) alignedSongs)
                  token)
  end.

(** The exported function: its [catch] turns every error of the [try]
    block into the empty array, so its promise always resolves. *)
Definition generateClassicRecommendations (sv : Services) (prompt token : string)
    : completion (list ResolvedTrack) :=
  match workflow sv prompt token with
  | Normal spotifyTracks => Normal spotifyTracks
  | Throw _ => Normal []
  end.

(** ** Step 2, in full: mining songs from search results

    The search patterns have two groups, negated classes and the [g] flag,
    and the year pattern has an alternative; they are run on a second
    matcher, which also returns where a match starts and ends. *)

Module Rx.

Inductive re :=
| Chr (c : ascii)                                                  (* a character *)
| Set_ (negated : bool) (ranges : list (ascii * ascii)) (space : bool)   (* [...], [^...] *)
| Seq (r1 r2 : re)
| Alt (r1 r2 : re)                                                 (* r1|r2 *)
| Plus (r : re)                                                    (* r+, greedy *)
| Group (i : nat) (r : re)                                         (* the i-th ( r ) *)
| Bound                                                            (* \b *)
| Eps.

(** The groups matched so far, the latest first. *)
Definition captures := list (nat * list ascii).

Fixpoint group (i : nat) (caps : captures) : option (list ascii) :=
  match caps with
  | [] => None
  | (j, w) :: caps' => if (i =? j)%nat then Some w else group i caps'
  end.

Definition result := option (captures * Regex.pos).
Definition cont := Regex.pos -> captures -> result.

Definition set_matches (icase negated : bool) ranges space (x : ascii) : bool :=
  xorb negated (Regex.cls_matches icase ranges space x).

Fixpoint iterate (step : Regex.pos -> captures -> cont -> result) (k : cont)
    (fuel : nat) (p0 : Regex.pos) (caps0 : captures) {struct fuel} : result :=
  step p0 caps0 (fun p' caps' =>
    match fuel with
    | O => k p' caps'
    | S fuel' =>
        if (length (Regex.rest p') <? length (Regex.rest p0))%nat then
          match iterate step k fuel' p' caps' with
          | Some res => Some res
          | None => k p' caps'
          end
        else k p' caps'
    end).

Fixpoint run (icase : bool) (r : re) (p : Regex.pos) (caps : captures) (k : cont)
    {struct r} : result :=
  match r with
  | Chr c =>
      match Regex.rest p with
      | x :: xs => if Regex.lit_matches icase c x then k (Regex.advance x xs) caps else None
      | [] => None
      end
  | Set_ negated ranges space =>
      match Regex.rest p with
      | x :: xs =>
          if set_matches icase negated ranges space x then k (Regex.advance x xs) caps
          else None
      | [] => None
      end
  | Seq r1 r2 => run icase r1 p caps (fun p' caps' => run icase r2 p' caps' k)
  | Alt r1 r2 =>
      match run icase r1 p caps k with
      | Some res => Some res
      | None => run icase r2 p caps k
      end
  | Plus r1 => iterate (run icase r1) k (length (Regex.rest p)) p caps
  | Group i r1 =>
      run icase r1 p caps (fun p' caps' =>
        k p' ((i, take (length (Regex.rest p) - length (Regex.rest p')) (Regex.rest p))
              :: caps'))
  | Bound => if Regex.at_boundary p then k p caps else None
  | Eps => k p caps
  end.

Definition match_at (icase : bool) (r : re) (p : Regex.pos) : result :=
  run icase r p [] (fun p' caps => Some (caps, p')).

(** One match: its groups, where it starts and where it ends. *)
Record found := mkFound { groups : captures; from : Regex.pos; upto : Regex.pos }.

(** The leftmost match at or after a position. *)
Fixpoint search (icase : bool) (r : re) (prev : option ascii) (s : list ascii)
    : option found :=
  match match_at icase r (Regex.mkPos prev s) with
  | Some (caps, p') => Some (mkFound caps (Regex.mkPos prev s) p')
  | None =>
      match s with
      | [] => None
      | c :: s' => search icase r (Some c) s'
      end
  end.

(** [s.matchAll(r)] for a pattern with the [g] flag: each search starts
    where the last match ended, one character later after an empty match. *)
Fixpoint matchAll_from (icase : bool) (r : re) (fuel : nat) (prev : option ascii)
    (s : list ascii) : list captures :=
  match fuel with
  | O => []
  | S fuel' =>
      match search icase r prev s with
      | None => []
      | Some m =>
          groups m ::
          (if (length (Regex.rest (upto m)) <? length (Regex.rest (from m)))%nat then
             matchAll_from icase r fuel' (Regex.before (upto m)) (Regex.rest (upto m))
           else
             match Regex.rest (upto m) with
             | [] => []
             | c :: s' => matchAll_from icase r fuel' (Some c) s'
             end)
      end
  end.

Definition matchAll (icase : bool) (r : re) (s : string) : list captures :=
  let l := list_ascii_of_string s in
  matchAll_from icase r (S (length l)) None l.

(** [s.match(r)] without the [g] flag. *)
Definition match_ (icase : bool) (r : re) (s : string) : option captures :=
  match search icase r None (list_ascii_of_string s) with
  | Some m => Some (groups m)
  | None => None
  end.

Fixpoint word (w : string) : re :=
  match w with
  | EmptyString => Eps
  | String c w' => Seq (Chr c) (word w')
  end.

Definition one_of (negated : bool) (chars : list ascii) : re :=
  Set_ negated (map (fun c => (c, c)) chars) false.

Definition range (lo hi : ascii) : re := Set_ false [(lo, hi)] false.

End Rx.

Definition quote_char : ascii := ascii_of_nat 34.
Definition newline_char : ascii := ascii_of_nat 10.

(** The first pattern, a quoted title, [ by ] and an artist:
    [/[Q]([^Q]+)[Q] by ([^,.\n]+)/gi], where [Q] stands for the double
    quote character. *)
Definition quotedPattern : Rx.re :=
  Rx.Seq (Rx.one_of false [quote_char])
    (Rx.Seq (Rx.Group 1 (Rx.Plus (Rx.one_of true [quote_char])))
       (Rx.Seq (Rx.one_of false [quote_char])
          (Rx.Seq (Rx.word " by ")
             (Rx.Group 2 (Rx.Plus (Rx.one_of true [","; "."; newline_char]%char)))))).

(** [/([^-\n]+) - ([^,.\n]+)/gi] *)
Definition dashPattern : Rx.re :=
  Rx.Seq (Rx.Group 1 (Rx.Plus (Rx.one_of true ["-"%char; newline_char])))
    (Rx.Seq (Rx.word " - ")
       (Rx.Group 2 (Rx.Plus (Rx.one_of true [","; "."; newline_char]%char)))).

(** [/\b(19[5-9]\d|20[0-2]\d)\b/]; the group holds four digits, which
    [parseInt] reads exactly. *)
Definition yearPattern : Rx.re :=
  Rx.Seq Rx.Bound
    (Rx.Seq
       (Rx.Group 1
          (Rx.Alt
             (Rx.Seq (Rx.Chr "1") (Rx.Seq (Rx.Chr "9")
                (Rx.Seq (Rx.range "5" "9") (Rx.range "0" "9"))))
             (Rx.Seq (Rx.Chr "2") (Rx.Seq (Rx.Chr "0")
                (Rx.Seq (Rx.range "0" "2") (Rx.range "0" "9"))))))
       Rx.Bound).

Definition extractYear (text : string) : option Z :=
  match Rx.match_ false yearPattern text with
  | Some caps =>
      match Rx.group 1 caps with
      | Some digits => Some (parseInt (string_of_list_ascii digits))
      | None => None
      end
  | None => None
  end.

(** One element of [data.web.results]. *)
Record WebResult := mkWebResult {
  result_title : option string;
  description : option string;
  url : option string
}.

(** [x || ''] *)
Definition or_empty (x : option string) : string :=
  match x with
  | Some s => s
  | None => EmptyString
  end.

(** The text of a result that the patterns are run on. *)
Definition result_text (r : WebResult) : string :=
  or_empty (result_title r) ++ " " ++ or_empty (description r).

(** The callback of [matches.slice(0, 2).forEach]: the song of one match,
    when both groups are longer than 2 characters. *)
Definition song_of_match (originalQuery text : string) (caps : Rx.captures) : option Song :=
  match Rx.group 1 caps, Rx.group 2 caps with
  | Some g1, Some g2 =>
      if (2 <? length g1)%nat && (2 <? length g2)%nat then
        Some {| title := Some (Str.trim (string_of_list_ascii g1));
                artist := Some (Str.trim (string_of_list_ascii g2));
                album := None;
                year := extractYear text;
                genre := Some "Popular";
                source := Some "brave_search";
                reason := Some ("Brave: " ++ dquote ++ originalQuery ++ dquote);
                cultural_impact_score := None;
                basicScore := None;
                similarity_score := None;
                alignment_score := None |}
      else None
  | _, _ => None
  end.

(** The songs that one pattern adds for one result: those of its first
    two matches. *)
Definition songs_of_pattern (originalQuery text : string) (pattern : Rx.re) : list Song :=
  omap (song_of_match originalQuery text) (take 2 (Rx.matchAll true pattern text)).

(** The [for] loop over the patterns for one result; it stops as soon as
    [songs], the array of the whole function, holds 3 songs. *)
Fixpoint mine_patterns (originalQuery text : string) (patterns : list Rx.re)
    (songs : list Song) : list Song :=
  match patterns with
  | [] => songs
  | pattern :: more =>
      let songs' := (songs ++ songs_of_pattern originalQuery text pattern)%list in
      if (3 <=? length songs')%nat then songs'
      else mine_patterns originalQuery text more songs'
  end.

(** [data.web?.results?]: absent when a link of the chain is. *)
Definition BraveData := option (list WebResult).

Definition extractSongsFromBraveResultsFast (data : BraveData) (originalQuery : string)
    : list Song :=
  match data with
  | Some results =>
      slice_to 8
        (fold_left (fun songs r =>
                      mine_patterns originalQuery (result_text r)
                                    [quotedPattern; dashPattern] songs)
                   (slice_to 5 results) [])
  | None => slice_to 8 []
  end.

(** The web search as a service: the parsed body of an OK response, or a
    failure (a response that is not OK, a timeout, a body that does not
    parse). *)
Definition brave_reply_of (brave_search : string -> completion BraveData)
    : string -> list Song :=
  fun query =>
    match brave_search query with
    | Normal data => extractSongsFromBraveResultsFast data query
    | Throw _ => []
    end.

(** * Reference definitions and example inputs *)

(** The keys of a list of songs, as a set. *)
Definition keys_of (songs : list Song) : gset string := list_to_set (map song_key songs).

(** ** The dedupe key, as the specification words it *)

(** A field lower-cased, trimmed and cut to its first 20 characters. *)
Definition truncated20 (field : string) : string :=
  Str.slice0 20 (Str.trim (Str.toLowerCase field)).

(** The key of a song: its truncated title and its truncated artist. *)
Definition spec_key (song : Song) : option string * option string :=
  (option_map truncated20 (title song), option_map truncated20 (artist song)).

(** White space only. *)
Definition blank (s : string) : bool := forallb Str.is_space (list_ascii_of_string s).

(** Neither the first nor the last character is white space. *)
Definition no_space_at_ends (s : string) : bool :=
  match s with
  | String c _ => negb (Str.is_space c)
  | EmptyString => true
  end
  && match List.last (map Some (list_ascii_of_string s)) None with
     | Some c => negb (Str.is_space c)
     | None => true
     end.

(** ** The basic score, as the specification words it *)

Definition source_points (song : Song) : Z :=
  if source_is song "mistral_ai_generation" then 5
  else if source_is song "brave_search" then 2
  else 0.

Definition year_in_range (song : Song) : bool :=
  match year song with
  | Some y => (1950 <=? y) && (y <=? 2024)
  | None => false
  end.

Definition impact_at_least_6 (song : Song) : bool :=
  match cultural_impact_score song with
  | Some q => Qle_bool 6 q
  | None => false
  end.

(** A field that is absent, or shorter than two characters. *)
Definition too_short (x : option string) : bool :=
  match x with
  | Some s => (String.length s <? 2)%nat
  | None => true
  end.

(** [word] occurs in [text], whatever the case of either. *)
Definition occurs_ignoring_case (text word : string) : bool :=
  Str.includes (Str.toLowerCase text) (Str.toLowerCase word).

(** The text of a field; a missing field has none. *)
Definition field_text (x : option string) : string :=
  match x with
  | Some s => s
  | None => EmptyString
  end.

(** The words of the prompt longer than two characters that occur in
    ["title artist"]. *)
Definition matching_words (prompt : string) (song : Song) : list string :=
  List.filter
    (fun word => (2 <? String.length word)%nat
                 && occurs_ignoring_case
                      (field_text (title song) ++ " " ++ field_text (artist song)) word)
    (Str.split_space prompt).

Definition spec_basic_score (prompt : string) (song : Song) : Z :=
  0 + source_points song
    + (if year_in_range song then 2 else 0)
    + (if impact_at_least_6 song then 3 else 0)
    + Z.of_nat (length (matching_words prompt song))
    - (if too_short (title song) then 3 else 0)
    - (if too_short (artist song) then 3 else 0).

(** ** Shapes of prompts *)

Definition not_digit (c : ascii) : Prop := Str.is_digit c = false.

Definition all_digits (s : string) : bool :=
  forallb Str.is_digit (list_ascii_of_string s).

Definition no_digit (s : string) : bool :=
  forallb (fun c => negb (Str.is_digit c)) (list_ascii_of_string s).

Definition last_char (prev : option ascii) (l : list ascii) : option ascii :=
  fold_left (fun _ c => Some c) l prev.

(** The string is empty or ends in a character that is not a word character. *)
Definition ends_outside_word (s : string) : bool :=
  match last_char None (list_ascii_of_string s) with
  | Some c => negb (Str.is_word c)
  | None => true
  end.

(** The string is empty or starts with a character that is not a word character. *)
Definition starts_outside_word (s : string) : bool :=
  match s with
  | String c _ => negb (Str.is_word c)
  | EmptyString => true
  end.

(** ** The count named in a prompt, as the specification words it *)

(** The digits that [s] starts with. *)
Fixpoint leading_digits (s : list ascii) : list ascii :=
  match s with
  | c :: s' => if Str.is_digit c then c :: leading_digits s' else []
  | [] => []
  end.

(** No character, or one that cannot be part of a word. *)
Definition outside_word (c : option ascii) : bool :=
  match c with
  | Some c => negb (Str.is_word c)
  | None => true
  end.

(** The integer that stands by itself at the start of [s], after [prev]:
    a non-empty run of digits with no word character right before or right
    after it. *)
Definition integer_here (prev : option ascii) (s : list ascii) : option (list ascii) :=
  let digits := leading_digits s in
  match digits with
  | [] => None
  | _ :: _ =>
      if outside_word prev && outside_word (head (drop (length digits) s))
      then Some digits else None
  end.

(** The first integer of the text that stands by itself. *)
Fixpoint first_integer_from (prev : option ascii) (s : list ascii) : option (list ascii) :=
  match integer_here prev s with
  | Some digits => Some digits
  | None =>
      match s with
      | [] => None
      | c :: s' => first_integer_from (Some c) s'
      end
  end.

Definition first_integer (prompt : string) : option Z :=
  match first_integer_from None (list_ascii_of_string prompt) with
  | Some digits => Some (parseInt (string_of_list_ascii digits))
  | None => None
  end.

(** The count as the specification words it: the integer, 10 if there is
    none, capped at 15. *)
Definition claimed_targetCount (prompt : string) : Z :=
  match first_integer prompt with
  | Some n => Z.min n 15
  | None => 10
  end.

(** The same with the default for 0: an integer 0 is passed over like an
    absent one. *)
Definition fallback_count (prompt : string) : Z :=
  match first_integer prompt with
  | Some n => if n =? 0 then 10 else Z.min n 15
  | None => 10
  end.

(** The continuation of [\d+] inside [/\b(\d+)\b/]: close the group, then
    require a word boundary. *)
Definition after_digits (start : Regex.pos) : Regex.cont :=
  fun p' _ =>
    Regex.run false Regex.WordB p'
      (Some (take (length (Regex.rest start) - length (Regex.rest p')) (Regex.rest start)))
        (fun _ cap => Some cap).

(** The pattern gives no usable artist on the prompt: no match, or a first
    group of at most 3 characters. *)
Definition rejected (prompt : string) (pattern : Regex.re) : Prop :=
  match Regex.match1 true pattern prompt with
  | Some m => (String.length m <= 3)%nat
  | None => True
  end.

(** ** The fusion fallback and the catalog match, as the specification words them *)

(** The top [targetCount] (default 12) of the merged, deduplicated list,
    filtered to the songs with a title and an artist. *)
Definition spec_fallback (webResults aiResults : list Song) (c : Constraints) : list Song :=
  slice_to (or_default (targetCount c) 12)
           (List.filter has_title_and_artist (removeDuplicateSongsFast (webResults ++ aiResults))).

(** The combined score of a track against a title and an artist exceeds 0.5. *)
Definition qualifies (song_title song_artist : string) (t : Track) : bool :=
  (0.5 <? combinedScore
            (calculateStringSimilarityFast (Str.toLowerCase (name t))
                                           (Str.toLowerCase song_title))
            (math_max (map (fun artist_name =>
                              calculateStringSimilarityFast (Str.toLowerCase artist_name)
                                                            (Str.toLowerCase song_artist))
                           (artists t))))%float.

(** Among the candidates of one query: the first that qualifies, else the
    first returned. *)
Definition accepted (song_title song_artist : string) (tracks : list Track) : option Track :=
  match List.find (qualifies song_title song_artist) tracks with
  | Some t => Some t
  | None => head tracks
  end.

Definition strict_query (song : Song) : string := List.nth 0 (searchStrategies song) EmptyString.
Definition loose_query (song : Song) : string := List.nth 1 (searchStrategies song) EmptyString.

(** ** Classes of numbers *)

(** Plus or minus zero. *)
Definition is_zeroF (x : float) : Prop :=
  match Prim2SF x with
  | S754_zero _ => True
  | _ => False
  end.

Definition zero_or_nan (x : float) : Prop :=
  match Prim2SF x with
  | S754_zero _ | S754_nan => True
  | _ => False
  end.

Definition nan_or_infinite (x : float) : Prop :=
  match Prim2SF x with
  | S754_nan | S754_infinity _ => True
  | _ => False
  end.

(** A number in [-1, 1]. *)
Definition within_unit (x : float) : bool := ((-1 <=? x) && (x <=? 1))%float.

(** Every component is plus or minus zero: a vector of magnitude zero. *)
Definition all_zero (v : list float) : Prop :=
  Forall (fun x => PrimFloat.is_zero x = true) v.

(** The magnitude as [cosineSimilarity] computes it. *)
Definition magnitude (v : list float) : float := PrimFloat.sqrt (sum_squares v).

(** ** Scored songs *)

(** The song carries a basic score. *)
Definition is_scored (song : Song) : Prop :=
  match basicScore song with
  | Some _ => True
  | None => False
  end.

Definition score_of (song : Song) : Z := default 0 (basicScore song).

(** [c] is [song], with a similarity attached at most. *)
Definition ranked_from (c song : Song) : Prop :=
  c = song \/ exists sim, c = with_similarity sim song.

(** ** Ratios of sizes *)

(** The 256 characters. *)
Definition all_ascii : list ascii := map ascii_of_nat (seq 0 256).

(** A number in [0, 1]. *)
Definition within_0_1 (x : float) : bool := ((0 <=? x) && (x <=? 1))%float.

(** The quotients [i / m] of sizes with [i <= m] lie in [0, 1], with
    [m / m = 1] and [0 / m = 0]. *)
Definition ratio_row (m : nat) : bool :=
  forallb (fun i => within_0_1 (to_float i / to_float m)%float) (seq 0 (S m))
  && PrimFloat.Leibniz.eqb (to_float m / to_float m)%float 1%float
  && PrimFloat.Leibniz.eqb (to_float 0 / to_float m)%float 0%float.

(** ** What a pattern matches

    [matches_with icase r caps w caps']: the pattern [r] can match the text
    [w], taking the groups from [caps] to [caps'] ([\b], which consumes
    nothing, is not constrained here). *)
Inductive matches_with (icase : bool) : Rx.re -> Rx.captures -> list ascii -> Rx.captures -> Prop :=
| matches_chr c x caps :
    Regex.lit_matches icase c x = true -> matches_with icase (Rx.Chr c) caps [x] caps
| matches_set negated ranges space x caps :
    Rx.set_matches icase negated ranges space x = true ->
    matches_with icase (Rx.Set_ negated ranges space) caps [x] caps
| matches_seq r1 r2 caps0 w1 caps1 w2 caps2 :
    matches_with icase r1 caps0 w1 caps1 -> matches_with icase r2 caps1 w2 caps2 ->
    matches_with icase (Rx.Seq r1 r2) caps0 (w1 ++ w2) caps2
| matches_alt_l r1 r2 caps0 w caps1 :
    matches_with icase r1 caps0 w caps1 -> matches_with icase (Rx.Alt r1 r2) caps0 w caps1
| matches_alt_r r1 r2 caps0 w caps1 :
    matches_with icase r2 caps0 w caps1 -> matches_with icase (Rx.Alt r1 r2) caps0 w caps1
| matches_plus_once r caps0 w caps1 :
    matches_with icase r caps0 w caps1 -> matches_with icase (Rx.Plus r) caps0 w caps1
| matches_plus_more r caps0 w1 caps1 w2 caps2 :
    matches_with icase r caps0 w1 caps1 -> matches_with icase (Rx.Plus r) caps1 w2 caps2 ->
    matches_with icase (Rx.Plus r) caps0 (w1 ++ w2) caps2
| matches_group i r caps0 w caps1 :
    matches_with icase r caps0 w caps1 ->
    matches_with icase (Rx.Group i r) caps0 w ((i, w) :: caps1)
| matches_bound caps : matches_with icase Rx.Bound caps [] caps
| matches_eps caps : matches_with icase Rx.Eps caps [] caps.

(** A character that may stand in a mined artist: no comma, period or
    line break. *)
Definition artist_char (x : ascii) : Prop :=
  x <> ","%char /\ x <> "."%char /\ x <> newline_char.

(** No white space at either end. *)
Definition trimmed (s : string) : Prop :=
  match s with
  | String c _ => Str.is_space c = false
  | EmptyString => True
  end
  /\ match last_char None (list_ascii_of_string s) with
     | Some c => Str.is_space c = false
     | None => True
     end.

(** A song as [extractSongsFromBraveResultsFast] builds it for a query. *)
Definition mined_song (originalQuery : string) (song : Song) : Prop :=
  source song = Some "brave_search"
  /\ genre song = Some "Popular"
  /\ reason song = Some ("Brave: " ++ dquote ++ originalQuery ++ dquote)
  /\ (exists t a,
         title song = Some t /\ artist song = Some a
         /\ trimmed t /\ trimmed a
         /\ Forall artist_char (list_ascii_of_string a))
  /\ match year song with
     | Some y => 1950 <= y <= 2029
     | None => True
     end
  /\ cultural_impact_score song = None
  /\ basicScore song = None
  /\ alignment_score song = None.

(** ** The artist named in a prompt *)

(** A letter or a white-space character. *)
Definition letter_or_space (x : ascii) : bool :=
  Str.is_upper x || Str.is_lower x || Str.is_space x.

(** Every character that the pattern can consume satisfies [ok]. *)
Fixpoint consumes_only (icase : bool) (ok : ascii -> bool) (r : Regex.re) : bool :=
  match r with
  | Regex.Lit c =>
      forallb (fun x => implb (Regex.lit_matches icase c x) (ok x)) all_ascii
  | Regex.Cls ranges space =>
      forallb (fun x => implb (Regex.cls_matches icase ranges space x) (ok x)) all_ascii
  | Regex.Seq r1 r2 => consumes_only icase ok r1 && consumes_only icase ok r2
  | Regex.Plus r1 => consumes_only icase ok r1
  | Regex.Group r1 => consumes_only icase ok r1
  | Regex.WordB => true
  | Regex.Eps => true
  end.

(** ** Similarities *)


(** ** Weights of the catalog match *)

(** What the weights 0.6 and 0.4 make of an artist similarity [a]: beside a
    title similarity of 1 the combined score exceeds 0.5, beside a title
    similarity of 0 it does not. *)
Definition title_decides (a : float) : bool :=
  negb (PrimFloat.is_nan a) && (neg_infinity <? a)%float
  && (0.5 <? combinedScore 1 a)%float && negb (0.5 <? combinedScore 0 a)%float.

Definition weight_row (m : nat) : bool :=
  forallb (fun i => title_decides (to_float i / to_float m)%float) (seq 0 (S m)).

(** The track's name and the title differ and have no character in common,
    whatever the case. *)
Definition no_common_char (song_title : string) (t : Track) : Prop :=
  Str.toLowerCase (name t) <> Str.toLowerCase song_title
  /\ char_set (name t) ∩ char_set song_title = ∅.

(** ** Example inputs *)

Definition hotel_california : Song :=
  mkSong (Some "Hotel California") (Some "Eagles") None (Some 1976)
         (Some "Popular") (Some "brave_search") None None None None None.

Definition go_your_own_way : Song :=
  mkSong (Some "Go Your Own Way") (Some "Fleetwood Mac") None (Some 1977)
         (Some "Popular") (Some "brave_search") None None None None None.

Definition untitled_by_nobody : Song :=
  mkSong (Some "Untitled") None None None None None None None None None (Some (8 # 1)).

Definition with_alignment (a : Q) (song : Song) : Song :=
  {| title := title song; artist := artist song; album := album song;
     year := year song; genre := genre song; source := source song;
     reason := reason song; cultural_impact_score := cultural_impact_score song;
     basicScore := basicScore song; similarity_score := similarity_score song;
     alignment_score := Some a |}.

Definition road_trip_constraints : Constraints :=
  {| targetCount := Some 12; minCount := Some 3; decade := Some "1970s";
     specificArtist := None; mood := Some "upbeat" |}.

Definition no_tracks : string -> string -> completion (list Track) :=
  fun _ _ => Normal [].

(** The analysis succeeds, web search finds two songs, generation fails,
    and verification rates every candidate 8. *)
Definition two_song_services : Services :=
  {| analysis_reply := fun prompt =>
       Normal {| constraints := road_trip_constraints;
                 searchQueries := ["70s road trip rock songs"; "classic driving rock"];
                 refinedPrompt := prompt;
                 keywords := ["road"; "trip"; "rock"];
                 originalEmbedding := None |};
     embeddings_reply := fun texts => Normal (map (fun _ => [1; 0]%float) texts);
     brave_reply := fun _ => [hotel_california; go_your_own_way];
     generation_reply := fun _ _ => Throw (Error "Mistral API request timeout");
     verification_reply := fun _ candidates =>
       Normal (JsonArray (map (with_alignment (8 # 1)) candidates));
     spotify_reply := no_tracks |}.

(** The same services with the verification call failing. *)
Definition verification_down : Services :=
  {| analysis_reply := analysis_reply two_song_services;
     embeddings_reply := embeddings_reply two_song_services;
     brave_reply := brave_reply two_song_services;
     generation_reply := generation_reply two_song_services;
     verification_reply := fun _ _ => Throw (Error "Mistral API request failed: 503");
     spotify_reply := no_tracks |}.

(** The candidates that [combineAndVerifyAlignmentFast] serialises into the
    rating message: the first ten of its ranked songs. *)
Definition verification_candidates (sv : Services) (webResults aiResults : list Song)
    (originalPrompt : string) (originalEmbedding : option (list float)) : list Song :=
  let allSongs := removeDuplicateSongsFast (webResults ++ aiResults) in
  let scoredSongs := map (score_song originalPrompt) allSongs in
  let topCandidates :=
    slice_to maxCandidatesForEmbedding (js_sort by_basicScore_desc scoredSongs) in
  let rankedSongs :=
    match originalEmbedding with
    | Some embedding =>
        if negb skipSemanticSimilarity && (0 <? length topCandidates)%nat
        then rankSongsBySementicSimilarityFast sv topCandidates embedding
        else topCandidates
    | None => topCandidates
    end in
  slice_to 10 rankedSongs.

(** Every song of the list has an alignment score of at least 6 and passes
    the artist check of the road-trip constraints. *)
Definition forall_songs_aligned (aligned : list Song) : Prop :=
  forall song, In song aligned ->
    (exists a, alignment_score song = Some a /\ Qle 6 a)
    /\ artist_check road_trip_constraints song = true.

(** The completion service answers, the embedding service does not. *)
Definition verification_down_no_embedding : Services :=
  {| analysis_reply := analysis_reply two_song_services;
     embeddings_reply := fun _ => Throw (Error "Mistral Embeddings API request timeout");
     brave_reply := brave_reply two_song_services;
     generation_reply := generation_reply two_song_services;
     verification_reply := verification_reply two_song_services;
     spotify_reply := no_tracks |}.

Definition dreams : Song :=
  mkSong (Some "Dreams") (Some "Fleetwood Mac") None (Some 1977)
         (Some "Popular") (Some "brave_search") None None None None None.

(** Web search finds three songs, verification rates each 8, and the
    catalog answers every query with one track. *)
Definition three_song_services : Services :=
  {| analysis_reply := analysis_reply two_song_services;
     embeddings_reply := embeddings_reply two_song_services;
     brave_reply := fun _ => [hotel_california; go_your_own_way; dreams];
     generation_reply := generation_reply two_song_services;
     verification_reply := verification_reply two_song_services;
     spotify_reply := fun _ _ => Normal [mkTrack "Dreams" ["Fleetwood Mac"] "spotify:track:3"] |}.

Definition three_song_tracks : list ResolvedTrack :=
  Eval vm_compute in
    match generateClassicRecommendations three_song_services "70s road trip rock" "token" with
    | Normal found => found
    | Throw _ => []
    end.

(** A search service that always answers one result. *)
Definition one_result_search : string -> completion BraveData :=
  fun _ => Normal (Some [mkWebResult (Some "Eagles - Hotel California (1976)")
                                     (Some "The classic, remastered.") None]).

Definition mined_services : Services :=
  {| analysis_reply := analysis_reply two_song_services;
     embeddings_reply := embeddings_reply two_song_services;
     brave_reply := brave_reply_of one_result_search;
     generation_reply := generation_reply two_song_services;
     verification_reply := verification_reply two_song_services;
     spotify_reply := no_tracks |}.

Definition five_results : list WebResult :=
  [mkWebResult (Some "Eagles - Hotel California") None None;
   mkWebResult None None None; mkWebResult None None None;
   mkWebResult None None None; mkWebResult None None None].

Definition sixth_result : WebResult :=
  mkWebResult (Some "Queen - Bohemian Rhapsody") None None.

Definition hello : Song :=
  mkSong (Some "Hello") (Some "Adele") None None None None None None None None None.

Definition track_exact : Track := mkTrack "Hello" ["Adele"] "spotify:track:1".
Definition track_poor : Track := mkTrack "Zzz" ["Qq"] "spotify:track:2".

(** A cover of "Hello" by somebody else, and another song by Adele. *)
Definition hello_cover : Track := mkTrack "HELLO" ["Qq"] "spotify:track:3".
Definition adele_other : Track := mkTrack "Zzz" ["Adele"] "spotify:track:4".

(** The strict query returns a poor candidate, the loose query the exact one. *)
Definition strict_poor_loose_exact : Services :=
  {| analysis_reply := analysis_reply two_song_services;
     embeddings_reply := embeddings_reply two_song_services;
     brave_reply := brave_reply two_song_services;
     generation_reply := generation_reply two_song_services;
     verification_reply := verification_reply two_song_services;
     spotify_reply := fun query _ =>
       if String.eqb query (strict_query hello) then Normal [track_poor]
       else Normal [track_exact] |}.


(** A song of which only the artist is known. *)
Definition eagles_untitled : Song :=
  mkSong None (Some "Eagles") None None None None None None None None None.

(** A title and an artist in capitals, with white space around them. *)
Definition padded_capitals : Song :=
  mkSong (Some "  Hotel CALIFORNIA ") (Some " EAGLES  ") None None None None None None
         None None None.

(** Two titles that agree on their first 20 characters, 17 of them spaces. *)
Definition spaces_to_20 : Song :=
  mkSong (Some "abc                 ") (Some "X") None None None None None None None None None.

Definition spaces_to_20_then_x : Song :=
  mkSong (Some "abc                 x") (Some "X") None None None None None None None None None.

Definition long_title_extended : Song :=
  mkSong (Some "A Very Long Song Title Extended") (Some "X") None (Some 1999)
         None (Some "brave_search") None None None None None.

Definition long_title_truncated : Song :=
  mkSong (Some "A Very Long Song Title Truncated") (Some "X") None None
         None (Some "mistral_ai_generation") None None None None None.

(** * Properties *)

(** ** Strings *)

Lemma slice0_app (p s : string) :
  Str.slice0 (String.length p) (p ++ s) = p.
Proof.
  induction p as [|c p IH]; simpl.
  - destruct s; reflexivity.
  - now rewrite IH.
Qed.

Lemma includes_empty (s : string) : Str.includes s EmptyString = true.
Proof. destruct s; reflexivity. Qed.

Lemma startsWith_spec (p s : string) :
  Str.startsWith p s = true <-> exists post, s = p ++ post.
Proof.
  revert s. induction p as [|a p IH]; intros s; simpl.
  - split; [intros _; now exists s|reflexivity].
  - destruct s as [|b s].
    + split; [discriminate|]. intros [post Hpost]. discriminate.
    + rewrite andb_true_iff, Ascii.eqb_eq, IH. split.
      * intros [-> [post ->]]. now exists post.
      * intros [post Hpost]. injection Hpost as -> ->. split; [reflexivity|now exists post].
Qed.

(** [includes] is the substring test. *)
Lemma includes_spec (s p : string) :
  Str.includes s p = true <-> exists pre post, s = pre ++ p ++ post.
Proof.
  induction s as [|c s IH].
  - simpl. rewrite orb_false_r, startsWith_spec. split.
    + intros [post Hpost]. now exists EmptyString, post.
    + intros [pre [post Hs]]. destruct pre; [now exists post|discriminate].
  - cbn [Str.includes]. rewrite orb_true_iff, startsWith_spec, IH. split.
    + intros [[post Hpost]|[pre [post Hs]]].
      * now exists EmptyString, post.
      * exists (String c pre), post. simpl. now rewrite Hs.
    + intros [pre [post Hs]]. destruct pre as [|c' pre].
      * left. now exists post.
      * right. injection Hs as -> ->. now exists pre, post.
Qed.

Lemma lower_char_space (c : ascii) :
  Ascii.eqb (Str.lower_char c) " " = Ascii.eqb c " ".
Proof. destruct c as [[] [] [] [] [] [] [] []]; reflexivity. Qed.

Lemma toLowerCase_length (s : string) :
  String.length (Str.toLowerCase s) = String.length s.
Proof. induction s as [|c s IH]; simpl; [reflexivity|now rewrite IH]. Qed.

(** Lower-casing commutes with splitting at spaces. *)
Lemma split_space_toLowerCase (s : string) :
  Str.split_space (Str.toLowerCase s) = map Str.toLowerCase (Str.split_space s).
Proof.
  induction s as [|c s IH]; simpl; [reflexivity|].
  rewrite lower_char_space. destruct (Ascii.eqb c " ").
  - simpl. now rewrite IH.
  - rewrite IH. destruct (Str.split_space s); reflexivity.
Qed.

(** ** Deduplication *)

Local Open Scope list_scope.

Section Dedup.

Implicit Types (seen : gset string) (songs : list Song).

Lemma filter_unseen_app seen songs1 songs2 :
  filter_unseen seen (songs1 ++ songs2) =
  filter_unseen seen songs1 ++ filter_unseen (seen ∪ keys_of songs1) songs2.
Proof.
  revert seen. induction songs1 as [|song songs1 IH]; intros seen; simpl.
  - unfold keys_of; simpl. now rewrite (right_id_L ∅ (∪)).
  - destruct (decide (song_key song ∈ seen)) as [Hin|Hnotin].
    + rewrite IH. do 2 f_equal. unfold keys_of; simpl. set_solver.
    + simpl. rewrite IH. do 3 f_equal. unfold keys_of; simpl. set_solver.
Qed.

Lemma filter_unseen_fresh seen songs :
  Forall (fun song => song_key song ∉ seen) (filter_unseen seen songs).
Proof.
  revert seen. induction songs as [|song songs IH]; intros seen; simpl.
  - constructor.
  - destruct (decide (song_key song ∈ seen)) as [Hin|Hnotin]; [apply IH|].
    constructor; [assumption|].
    eapply Forall_impl; [apply IH|]. simpl. intros x Hx. set_solver.
Qed.

Lemma filter_unseen_NoDup seen songs :
  NoDup (map song_key (filter_unseen seen songs)).
Proof.
  revert seen. induction songs as [|song songs IH]; intros seen; simpl.
  - constructor.
  - destruct (decide (song_key song ∈ seen)) as [Hin|Hnotin]; [apply IH|].
    simpl. constructor; [|apply IH].
    intros Hdup. apply list_elem_of_fmap in Hdup as (x & Hkey & Hx).
    pose proof (filter_unseen_fresh ({[song_key song]} ∪ seen) songs) as Hfresh.
    rewrite Forall_forall in Hfresh. apply Hfresh in Hx. set_solver.
Qed.

Lemma filter_unseen_fixed seen songs :
  NoDup (map song_key songs) ->
  Forall (fun song => song_key song ∉ seen) songs ->
  filter_unseen seen songs = songs.
Proof.
  revert seen. induction songs as [|song songs IH]; intros seen Hnd Hfresh; simpl.
  - reflexivity.
  - simpl in Hnd. apply NoDup_cons in Hnd as [Hhead Hnd].
    apply Forall_cons in Hfresh as [Hsong Hfresh].
    destruct (decide (song_key song ∈ seen)) as [Hin|_]; [contradiction|].
    f_equal. apply IH; [assumption|].
    rewrite Forall_forall in Hfresh |- *. intros x Hx.
    specialize (Hfresh x Hx).
    assert (song_key x <> song_key song).
    { intros Heq. apply Hhead. rewrite <- Heq. apply list_elem_of_fmap. eauto. }
    set_solver.
Qed.

Lemma dedupe_snoc songs song :
  removeDuplicateSongsFast (songs ++ [song]) =
  removeDuplicateSongsFast songs ++
  (if decide (song_key song ∈ map song_key songs) then [] else [song]).
Proof.
  unfold removeDuplicateSongsFast. rewrite filter_unseen_app. f_equal. simpl.
  destruct (decide (song_key song ∈ ∅ ∪ keys_of songs)) as [Hin|Hnotin];
    destruct (decide (song_key song ∈ map song_key songs)) as [Hin'|Hnotin'];
    try reflexivity; exfalso; unfold keys_of in *; set_solver.
Qed.

Lemma song_key_norm20 (a b : Song) :
  norm20 (title a) = norm20 (title b) ->
  norm20 (artist a) = norm20 (artist b) ->
  song_key a = song_key b.
Proof. unfold song_key. now intros -> ->. Qed.

Lemma norm20_beyond_20 (field1 field2 p rest1 rest2 : string) :
  Str.trim (Str.toLowerCase field1) = (p ++ rest1)%string ->
  Str.trim (Str.toLowerCase field2) = (p ++ rest2)%string ->
  String.length p = 20%nat ->
  norm20 (Some field1) = norm20 (Some field2).
Proof.
  intros H1 H2 Hlen. unfold norm20. rewrite H1, H2, <- Hlen.
  now rewrite !slice0_app.
Qed.

End Dedup.

(** C7. Deduplication is idempotent: [removeDuplicateSongsFast] applied to
    its own output returns that output, for every list of songs. *)
Theorem removeDuplicateSongsFast_idempotent (songs : list Song) :
  removeDuplicateSongsFast (removeDuplicateSongsFast songs) =
  removeDuplicateSongsFast songs.
Proof.
  unfold removeDuplicateSongsFast. apply filter_unseen_fixed.
  - apply filter_unseen_NoDup.
  - apply Forall_forall. intros x _. set_solver.
Qed.

(** *** What the key makes of a field *)

Lemma norm20_truncated (x : option string) : norm20 x = option_map truncated20 x.
Proof. now destruct x. Qed.

Lemma is_space_lower_char (c : ascii) : Str.is_space (Str.lower_char c) = Str.is_space c.
Proof. destruct c as [[] [] [] [] [] [] [] []]; reflexivity. Qed.

Lemma string_app_cons (c : ascii) (a b : string) :
  (String c a ++ b)%string = String c (a ++ b)%string.
Proof. reflexivity. Qed.

Lemma string_app_nil (b : string) : (EmptyString ++ b)%string = b.
Proof. reflexivity. Qed.

Lemma string_app_nil_r (a : string) : (a ++ EmptyString)%string = a.
Proof. induction a as [|c a IH]; [reflexivity|]. now rewrite string_app_cons, IH. Qed.

Lemma toLowerCase_app (a b : string) :
  Str.toLowerCase (a ++ b) = (Str.toLowerCase a ++ Str.toLowerCase b)%string.
Proof.
  induction a as [|c a IH]; [reflexivity|].
  rewrite string_app_cons. cbn [Str.toLowerCase]. now rewrite IH, string_app_cons.
Qed.

Lemma blank_toLowerCase (ws : string) : blank (Str.toLowerCase ws) = blank ws.
Proof.
  unfold blank. induction ws as [|c ws IH]; [reflexivity|].
  cbn [Str.toLowerCase list_ascii_of_string forallb]. now rewrite is_space_lower_char, IH.
Qed.

Lemma no_space_at_ends_toLowerCase (s : string) :
  no_space_at_ends (Str.toLowerCase s) = no_space_at_ends s.
Proof.
  unfold no_space_at_ends. f_equal.
  - destruct s as [|c s]; [reflexivity|]. cbn [Str.toLowerCase].
    now rewrite is_space_lower_char.
  - assert (Hlast : forall (l : string) (d d' : option ascii),
               match d with Some c => negb (Str.is_space c) | None => true end =
               match d' with Some c => negb (Str.is_space c) | None => true end ->
               match List.last (map Some (list_ascii_of_string (Str.toLowerCase l))) d with
               | Some c => negb (Str.is_space c) | None => true end =
               match List.last (map Some (list_ascii_of_string l)) d' with
               | Some c => negb (Str.is_space c) | None => true end).
    { induction l as [|c l IHl]; intros d1 d2 Hd; [exact Hd|].
      cbn [Str.toLowerCase list_ascii_of_string map].
      destruct l as [|c' l].
      - cbn. now rewrite is_space_lower_char.
      - exact (IHl d1 d2 Hd). }
    now apply (Hlast s None None).
Qed.

Lemma trimStart_blank (ws s : string) :
  blank ws = true -> Str.trimStart (ws ++ s) = Str.trimStart s.
Proof.
  unfold blank. induction ws as [|c ws IH]; [reflexivity|].
  cbn [list_ascii_of_string forallb]. intros Hws. apply andb_true_iff in Hws as [Hc Hws].
  rewrite string_app_cons. cbn [Str.trimStart]. rewrite Hc. now apply IH.
Qed.

Lemma trimEnd_blank (ws : string) : blank ws = true -> Str.trimEnd ws = EmptyString.
Proof.
  unfold blank. induction ws as [|c ws IH]; [reflexivity|].
  cbn [list_ascii_of_string forallb]. intros Hws. apply andb_true_iff in Hws as [Hc Hws].
  cbn [Str.trimEnd]. now rewrite (IH Hws), Hc.
Qed.

Lemma trimEnd_app_blank (s ws : string) :
  blank ws = true -> Str.trimEnd (s ++ ws) = Str.trimEnd s.
Proof.
  intros Hws. induction s as [|c s IH]; [now apply trimEnd_blank|].
  rewrite string_app_cons. cbn [Str.trimEnd]. now rewrite IH.
Qed.

(** A text that ends in a character other than white space loses nothing
    when more text follows it. *)
Lemma trimEnd_app_keep (p r : string) :
  match List.last (map Some (list_ascii_of_string p)) None with
  | Some c => Str.is_space c = false
  | None => False
  end ->
  Str.trimEnd (p ++ r) = (p ++ Str.trimEnd r)%string.
Proof.
  induction p as [|c p IH]; [intros []|].
  rewrite !string_app_cons. cbn [Str.trimEnd list_ascii_of_string map].
  destruct p as [|c' p].
  - cbn [List.last]. intros Hc. rewrite !string_app_nil.
    destruct (Str.trimEnd r); [now rewrite Hc|reflexivity].
  - intros Hlast. rewrite IH by exact Hlast. now rewrite string_app_cons.
Qed.

Lemma last_some_cons (l : list ascii) :
  forall (c : ascii) (d : option ascii), List.last (map Some (c :: l)) d <> None.
Proof.
  induction l as [|y l IH]; intros c d; [discriminate|].
  change (List.last (map Some (c :: y :: l)) d) with (List.last (map Some (y :: l)) d).
  apply IH.
Qed.

Lemma trim_no_space_at_ends (s : string) : no_space_at_ends s = true -> Str.trim s = s.
Proof.
  unfold no_space_at_ends, Str.trim. intros Hs. apply andb_true_iff in Hs as [Hhead Hlast].
  destruct s as [|c s]; [reflexivity|]. apply negb_true_iff in Hhead.
  cbn [Str.trimStart]. rewrite Hhead.
  rewrite <- (string_app_nil_r (String c s)) at 1.
  rewrite trimEnd_app_keep; [apply string_app_nil_r|].
  destruct (List.last _ _) as [x|] eqn:Hx; [now apply negb_true_iff in Hlast|].
  now apply last_some_cons in Hx.
Qed.

(** In a key text free of hyphens, the hyphen that joins title and artist
    is the first one. *)
Lemma hyphen_join_inj (t1 t2 a1 a2 : string) :
  Str.includes t1 "-" = false -> Str.includes t2 "-" = false ->
  (t1 ++ "-" ++ a1 = t2 ++ "-" ++ a2)%string -> t1 = t2 /\ a1 = a2.
Proof.
  revert t2. induction t1 as [|c t1 IH]; intros [|c2 t2] H1 H2 Hjoin.
  - rewrite !string_app_nil in Hjoin. now injection Hjoin.
  - rewrite string_app_nil, !string_app_cons, string_app_nil in Hjoin.
    injection Hjoin as <- _. discriminate.
  - rewrite string_app_nil, !string_app_cons, string_app_nil in Hjoin.
    injection Hjoin as -> _. discriminate.
  - rewrite !string_app_cons in Hjoin. injection Hjoin as -> Hjoin.
    cbn [Str.includes] in H1, H2.
    apply orb_false_iff in H1 as [_ H1]. apply orb_false_iff in H2 as [_ H2].
    destruct (IH t2 H1 H2 Hjoin) as [-> ->]. now split.
Qed.

Lemma truncated20_padded (before core after : string) :
  blank before = true -> blank after = true -> no_space_at_ends core = true ->
  truncated20 (before ++ core ++ after) = truncated20 core.
Proof.
  intros Hbefore Hafter Hcore. unfold truncated20, Str.trim.
  rewrite !toLowerCase_app.
  rewrite trimStart_blank by now rewrite blank_toLowerCase.
  rewrite <- no_space_at_ends_toLowerCase in Hcore.
  rewrite <- blank_toLowerCase in Hafter.
  destruct (Str.toLowerCase core) as [|c lower_core] eqn:Hlower.
  - rewrite string_app_nil, <- (string_app_nil_r (Str.toLowerCase after)).
    now rewrite trimStart_blank by exact Hafter.
  - pose proof (trim_no_space_at_ends _ Hcore) as Hfixed. unfold Str.trim in Hfixed.
    unfold no_space_at_ends in Hcore. apply andb_true_iff in Hcore as [Hhead _].
    apply negb_true_iff in Hhead. rewrite string_app_cons.
    cbn [Str.trimStart] in Hfixed |- *. rewrite Hhead in Hfixed |- *.
    rewrite <- string_app_cons, trimEnd_app_blank by exact Hafter. now rewrite Hfixed.
Qed.

Lemma truncated20_first_20 (p rest1 rest2 : string) :
  String.length p = 20%nat -> no_space_at_ends p = true ->
  truncated20 (p ++ rest1) = truncated20 (p ++ rest2).
Proof.
  intros Hlen Hp.
  assert (Hcut : forall r, truncated20 (p ++ r) = Str.toLowerCase p).
  { intros r. unfold truncated20, Str.trim. rewrite toLowerCase_app.
    rewrite <- no_space_at_ends_toLowerCase in Hp.
    rewrite <- toLowerCase_length in Hlen.
    destruct (Str.toLowerCase p) as [|c lp] eqn:Hlower; [discriminate|].
    unfold no_space_at_ends in Hp. apply andb_true_iff in Hp as [Hhead Hlast].
    apply negb_true_iff in Hhead. rewrite string_app_cons.
    cbn [Str.trimStart]. rewrite Hhead, <- string_app_cons.
    rewrite trimEnd_app_keep.
    - rewrite <- Hlen. apply slice0_app.
    - destruct (List.last _ _) as [x|] eqn:Hx; [now apply negb_true_iff in Hlast|].
      now apply last_some_cons in Hx. }
  now rewrite !Hcut.
Qed.

(** C5, as the code has it.  Deduplication keeps exactly the first-seen
    song of each key: a song appended to a list survives if and only if no
    earlier song has its key.  The key joins, with a hyphen, the title and
    the artist, each lower-cased, then trimmed, then cut to its first 20
    characters: songs that agree on both are duplicates whatever their
    other fields, and songs with a title and an artist whose truncated
    titles hold no hyphen are duplicates only then.  So case does not
    count, white space around a field does not count, and fields whose
    lower-cased, trimmed texts differ only beyond character 20 collide, as
    do fields that differ only beyond their own character 20 when the first
    20 characters neither start nor end with white space. *)
Theorem dedupe_first_seen_by_truncated_key :
  (forall (songs : list Song) (song : Song),
      removeDuplicateSongsFast (songs ++ [song]) =
      removeDuplicateSongsFast songs ++
      (if decide (song_key song ∈ map song_key songs) then [] else [song]))
  /\ (forall a b : Song,
         spec_key a = spec_key b ->
         song_key a = song_key b
         /\ forall before between : list Song,
             removeDuplicateSongsFast (before ++ a :: between ++ [b]) =
             removeDuplicateSongsFast (before ++ a :: between))
  /\ (forall (a b : Song) (title_a artist_a title_b artist_b : string),
         title a = Some title_a -> artist a = Some artist_a ->
         title b = Some title_b -> artist b = Some artist_b ->
         Str.includes (truncated20 title_a) "-" = false ->
         Str.includes (truncated20 title_b) "-" = false ->
         (song_key a = song_key b <-> spec_key a = spec_key b)
         /\ (spec_key a <> spec_key b -> removeDuplicateSongsFast [a; b] = [a; b]))
  /\ (forall field1 field2 : string,
         Str.toLowerCase field1 = Str.toLowerCase field2 ->
         truncated20 field1 = truncated20 field2)
  /\ (forall before core after : string,
         blank before = true -> blank after = true -> no_space_at_ends core = true ->
         truncated20 (before ++ core ++ after) = truncated20 core)
  /\ (forall field1 field2 p rest1 rest2 : string,
         Str.trim (Str.toLowerCase field1) = (p ++ rest1)%string ->
         Str.trim (Str.toLowerCase field2) = (p ++ rest2)%string ->
         String.length p = 20%nat ->
         truncated20 field1 = truncated20 field2)
  /\ (forall p rest1 rest2 : string,
         String.length p = 20%nat -> no_space_at_ends p = true ->
         truncated20 (p ++ rest1) = truncated20 (p ++ rest2))
  /\ song_key padded_capitals = "hotel california-eagles".
Proof.
  split; [exact dedupe_snoc|].
  assert (Hsame : forall a b, spec_key a = spec_key b -> song_key a = song_key b).
  { intros a b Hkey. unfold spec_key in Hkey. injection Hkey as Ht Ha.
    apply song_key_norm20; now rewrite !norm20_truncated. }
  split; [|split; [|split; [|split; [|split; [|split]]]]].
  - intros a b Hkey. pose proof (Hsame a b Hkey) as Hstring.
    split; [assumption|]. intros before between.
    replace (before ++ a :: between ++ [b]) with ((before ++ a :: between) ++ [b])
      by now rewrite <- app_assoc.
    rewrite dedupe_snoc.
    destruct (decide (song_key b ∈ map song_key (before ++ a :: between))) as [_|Hnotin].
    + now rewrite app_nil_r.
    + exfalso. apply Hnotin. rewrite <- Hstring, map_app. simpl. set_solver.
  - intros a b title_a artist_a title_b artist_b Hta Haa Htb Hab Hfree_a Hfree_b.
    assert (Hiff : song_key a = song_key b <-> spec_key a = spec_key b).
    { split; [|apply Hsame]. unfold song_key, spec_key, norm20.
      rewrite Hta, Haa, Htb, Hab. cbn [render option_map]. unfold truncated20 in *.
      intros Hjoin.
      apply hyphen_join_inj in Hjoin as [Ht Ha]; [now rewrite Ht, Ha|assumption..]. }
    split; [exact Hiff|]. intros Hdiff.
    change [a; b] with ([a] ++ [b]) at 1. rewrite dedupe_snoc.
    destruct (decide (song_key b ∈ map song_key [a])) as [Hin|_]; [|reflexivity].
    exfalso. apply Hdiff, Hiff. cbn in Hin. set_solver.
  - intros field1 field2 Hcase. unfold truncated20. now rewrite Hcase.
  - exact truncated20_padded.
  - intros field1 field2 p rest1 rest2 H1 H2 Hlen.
    pose proof (norm20_beyond_20 field1 field2 p rest1 rest2 H1 H2 Hlen) as Hnorm.
    unfold norm20 in Hnorm. now injection Hnorm.
  - exact truncated20_first_20.
  - reflexivity.
Qed.

Lemma dedupe_first_seen_by_truncated_key_witness :
  song_key long_title_extended = "a very long song tit-x"
  /\ song_key long_title_extended = song_key long_title_truncated
  /\ removeDuplicateSongsFast ([] ++ long_title_extended :: [] ++ [long_title_truncated]) =
     removeDuplicateSongsFast ([] ++ long_title_extended :: []).
Proof.
  split; [reflexivity|].
  destruct (proj1 (proj2 dedupe_first_seen_by_truncated_key)
              long_title_extended long_title_truncated eq_refl)
    as [Hkey Hdrop].
  split; [exact Hkey | exact (Hdrop [] [])].
Defined.

(** C5, against the claim.  Two titles that agree on their first 20
    characters, "abc" and 17 spaces, and differ only beyond them do not
    collide: the field is trimmed before it is cut, so the first title is
    read as "abc" and the second in full, and both songs are kept. *)
Lemma fields_equal_up_to_20_kept :
  title spaces_to_20 = Some "abc                 "
  /\ title spaces_to_20_then_x = Some ("abc                 " ++ "x")%string
  /\ String.length "abc                 " = 20%nat
  /\ artist spaces_to_20 = artist spaces_to_20_then_x
  /\ song_key spaces_to_20 = "abc-x"
  /\ song_key spaces_to_20_then_x = "abc                 -x"
  /\ removeDuplicateSongsFast [spaces_to_20; spaces_to_20_then_x] =
     [spaces_to_20; spaces_to_20_then_x].
Proof. repeat split. Qed.

(** ** Basic scoring *)

Lemma filter_map_comm {A B} (f : A -> B) (P : B -> bool) (l : list A) :
  List.filter P (map f l) = map f (List.filter (fun x => P (f x)) l).
Proof.
  induction l as [|x l IH]; simpl; [reflexivity|].
  destruct (P (f x)); simpl; now rewrite IH.
Qed.

Lemma filter_filter_and {A} (P Q : A -> bool) (l : list A) :
  List.filter P (List.filter Q l) = List.filter (fun x => Q x && P x) l.
Proof.
  induction l as [|x l IH]; simpl; [reflexivity|].
  destruct (Q x); simpl; [destruct (P x)|]; now rewrite IH.
Qed.

(** The count of the code, over the words of the prompt as given. *)
Lemma keywordMatches_filter (prompt : string) (song : Song) :
  keywordMatches prompt song =
  Z.of_nat (length (List.filter
                      (fun word => (2 <? String.length word)%nat
                                   && Str.includes (songText song) (Str.toLowerCase word))
                      (Str.split_space prompt))).
Proof.
  unfold keywordMatches, searchTerms.
  rewrite split_space_toLowerCase, filter_map_comm, filter_map_comm.
  rewrite length_map, filter_filter_and. f_equal. f_equal.
  apply List.filter_ext. intros word. unfold Str.len.
  rewrite toLowerCase_length. f_equal.
  destruct (String.length word) as [|[|[|n]]]; try reflexivity.
  change (2 <? S (S (S n)))%nat with true. apply Z.ltb_lt. lia.
Qed.

Lemma keywordMatches_words (prompt : string) (song : Song) (song_title song_artist : string) :
  title song = Some song_title -> artist song = Some song_artist ->
  keywordMatches prompt song = Z.of_nat (length (matching_words prompt song)).
Proof.
  intros Htitle Hartist. rewrite keywordMatches_filter.
  unfold matching_words, songText, occurs_ignoring_case.
  now rewrite Htitle, Hartist.
Qed.

Lemma string_app_assoc (a b c : string) : ((a ++ b) ++ c = a ++ b ++ c)%string.
Proof.
  induction a as [|x a IH]; [reflexivity|]. now rewrite !string_app_cons, IH.
Qed.

Lemma includes_inside (x s y w : string) :
  Str.includes s w = true -> Str.includes (x ++ s ++ y) w = true.
Proof.
  rewrite !includes_spec. intros (pre & post & ->).
  exists (x ++ pre)%string, (post ++ y)%string. now rewrite !string_app_assoc.
Qed.

(** The text that the code matches holds the title and the artist that
    the song has. *)
Lemma songText_holds_fields (song : Song) :
  exists x y : string,
    songText song =
    (x ++ Str.toLowerCase (field_text (title song) ++ " " ++ field_text (artist song)) ++ y)%string.
Proof.
  unfold songText. destruct (title song) as [t|], (artist song) as [a|]; cbn [render field_text].
  - exists EmptyString, EmptyString. now rewrite string_app_nil, string_app_nil_r.
  - exists EmptyString, "undefined"%string. rewrite string_app_nil.
    transitivity (Str.toLowerCase ((t ++ " " ++ "") ++ "undefined")).
    + now rewrite !string_app_assoc.
    + now rewrite toLowerCase_app.
  - exists "undefined"%string, EmptyString.
    rewrite string_app_nil_r, (toLowerCase_app "undefined"). reflexivity.
  - now exists "undefined"%string, "undefined"%string.
Qed.

Lemma filter_length_mono {A} (P Q : A -> bool) (l : list A) :
  (forall x, P x = true -> Q x = true) ->
  (length (List.filter P l) <= length (List.filter Q l))%nat.
Proof.
  intros HPQ. induction l as [|x l IH]; [reflexivity|]. cbn [List.filter].
  destruct (P x) eqn:HP.
  - rewrite (HPQ x HP). simpl. lia.
  - destruct (Q x); simpl; lia.
Qed.

Lemma keywordMatches_at_least (prompt : string) (song : Song) :
  Z.of_nat (length (matching_words prompt song)) <= keywordMatches prompt song.
Proof.
  rewrite keywordMatches_filter. apply inj_le. unfold matching_words, occurs_ignoring_case.
  apply filter_length_mono. intros word Hword.
  apply andb_true_iff in Hword as [Hlong Hin]. rewrite Hlong. cbn [andb].
  destruct (songText_holds_fields song) as (x & y & ->). now apply includes_inside.
Qed.

Lemma year_plausible_range (song : Song) : year_plausible song = year_in_range song.
Proof.
  unfold year_plausible, year_in_range. destruct (year song) as [y|]; [|reflexivity].
  destruct (1950 <=? y) eqn:Hlo; [|now rewrite andb_false_r].
  apply Z.leb_le in Hlo. replace (y =? 0) with false by (symmetry; apply Z.eqb_neq; lia).
  reflexivity.
Qed.

Lemma impact_high_at_least_6 (song : Song) : impact_high song = impact_at_least_6 song.
Proof.
  unfold impact_high, impact_at_least_6.
  destruct (cultural_impact_score song) as [q|]; [|reflexivity].
  destruct (Qle_bool 6 q) eqn:Hle; [|now rewrite andb_false_r].
  destruct (Qeq_bool q 0) eqn:Heq; [|reflexivity].
  apply Qle_bool_iff in Hle. apply Qeq_bool_iff in Heq. rewrite Heq in Hle.
  exfalso. revert Hle. apply Qlt_not_le. reflexivity.
Qed.

Lemma missing_or_short_too_short (x : option string) : missing_or_short x = too_short x.
Proof.
  destruct x as [s|]; [|reflexivity]. unfold missing_or_short, too_short, Str.len.
  destruct (String.length s) as [|[|n]]; try reflexivity.
  change (S (S n) <? 2)%nat with false.
  apply orb_false_iff. split; [apply Z.eqb_neq|apply Z.ltb_ge]; lia.
Qed.

(** C6, on the code.  For a song with a title and an artist the score is
    the one the specification describes: 0, plus 5 for the generative source
    or 2 for web search, plus 2 for a year in [1950, 2024], plus 3 for a
    cultural impact score of at least 6, plus the number of prompt words
    longer than 2 characters that occur, ignoring case, in "title artist",
    minus 3 for a too short title and minus 3 for a too short artist; and
    the score depends on the prompt through its keywords only, and on the
    song through its source, year, impact score, title and artist only.
    For a song without a title or without an artist the code never scores
    less than that, but it can score more: the missing field is matched as
    the text "undefined", so that with the prompt "fine dining music" a song
    that has only the artist "Eagles" scores -2, where the specification
    gives -3. *)
Theorem basic_score_formula :
  (forall (prompt : string) (song : Song) (song_title song_artist : string),
      title song = Some song_title -> artist song = Some song_artist ->
      basic_score prompt song = spec_basic_score prompt song)
  /\ (forall (prompt1 prompt2 : string) (song : Song),
         searchTerms prompt1 = searchTerms prompt2 ->
         basic_score prompt1 song = basic_score prompt2 song)
  /\ (forall (prompt : string) (song1 song2 : Song),
         source song1 = source song2 -> year song1 = year song2 ->
         cultural_impact_score song1 = cultural_impact_score song2 ->
         title song1 = title song2 -> artist song1 = artist song2 ->
         basic_score prompt song1 = basic_score prompt song2)
  /\ (forall (prompt : string) (song : Song),
         spec_basic_score prompt song <= basic_score prompt song)
  /\ basic_score "fine dining music" eagles_untitled = -2
  /\ spec_basic_score "fine dining music" eagles_untitled = -3.
Proof.
  split; [|split; [|split; [|split; [|split]]]].
  - intros prompt song song_title song_artist Htitle Hartist.
    unfold basic_score, spec_basic_score, source_points.
    rewrite (keywordMatches_words prompt song song_title song_artist Htitle Hartist).
    rewrite year_plausible_range, impact_high_at_least_6.
    rewrite !missing_or_short_too_short.
    destruct (source_is song "mistral_ai_generation"), (source_is song "brave_search"),
      (year_in_range song), (impact_at_least_6 song), (too_short (title song)),
      (too_short (artist song)); lia.
  - intros prompt1 prompt2 song Hterms. unfold basic_score, keywordMatches.
    now rewrite Hterms.
  - intros prompt song1 song2 Hsrc Hyear Himpact Htitle Hartist.
    unfold basic_score, keywordMatches, songText, source_is, year_plausible, impact_high.
    now rewrite Hsrc, Hyear, Himpact, Htitle, Hartist.
  - intros prompt song. unfold basic_score, spec_basic_score, source_points.
    pose proof (keywordMatches_at_least prompt song) as Hcount.
    rewrite year_plausible_range, impact_high_at_least_6.
    rewrite !missing_or_short_too_short.
    destruct (source_is song "mistral_ai_generation"), (source_is song "brave_search"),
      (year_in_range song), (impact_at_least_6 song), (too_short (title song)),
      (too_short (artist song)); lia.
  - reflexivity.
  - reflexivity.
Qed.

(** ** The number pattern *)

Section NumberPattern.

Import Regex.

Lemma digit_class (c : ascii) : cls_matches false [("0", "9")]%char false c = Str.is_digit c.
Proof. destruct c as [[] [] [] [] [] [] [] []]; reflexivity. Qed.

Lemma last_cons_default {A} (l : list A) (x d : A) : List.last (x :: l) d = List.last l x.
Proof.
  revert x d. induction l as [|y l IH]; intros x d; [reflexivity|].
  change (List.last (x :: y :: l) d) with (List.last (y :: l) d).
  now rewrite !IH.
Qed.

Lemma iterate_S (step : pos -> option (list ascii) -> cont -> result) (k : cont)
    (fuel : nat) (p0 : pos) cap0 :
  iterate step k (S fuel) p0 cap0 =
  step p0 cap0 (fun p' cap' =>
    if (length (rest p') <? length (rest p0))%nat then
      match iterate step k fuel p' cap' with
      | Some res => Some res
      | None => k p' cap'
      end
    else k p' cap').
Proof. reflexivity. Qed.

Lemma iterate_O (step : pos -> option (list ascii) -> cont -> result) (k : cont)
    (p0 : pos) cap0 :
  iterate step k O p0 cap0 = step p0 cap0 k.
Proof. reflexivity. Qed.

Lemma run_digit (p : pos) cap (k : cont) :
  run false digit p cap k =
  match rest p with
  | [] => None
  | c :: r => if Str.is_digit c then k (mkPos (Some c) r) cap else None
  end.
Proof. simpl. destruct (rest p) as [|c r]; [reflexivity|]. now rewrite digit_class. Qed.

Lemma iterate_digit_stuck (k : cont) (fuel : nat) (p : pos) cap :
  match rest p with [] => True | c :: _ => not_digit c end ->
  iterate (run false digit) k fuel p cap = None.
Proof.
  intros Hhead.
  destruct fuel; [rewrite iterate_O|rewrite iterate_S]; rewrite run_digit;
    destruct (rest p) as [|c r]; try reflexivity; now rewrite Hhead.
Qed.

(** On a run of digits that ends before [post], the greedy [\d+] tries the
    whole run first: what the continuation accepts there is the result. *)
Lemma iterate_digit_run (k : cont) (res : option (list ascii)) (ds : list ascii) :
  forall (d : ascii) (prev : option ascii) (post : list ascii) (fuel : nat) cap,
    Forall (fun c => Str.is_digit c = true) (d :: ds) ->
    match post with [] => True | c :: _ => not_digit c end ->
    (length (d :: ds ++ post) <= S fuel)%nat ->
    k (mkPos (Some (List.last ds d)) post) cap = Some res ->
    iterate (run false digit) k fuel (mkPos prev (d :: ds ++ post)) cap = Some res.
Proof.
  induction ds as [|d' ds IH]; intros d prev post fuel cap Hds Hpost Hfuel Hk.
  - apply Forall_cons in Hds as [Hd _].
    destruct fuel; [rewrite iterate_O|rewrite iterate_S]; rewrite run_digit;
      cbn [rest app]; rewrite Hd; [exact Hk|].
    replace (length post <? length (d :: post))%nat with true
      by (symmetry; apply Nat.ltb_lt; simpl; lia).
    rewrite iterate_digit_stuck by exact Hpost. exact Hk.
  - apply Forall_cons in Hds as [Hd Hds].
    destruct fuel as [|fuel]; [simpl in Hfuel; lia|].
    rewrite iterate_S, run_digit. cbn [rest]. rewrite Hd.
    replace (length ((d' :: ds) ++ post) <? length (d :: (d' :: ds) ++ post))%nat with true
      by (symmetry; apply Nat.ltb_lt; simpl; lia).
    rewrite <- app_comm_cons. rewrite last_cons_default in Hk.
    rewrite (IH d' (Some d) post fuel cap Hds Hpost) by (simpl in *; lia || exact Hk).
    reflexivity.
Qed.

Lemma match_at_number (p : pos) :
  match_at false numberPattern p =
  if at_boundary p
  then iterate (run false digit) (after_digits p) (length (rest p)) p None
  else None.
Proof. reflexivity. Qed.

Lemma match_at_number_stuck (p : pos) :
  match rest p with [] => True | c :: _ => not_digit c end ->
  match_at false numberPattern p = None.
Proof.
  intros Hhead. rewrite match_at_number.
  destruct (at_boundary p); [now apply iterate_digit_stuck|reflexivity].
Qed.

Lemma digit_is_word (c : ascii) : Str.is_digit c = true -> Str.is_word c = true.
Proof. unfold Str.is_word. intros ->. now rewrite orb_true_r. Qed.

Lemma last_is_digit (ds : list ascii) (d : ascii) :
  Forall (fun c => Str.is_digit c = true) (d :: ds) -> Str.is_digit (List.last ds d) = true.
Proof.
  revert d. induction ds as [|d' ds IH]; intros d Hds.
  - now apply Forall_cons in Hds as [Hd _].
  - rewrite last_cons_default. apply IH. now apply Forall_cons in Hds as [_ Hds].
Qed.

(** A run of digits between two places outside words is a match, and its
    group is the run. *)
Lemma match_at_number_run (prev : option ascii) (d : ascii) (ds post : list ascii) :
  match prev with Some c => Str.is_word c = false | None => True end ->
  Forall (fun c => Str.is_digit c = true) (d :: ds) ->
  match post with [] => True | c :: _ => Str.is_word c = false end ->
  match_at false numberPattern (mkPos prev (d :: ds ++ post)) = Some (Some (d :: ds)).
Proof.
  intros Hprev Hds Hpost. rewrite match_at_number.
  assert (Hd : Str.is_digit d = true) by now apply Forall_cons in Hds as [Hd _].
  assert (Hbound : at_boundary (mkPos prev (d :: ds ++ post)) = true).
  { unfold at_boundary, word_before, word_after. cbn [before rest].
    rewrite (digit_is_word d Hd). destruct prev as [c|]; [now rewrite Hprev|reflexivity]. }
  rewrite Hbound. cbn [rest].
  apply iterate_digit_run; try assumption.
  - destruct post as [|c post]; [exact I|]. unfold not_digit.
    destruct (Str.is_digit c) eqn:Hc; [|reflexivity].
    apply digit_is_word in Hc. congruence.
  - simpl. lia.
  - unfold after_digits. cbn [run rest].
    assert (Hend : at_boundary (mkPos (Some (List.last ds d)) post) = true).
    { unfold at_boundary, word_before, word_after. cbn [before rest].
      rewrite (digit_is_word _ (last_is_digit ds d Hds)).
      destruct post as [|c post]; [reflexivity|now rewrite Hpost]. }
    rewrite Hend. do 2 f_equal.
    replace (length (d :: ds ++ post) - length post)%nat with (length (d :: ds))
      by (simpl; rewrite length_app; lia).
    now rewrite (app_comm_cons ds post d), take_app_length.
Qed.

(** The search passes over characters that are not digits. *)
Lemma search_number_skip (pre : list ascii) :
  forall (prev : option ascii) (s : list ascii),
    Forall not_digit pre ->
    search false numberPattern prev (pre ++ s) =
    search false numberPattern (last_char prev pre) s.
Proof.
  induction pre as [|c pre IH]; intros prev s Hpre; [reflexivity|].
  apply Forall_cons in Hpre as [Hc Hpre].
  cbn [app search]. rewrite match_at_number_stuck by exact Hc.
  now rewrite IH.
Qed.

Lemma list_ascii_of_string_app (a b : string) :
  list_ascii_of_string (a ++ b)%string = list_ascii_of_string a ++ list_ascii_of_string b.
Proof. induction a as [|c a IH]; simpl; [reflexivity|now rewrite IH]. Qed.

Lemma no_digit_Forall (s : string) :
  no_digit s = true -> Forall not_digit (list_ascii_of_string s).
Proof.
  unfold no_digit. rewrite forallb_forall, Forall_forall. intros H c Hc.
  apply list_elem_of_In in Hc. apply H in Hc. unfold not_digit.
  now destruct (Str.is_digit c).
Qed.

Lemma extractNumber_no_digit (prompt : string) :
  no_digit prompt = true -> extractNumberFromPrompt prompt = None.
Proof.
  intros Hnone. unfold extractNumberFromPrompt, match1.
  rewrite <- (app_nil_r (list_ascii_of_string prompt)).
  rewrite search_number_skip by now apply no_digit_Forall.
  cbn [search]. now rewrite match_at_number_stuck.
Qed.

Lemma extractNumber_first_integer (pre digits post : string) :
  no_digit pre = true -> ends_outside_word pre = true ->
  all_digits digits = true -> digits <> EmptyString ->
  starts_outside_word post = true ->
  extractNumberFromPrompt (pre ++ digits ++ post)%string =
  Some (to_number (parseInt digits)).
Proof.
  intros Hpre Hend Hdigits Hnonempty Hpost.
  unfold extractNumberFromPrompt, match1.
  rewrite !list_ascii_of_string_app.
  rewrite search_number_skip by now apply no_digit_Forall.
  destruct digits as [|d digits]; [contradiction|]. cbn [list_ascii_of_string app].
  cbn [search]. rewrite match_at_number_run.
  - unfold parseInt. now rewrite list_ascii_of_string_of_list_ascii.
  - unfold ends_outside_word in Hend.
    destruct (last_char None (list_ascii_of_string pre)) as [c|]; [|exact I].
    now destruct (Str.is_word c).
  - unfold all_digits in Hdigits. rewrite forallb_forall in Hdigits.
    apply Forall_forall. intros c Hc. apply Hdigits. now apply list_elem_of_In.
  - destruct post as [|c post]; [exact I|]. simpl in Hpost |- *.
    now destruct (Str.is_word c).
Qed.

(** Inside a run of digits that a word character follows there is no
    word boundary: the pattern does not match from its start. *)
Lemma iterate_digit_blocked (start : pos) (ds : list ascii) :
  forall (d : ascii) (prev : option ascii) (post : list ascii) (fuel : nat) cap,
    Forall (fun c => Str.is_digit c = true) (d :: ds) ->
    match post with
    | c :: _ => Str.is_word c = true /\ Str.is_digit c = false
    | [] => False
    end ->
    iterate (run false digit) (after_digits start) fuel (mkPos prev (d :: ds ++ post)) cap
    = None.
Proof.
  assert (Hinside : forall d after cap,
             Str.is_digit d = true ->
             match after with c :: _ => Str.is_word c = true | [] => False end ->
             after_digits start (mkPos (Some d) after) cap = None).
  { intros d after cap Hd Hafter. unfold after_digits. cbn [run].
    unfold at_boundary, word_before, word_after. cbn [before rest].
    rewrite (digit_is_word d Hd). destruct after as [|c after]; [contradiction|].
    now rewrite Hafter. }
  induction ds as [|d' ds IH]; intros d prev post fuel cap Hds Hpost.
  - apply Forall_cons in Hds as [Hd _].
    assert (Hk : after_digits start (mkPos (Some d) post) cap = None).
    { apply Hinside; [exact Hd|]. destruct post as [|c post]; [contradiction|tauto]. }
    destruct fuel; [rewrite iterate_O|rewrite iterate_S]; rewrite run_digit;
      cbn [rest app]; rewrite Hd; [exact Hk|].
    destruct (length post <? length (d :: post))%nat; [|exact Hk].
    rewrite iterate_digit_stuck; [exact Hk|].
    cbn [rest]. destruct post as [|c post]; [exact I|]. unfold not_digit. tauto.
  - apply Forall_cons in Hds as [Hd Hds].
    assert (Hk : after_digits start (mkPos (Some d) ((d' :: ds) ++ post)) cap = None).
    { apply Hinside; [exact Hd|]. cbn [app]. apply digit_is_word.
      now apply Forall_cons in Hds as [Hd' _]. }
    destruct fuel; [rewrite iterate_O|rewrite iterate_S]; rewrite run_digit;
      cbn [rest]; rewrite Hd; [exact Hk|].
    destruct (length ((d' :: ds) ++ post) <? length (d :: (d' :: ds) ++ post))%nat;
      [|exact Hk].
    rewrite <- app_comm_cons, (IH d' (Some d) post fuel cap Hds Hpost).
    rewrite app_comm_cons. exact Hk.
Qed.

Lemma leading_digits_split (s : list ascii) :
  s = leading_digits s ++ drop (length (leading_digits s)) s
  /\ Forall (fun c => Str.is_digit c = true) (leading_digits s)
  /\ match drop (length (leading_digits s)) s with
     | c :: _ => Str.is_digit c = false
     | [] => True
     end.
Proof.
  induction s as [|c s (IHsplit & IHdigits & IHpost)]; [now repeat split|].
  cbn [leading_digits]. destruct (Str.is_digit c) eqn:Hc.
  - cbn [length drop app]. split; [now rewrite <- IHsplit|].
    split; [now constructor|exact IHpost].
  - cbn [length drop app]. now repeat split.
Qed.

(** At one position the pattern matches exactly the integer that stands
    there by itself. *)
Lemma match_at_number_here (prev : option ascii) (s : list ascii) :
  match_at false numberPattern (mkPos prev s) =
  match integer_here prev s with
  | Some digits => Some (Some digits)
  | None => None
  end.
Proof.
  unfold integer_here.
  destruct (leading_digits_split s) as (Hsplit & Hdigits & Hpost).
  destruct (leading_digits s) as [|d ds] eqn:Hlead.
  - apply match_at_number_stuck. cbn [rest]. cbn [length drop] in Hpost.
    destruct s as [|c s]; [exact I|exact Hpost].
  - set (post := drop (length (d :: ds)) s) in *.
    destruct (outside_word prev) eqn:Hprev; cbn [andb].
    + destruct (outside_word (head post)) eqn:Hafter.
      * rewrite Hsplit. cbn [app]. apply match_at_number_run; [|exact Hdigits|].
        -- destruct prev as [c|]; [|exact I]. cbn in Hprev. now destruct (Str.is_word c).
        -- destruct post as [|c post']; [exact I|]. cbn in Hafter.
           now destruct (Str.is_word c).
      * rewrite match_at_number.
        destruct (at_boundary (mkPos prev s)); [|reflexivity].
        rewrite Hsplit at 2 3. cbn [rest app]. apply iterate_digit_blocked; [exact Hdigits|].
        destruct post as [|c post']; [discriminate|]. cbn in Hafter.
        split; [now destruct (Str.is_word c)|exact Hpost].
    + rewrite match_at_number.
      replace (at_boundary (mkPos prev s)) with false; [reflexivity|].
      symmetry. unfold at_boundary, word_before, word_after. cbn [before rest].
      destruct prev as [c|]; [|discriminate]. cbn in Hprev.
      destruct (Str.is_word c); [|discriminate].
      rewrite Hsplit. cbn [app].
      rewrite digit_is_word; [reflexivity|]. now apply Forall_cons in Hdigits as [Hd _].
Qed.

Lemma search_number_first (s : list ascii) :
  forall prev : option ascii,
    search false numberPattern prev s =
    match first_integer_from prev s with
    | Some digits => Some (Some digits)
    | None => None
    end.
Proof.
  induction s as [|c s IH]; intros prev; cbn [search first_integer_from];
    rewrite match_at_number_here; destruct (integer_here prev _); try reflexivity.
  apply IH.
Qed.

(** The number that the code reads is the first integer of the prompt that
    stands by itself. *)
Lemma extractNumber_first (prompt : string) :
  extractNumberFromPrompt prompt =
  match first_integer prompt with
  | Some n => Some (to_number n)
  | None => None
  end.
Proof.
  unfold extractNumberFromPrompt, match1, first_integer. rewrite search_number_first.
  now destruct (first_integer_from None (list_ascii_of_string prompt)).
Qed.

End NumberPattern.

Lemma fallback_targetCount_count (prompt : string) :
  targetCount (constraints (analysis_fallback prompt)) = Some (fallback_count prompt).
Proof.
  unfold analysis_fallback, fallback_count. cbn [constraints targetCount].
  rewrite extractNumber_first. destruct (first_integer prompt) as [n|]; [|reflexivity].
  unfold to_number, number_or. destruct (n <? 2 ^ 53) eqn:Hexact.
  - now destruct (n =? 0).
  - cbn [number_min]. apply Z.ltb_ge in Hexact.
    replace (n =? 0) with false by (symmetry; apply Z.eqb_neq; lia).
    f_equal. lia.
Qed.

(** C3, as the code has it.  When the generative call is unavailable, the
    analyzer falls back to its heuristics, and its [targetCount] is the
    first integer of the prompt that stands by itself (digits with no word
    character right before or after them), capped at 15, and 10 when there
    is no such integer or when the integer is 0.  Unless that integer is 0
    this is the count the specification describes.  On
    "Beatles songs from the 60s, 5 songs" it is 5, as "60s" is no integer
    by itself; on "70s road trip rock" it is 10 and on "top 25 hits" 15. *)
Theorem fallback_targetCount :
  (forall (sv : Services) (prompt : string) (err : JsError),
      analysis_reply sv prompt = Throw err ->
      analyzeUserPromptFast sv prompt = analysis_fallback prompt)
  /\ (forall prompt : string,
         targetCount (constraints (analysis_fallback prompt)) =
         Some (fallback_count prompt))
  /\ (forall prompt : string,
         first_integer prompt <> Some 0 ->
         targetCount (constraints (analysis_fallback prompt)) =
         Some (claimed_targetCount prompt))
  /\ targetCount (constraints (analysis_fallback "Beatles songs from the 60s, 5 songs")) =
     Some 5
  /\ targetCount (constraints (analysis_fallback "70s road trip rock")) = Some 10
  /\ targetCount (constraints (analysis_fallback "top 25 hits")) = Some 15.
Proof.
  split; [|split; [|split; [|split; [|split]]]].
  - intros sv prompt err Hfail. unfold analyzeUserPromptFast. now rewrite Hfail.
  - exact fallback_targetCount_count.
  - intros prompt Hnonzero. rewrite fallback_targetCount_count.
    unfold fallback_count, claimed_targetCount.
    destruct (first_integer prompt) as [n|]; [|reflexivity].
    destruct (n =? 0) eqn:Hzero; [|reflexivity].
    apply Z.eqb_eq in Hzero. subst n. contradiction.
  - vm_compute. reflexivity.
  - vm_compute. reflexivity.
  - vm_compute. reflexivity.
Qed.

Lemma fallback_targetCount_witness :
  targetCount (constraints (analysis_fallback "play 7 love songs")) =
  Some (claimed_targetCount "play 7 love songs")
  /\ claimed_targetCount "play 7 love songs" = 7.
Proof.
  split; [|reflexivity].
  apply (proj1 (proj2 (proj2 fallback_targetCount)) "play 7 love songs").
  vm_compute. discriminate.
Defined.

(** C3, against the claim.  The prompt "0 songs" names the integer 0, which
    the specification's words make the count; the code reads 0 as no number
    and answers the default 10. *)
Lemma zero_count_becomes_default :
  first_integer "0 songs" = Some 0
  /\ claimed_targetCount "0 songs" = 0
  /\ targetCount (constraints (analysis_fallback "0 songs")) = Some 10
  /\ targetCount (constraints (analysis_fallback "0 songs")) <>
     Some (claimed_targetCount "0 songs").
Proof.
  split; [reflexivity|]. split; [reflexivity|]. split; [vm_compute; reflexivity|].
  vm_compute. discriminate.
Qed.

(** ** The artist patterns *)

Lemma usable_length (m : string) :
  (0 <? Str.len m) && (3 <? Str.len m) = true <-> (3 < String.length m)%nat.
Proof.
  unfold Str.len. rewrite andb_true_iff, !Z.ltb_lt. lia.
Qed.


Lemma first_artist_Some (patterns : list Regex.re) (prompt a : string) :
  first_artist patterns prompt = Some a <->
  exists before pattern after m,
    patterns = before ++ pattern :: after
    /\ Forall (rejected prompt) before
    /\ Regex.match1 true pattern prompt = Some m
    /\ (3 < String.length m)%nat
    /\ a = Str.trim m.
Proof.
  induction patterns as [|pattern more IH]; simpl.
  - split; [discriminate|]. intros (before & q & after & m & Hsplit & _).
    destruct before; discriminate.
  - split.
    + destruct (Regex.match1 true pattern prompt) as [m|] eqn:Hmatch.
      * destruct ((0 <? Str.len m) && (3 <? Str.len m)) eqn:Huse.
        -- intros [= <-]. exists [], pattern, more, m.
           repeat split; try assumption; [constructor|now apply usable_length].
        -- intros Hmore. apply IH in Hmore as (before & q & after & m' & -> & Hrej & Hm & Hlen & ->).
           exists (pattern :: before), q, after, m'. repeat split; try assumption.
           constructor; [|assumption]. unfold rejected. rewrite Hmatch.
           destruct (decide (3 < String.length m)%nat) as [Hlt|Hge]; [|lia].
           apply usable_length in Hlt. congruence.
      * intros Hmore. apply IH in Hmore as (before & q & after & m' & -> & Hrej & Hm & Hlen & ->).
        exists (pattern :: before), q, after, m'. repeat split; try assumption.
        constructor; [|assumption]. unfold rejected. now rewrite Hmatch.
    + intros (before & q & after & m & Hsplit & Hrej & Hm & Hlen & ->).
      destruct before as [|q0 before]; simpl in Hsplit;
        injection Hsplit as Hhead Htail; [subst q after|subst q0 more].
      * rewrite Hm. apply usable_length in Hlen. now rewrite Hlen.
      * apply Forall_cons in Hrej as [Hq0 Hrej]. unfold rejected in Hq0.
        assert (Hgoal : first_artist (before ++ q :: after) prompt = Some (Str.trim m)).
        { apply IH. exists before, q, after, m. repeat split; assumption. }
        destruct (Regex.match1 true pattern prompt) as [m0|]; [|exact Hgoal].
        destruct ((0 <? Str.len m0) && (3 <? Str.len m0)) eqn:Huse; [|exact Hgoal].
        apply usable_length in Huse. lia.
Qed.


Lemma basic_score_formula_witness :
  basic_score "Play HOTEL california" hotel_california =
  spec_basic_score "Play HOTEL california" hotel_california
  /\ spec_basic_score "Play HOTEL california" hotel_california = 6.
Proof.
  split; [|reflexivity].
  apply (proj1 basic_score_formula "Play HOTEL california" hotel_california
           "Hotel California" "Eagles"); reflexivity.
Defined.


(** ** The fusion engine *)

Lemma slice_to_all {A} (n : Z) (l : list A) :
  Z.of_nat (length l) <= n -> slice_to n l = l.
Proof.
  intros Hn. unfold slice_to.
  replace (n <? 0) with false by (symmetry; apply Z.ltb_ge; lia).
  apply take_ge. lia.
Qed.

Lemma filter_length_le {A} (P : A -> bool) (l : list A) :
  (length (List.filter P l) <= length l)%nat.
Proof.
  induction l as [|x l IH]; simpl; [lia|]. destruct (P x); simpl; lia.
Qed.

Lemma alignment_at_least_6 (song : Song) (a : Q) :
  alignment_score song = Some a -> Qle 6 a -> alignment_low song = false.
Proof.
  intros Hscore Hle. unfold alignment_low. rewrite Hscore.
  apply Qle_bool_iff in Hle as Hb. rewrite Hb, orb_false_r.
  destruct (Qeq_bool a 0) eqn:Hzero; [|reflexivity].
  apply Qeq_bool_iff in Hzero. rewrite Hzero in Hle.
  exfalso. revert Hle. apply Qlt_not_le. reflexivity.
Qed.

Lemma artist_check_no_artist (c : Constraints) (song : Song) :
  artist song = None \/ artist song = Some EmptyString ->
  artist_check c song = true.
Proof.
  intros Hartist. unfold artist_check.
  destruct (specificArtist c) as [requested|]; [|reflexivity].
  destruct (Str.len requested =? 0); [reflexivity|].
  destruct Hartist as [-> | ->]; cbn [Str.toLowerCase];
    now rewrite includes_empty, orb_true_r.
Qed.

(** With the verification call answering an array, the fusion engine
    returns the filtered array, cut to [targetCount || 12]. *)
Lemma fusion_verified (sv : Services) (webResults aiResults : list Song)
    (prompt : string) (emb : option (list float)) (c : Constraints) (verified : list Song) :
  removeDuplicateSongsFast (webResults ++ aiResults) <> [] ->
  (forall candidates, verification_reply sv prompt candidates = Normal (JsonArray verified)) ->
  combineAndVerifyAlignmentFast sv webResults aiResults prompt emb c =
  Normal (slice_to (or_default (targetCount c) 12) (List.filter (verified_keep c) verified)).
Proof.
  intros Hsongs Hreply. unfold combineAndVerifyAlignmentFast.
  destruct (removeDuplicateSongsFast (webResults ++ aiResults)) as [|song songs] eqn:Hall;
    [contradiction|].
  cbn [length Nat.eqb]. now rewrite Hreply.
Qed.

(** With the verification call failing, the [catch] block reads
    [allSongs], which is not in its scope. *)
Lemma fusion_fallback_throws (sv : Services) (webResults aiResults : list Song)
    (prompt : string) (emb : option (list float)) (c : Constraints) :
  removeDuplicateSongsFast (webResults ++ aiResults) <> [] ->
  (forall candidates, exists err, verification_reply sv prompt candidates = Throw err) ->
  combineAndVerifyAlignmentFast sv webResults aiResults prompt emb c =
  Throw (ReferenceError "allSongs is not defined").
Proof.
  intros Hsongs Hreply. unfold combineAndVerifyAlignmentFast.
  destruct (removeDuplicateSongsFast (webResults ++ aiResults)) as [|song songs] eqn:Hall;
    [contradiction|].
  cbn [length Nat.eqb].
  match goal with
  | |- context [verification_reply sv prompt ?cands] =>
      destruct (Hreply cands) as [err ->]
  end.
  reflexivity.
Qed.

(** C9. In the client-side filter after verification, a song whose artist
    is missing or empty passes the artist check whatever
    [constraints.specificArtist] asks for, so it is kept whenever its
    alignment score is at least 6; and when the verified array holds no
    more than [targetCount] (default 12) songs, it is in the final aligned
    list. *)
Theorem empty_artist_passes_artist_check :
  (forall (c : Constraints) (requested : string) (song : Song),
      specificArtist c = Some requested ->
      artist song = None \/ artist song = Some EmptyString ->
      artist_check c song = true)
  /\ (forall (c : Constraints) (song : Song) (a : Q),
         artist song = None \/ artist song = Some EmptyString ->
         alignment_score song = Some a -> Qle 6 a ->
         verified_keep c song = true)
  /\ (forall (sv : Services) (webResults aiResults : list Song) (prompt : string)
             (emb : option (list float)) (c : Constraints)
             (verified : list Song) (song : Song) (a : Q),
         removeDuplicateSongsFast (webResults ++ aiResults) <> [] ->
         (forall candidates,
             verification_reply sv prompt candidates = Normal (JsonArray verified)) ->
         Z.of_nat (length verified) <= or_default (targetCount c) 12 ->
         In song verified ->
         artist song = None \/ artist song = Some EmptyString ->
         alignment_score song = Some a -> Qle 6 a ->
         exists aligned,
           combineAndVerifyAlignmentFast sv webResults aiResults prompt emb c = Normal aligned
           /\ In song aligned).
Proof.
  split; [|split].
  - intros c requested song _ Hartist. now apply artist_check_no_artist.
  - intros c song a Hartist Hscore Hle. unfold verified_keep.
    rewrite (alignment_at_least_6 song a Hscore Hle). now apply artist_check_no_artist.
  - intros sv webResults aiResults prompt emb c verified song a
           Hsongs Hreply Hcount Hin Hartist Hscore Hle.
    eexists. split; [now apply fusion_verified|].
    rewrite slice_to_all.
    + apply filter_In. split; [assumption|]. unfold verified_keep.
      rewrite (alignment_at_least_6 song a Hscore Hle). now apply artist_check_no_artist.
    + pose proof (filter_length_le (verified_keep c) verified). lia.
Qed.

Lemma empty_artist_passes_artist_check_witness :
  verified_keep
    {| targetCount := Some 5; minCount := Some 3; decade := None;
       specificArtist := Some "Adele"; mood := None |}
    untitled_by_nobody = true.
Proof.
  apply (proj1 (proj2 empty_artist_passes_artist_check) _ untitled_by_nobody (8 # 1)).
  - left. reflexivity.
  - reflexivity.
  - discriminate.
Defined.

(** C2, on the code.  With one song from web search and the verification
    call failing, the fusion engine does not return the fallback list that
    the specification describes: its [catch] block throws a
    [ReferenceError], and the entry point turns that into the empty array. *)
Theorem fusion_fallback_at_failing_input :
  combineAndVerifyAlignmentFast verification_down [hotel_california] [] "70s road trip rock"
    None road_trip_constraints = Throw (ReferenceError "allSongs is not defined")
  /\ spec_fallback [hotel_california] [] road_trip_constraints = [hotel_california]
  /\ generateClassicRecommendations verification_down "70s road trip rock" "token" = Normal [].
Proof.
  split; [|split].
  - apply fusion_fallback_throws; [discriminate|]. intros candidates. eexists. reflexivity.
  - reflexivity.
  - vm_compute. reflexivity.
Qed.

(** ** The entry point *)

(** What the entry point does when the aligned list is too short. *)
Lemma workflow_too_few (sv : Services) (prompt token : string) (aligned : list Song) :
  alignedSongs_of sv prompt = Normal aligned ->
  too_few (constraints (analyzeUserPromptFast sv prompt)) aligned = true ->
  exists message, workflow sv prompt token = Throw (Error message).
Proof.
  intros Haligned Hfew. unfold workflow. rewrite Haligned, Hfew. eexists. reflexivity.
Qed.

Lemma generateClassicRecommendations_resolves (sv : Services) (prompt token : string) :
  exists tracks, generateClassicRecommendations sv prompt token = Normal tracks.
Proof.
  unfold generateClassicRecommendations.
  destruct (workflow sv prompt token); eexists; reflexivity.
Qed.

(** C1, as the code has it.  When the final aligned list has fewer than
    [min(minCount, 3)] entries, the entry point treats the request as
    failed: its [try] block throws "Not enough quality results", the
    catalog is not consulted and no too-short list is returned.  The
    [catch] of the same function turns that error, like every other one,
    into the empty array: the promise resolves, and always does. *)
Theorem insufficient_results_give_empty_array :
  (forall (sv : Services) (prompt token : string) (aligned : list Song) (m : Z),
      alignedSongs_of sv prompt = Normal aligned ->
      minCount (constraints (analyzeUserPromptFast sv prompt)) = Some m ->
      Z.of_nat (length aligned) < Z.min m 3 ->
      (exists message, workflow sv prompt token = Throw (Error message))
      /\ generateClassicRecommendations sv prompt token = Normal [])
  /\ (forall (sv : Services) (prompt token : string) (err : JsError),
         workflow sv prompt token = Throw err ->
         generateClassicRecommendations sv prompt token = Normal [])
  /\ (forall (sv : Services) (prompt token : string),
         exists tracks, generateClassicRecommendations sv prompt token = Normal tracks).
Proof.
  split; [|split].
  - intros sv prompt token aligned m Haligned Hmin Hfew.
    assert (Htoo : too_few (constraints (analyzeUserPromptFast sv prompt)) aligned = true).
    { unfold too_few, min_needed. rewrite Hmin. now apply Z.ltb_lt. }
    destruct (workflow_too_few sv prompt token aligned Haligned Htoo) as [message Hthrow].
    split; [now exists message|].
    unfold generateClassicRecommendations. now rewrite Hthrow.
  - intros sv prompt token err Hthrow.
    unfold generateClassicRecommendations. now rewrite Hthrow.
  - apply generateClassicRecommendations_resolves.
Qed.

Lemma insufficient_results_give_empty_array_witness :
  (exists message,
      workflow two_song_services "70s road trip rock" "token" = Throw (Error message))
  /\ generateClassicRecommendations two_song_services "70s road trip rock" "token" = Normal [].
Proof.
  apply (proj1 insufficient_results_give_empty_array two_song_services
           "70s road trip rock" "token"
           (map (with_alignment (8 # 1))
                (js_sort by_similarity_desc
                   (map (with_similarity 1%float)
                        (map (score_song "70s road trip rock")
                             [hotel_california; go_your_own_way]))))
           3).
  - vm_compute. reflexivity.
  - reflexivity.
  - vm_compute. reflexivity.
Defined.

(** C1, against the claim.  With constraints [{targetCount: 12, minCount: 3}]
    and an aligned list of exactly 2 songs, the caller receives the bare
    empty array, the same value it receives when the verification call
    fails upstream; nothing tells the two apart. *)
Lemma insufficient_results_not_surfaced :
  (exists aligned,
      alignedSongs_of two_song_services "70s road trip rock" = Normal aligned
      /\ length aligned = 2%nat)
  /\ min_needed (constraints (analyzeUserPromptFast two_song_services "70s road trip rock"))
     = Some 3
  /\ generateClassicRecommendations two_song_services "70s road trip rock" "token" = Normal []
  /\ (exists err, alignedSongs_of verification_down "70s road trip rock" = Throw err)
  /\ generateClassicRecommendations verification_down "70s road trip rock" "token" =
     generateClassicRecommendations two_song_services "70s road trip rock" "token".
Proof.
  split; [|split; [|split; [|split]]].
  - eexists. split; [vm_compute; reflexivity|reflexivity].
  - reflexivity.
  - vm_compute. reflexivity.
  - eexists. vm_compute. reflexivity.
  - vm_compute. reflexivity.
Qed.

(** ** The catalog resolver *)

Lemma artist_similarities_present (t : Track) (song : Song) (song_artist : string) :
  artist song = Some song_artist ->
  artist_similarities t song =
  Normal (map (fun artist_name =>
                 calculateStringSimilarityFast (Str.toLowerCase artist_name)
                                               (Str.toLowerCase song_artist))
              (artists t)).
Proof.
  intros Hartist. unfold artist_similarities. rewrite Hartist.
  destruct (artists t); reflexivity.
Qed.

Lemma first_decent_match_find (tracks : list Track) (song : Song)
    (song_title song_artist : string) :
  title song = Some song_title -> artist song = Some song_artist ->
  first_decent_match tracks song =
  Normal (List.find (qualifies song_title song_artist) tracks).
Proof.
  intros Htitle Hartist. induction tracks as [|t more IH]; [reflexivity|].
  cbn [first_decent_match List.find]. rewrite Htitle.
  rewrite (artist_similarities_present t song song_artist Hartist).
  unfold qualifies at 1.
  destruct (_ <? _)%float; [reflexivity|exact IH].
Qed.

Lemma findBestTrackMatchFast_accepted (tracks : list Track) (song : Song)
    (song_title song_artist : string) :
  title song = Some song_title -> artist song = Some song_artist ->
  findBestTrackMatchFast tracks song = Normal (accepted song_title song_artist tracks).
Proof.
  intros Htitle Hartist. unfold findBestTrackMatchFast, accepted.
  destruct tracks as [|first more]; [reflexivity|].
  rewrite (first_decent_match_find _ song song_title song_artist Htitle Hartist).
  destruct (List.find _ _); reflexivity.
Qed.

Lemma accepted_nonempty (song_title song_artist : string) (tracks : list Track) :
  tracks <> [] -> exists t, accepted song_title song_artist tracks = Some t.
Proof.
  intros Hne. unfold accepted. destruct (List.find _ tracks) as [t|]; [now exists t|].
  destruct tracks as [|t more]; [contradiction|now exists t].
Qed.

(** C4, as the code has it.  For a song with a title and an artist, the
    resolver asks the strict query first and stops at the first query that
    returns candidates: among them it accepts the first whose combined score
    exceeds 0.5, and otherwise, at once, the first returned.  The loose
    query is asked only when the strict one returns nothing, and a song for
    which both return nothing resolves to nothing, without an error. *)
Theorem catalog_resolution_per_query :
  forall (sv : Services) (token : string) (song : Song) (song_title song_artist : string),
    title song = Some song_title -> artist song = Some song_artist ->
    (forall tracks,
        spotify_reply sv (strict_query song) token = Normal tracks -> tracks <> [] ->
        exists t,
          accepted song_title song_artist tracks = Some t
          /\ resolve_song sv token song = Some (mkResolved t song (strict_query song)))
    /\ (forall tracks,
           spotify_reply sv (strict_query song) token = Normal [] ->
           spotify_reply sv (loose_query song) token = Normal tracks -> tracks <> [] ->
           exists t,
             accepted song_title song_artist tracks = Some t
             /\ resolve_song sv token song = Some (mkResolved t song (loose_query song)))
    /\ (spotify_reply sv (strict_query song) token = Normal [] ->
        spotify_reply sv (loose_query song) token = Normal [] ->
        resolve_song sv token song = None).
Proof.
  intros sv token song song_title song_artist Htitle Hartist.
  unfold resolve_song, strict_query, loose_query.
  cbn [searchStrategies List.nth try_strategies].
  split; [|split].
  - intros tracks Hstrict Hne. rewrite Hstrict.
    rewrite (findBestTrackMatchFast_accepted _ song song_title song_artist Htitle Hartist).
    destruct (accepted_nonempty song_title song_artist tracks Hne) as [t Ht].
    exists t. rewrite Ht. split; reflexivity.
  - intros tracks Hstrict Hloose Hne. rewrite Hstrict. cbn [findBestTrackMatchFast].
    rewrite Hloose.
    rewrite (findBestTrackMatchFast_accepted _ song song_title song_artist Htitle Hartist).
    destruct (accepted_nonempty song_title song_artist tracks Hne) as [t Ht].
    exists t. rewrite Ht. split; reflexivity.
  - intros Hstrict Hloose. rewrite Hstrict. cbn [findBestTrackMatchFast].
    rewrite Hloose. reflexivity.
Qed.

Lemma catalog_resolution_per_query_witness :
  exists t,
    accepted "Hello" "Adele" [track_poor] = Some t
    /\ resolve_song strict_poor_loose_exact "token" hello =
       Some (mkResolved t hello (strict_query hello)).
Proof.
  apply (proj1 (catalog_resolution_per_query strict_poor_loose_exact "token" hello
                  "Hello" "Adele" eq_refl eq_refl) [track_poor]).
  - reflexivity.
  - discriminate.
Defined.

(** C4, against the claim.  The strict query returns one candidate that
    does not qualify, the loose query would return one that does; the
    resolver accepts the strict query's candidate unconditionally, with the
    loose formulation still untried. *)
Lemma first_candidate_accepted_before_exhaustion :
  spotify_reply strict_poor_loose_exact (strict_query hello) "token" = Normal [track_poor]
  /\ qualifies "Hello" "Adele" track_poor = false
  /\ spotify_reply strict_poor_loose_exact (loose_query hello) "token" = Normal [track_exact]
  /\ qualifies "Hello" "Adele" track_exact = true
  /\ resolve_song strict_poor_loose_exact "token" hello =
     Some (mkResolved track_poor hello (strict_query hello)).
Proof.
  repeat split; vm_compute; reflexivity.
Qed.

(** ** Cosine similarity *)

Section Numbers.

Local Open Scope float_scope.

Ltac sf_cases :=
  unfold is_zeroF, zero_or_nan, nan_or_infinite, SF64mul, SF64add, SF64div, SF64sqrt,
    SFmul, SFadd, SFdiv, SFsqrt;
  repeat match goal with
         | |- context [Prim2SF ?x] => is_var x; destruct (Prim2SF x) as [[]|[]| |[] ? ?]
         end;
  simpl; try tauto.

Lemma is_zero_is_zeroF (x : float) : PrimFloat.is_zero x = true -> is_zeroF x.
Proof.
  unfold PrimFloat.is_zero. rewrite FloatAxioms.eqb_spec.
  change (Prim2SF PrimFloat.zero) with (S754_zero false).
  unfold is_zeroF. destruct (Prim2SF x) as [s|s| |s m e]; simpl; try discriminate;
    try tauto; destruct s; discriminate.
Qed.

Lemma nan_is_nan (x : float) : Prim2SF x = S754_nan -> PrimFloat.is_nan x = true.
Proof. intros Hx. unfold PrimFloat.is_nan. now rewrite FloatAxioms.eqb_spec, Hx. Qed.

Lemma nan_outside_unit (x : float) : Prim2SF x = S754_nan -> within_unit x = false.
Proof. intros Hx. unfold within_unit. now rewrite !FloatAxioms.leb_spec, Hx. Qed.

Lemma nan_or_infinite_outside_unit (x : float) : nan_or_infinite x -> within_unit x = false.
Proof.
  unfold nan_or_infinite, within_unit. rewrite !FloatAxioms.leb_spec.
  change (Prim2SF 1) with (S754_finite false 4503599627370496 (-52)).
  change (Prim2SF (-1)) with (S754_finite true 4503599627370496 (-52)).
  destruct (Prim2SF x) as [s|[]| |s m e]; simpl; tauto.
Qed.

Lemma zero_zero_or_nan (x : float) : is_zeroF x -> zero_or_nan x.
Proof. sf_cases. Qed.

Lemma mul_zero_or_nan_l (a b : float) : zero_or_nan a -> zero_or_nan (a * b).
Proof. unfold is_zeroF, zero_or_nan, nan_or_infinite. rewrite FloatAxioms.mul_spec. sf_cases. Qed.

Lemma mul_zero_or_nan_r (a b : float) : zero_or_nan b -> zero_or_nan (a * b).
Proof. unfold is_zeroF, zero_or_nan, nan_or_infinite. rewrite FloatAxioms.mul_spec. sf_cases. Qed.

Lemma add_zero_or_nan (a b : float) : zero_or_nan a -> zero_or_nan b -> zero_or_nan (a + b).
Proof. unfold is_zeroF, zero_or_nan, nan_or_infinite. rewrite FloatAxioms.add_spec. sf_cases. Qed.

Lemma mul_zero (a b : float) : is_zeroF a -> is_zeroF b -> is_zeroF (a * b).
Proof. unfold is_zeroF, zero_or_nan, nan_or_infinite. rewrite FloatAxioms.mul_spec. sf_cases. Qed.

Lemma add_zero (a b : float) : is_zeroF a -> is_zeroF b -> is_zeroF (a + b).
Proof. unfold is_zeroF, zero_or_nan, nan_or_infinite. rewrite FloatAxioms.add_spec. sf_cases. Qed.

Lemma sqrt_zero (a : float) : is_zeroF a -> is_zeroF (PrimFloat.sqrt a).
Proof. unfold is_zeroF, zero_or_nan, nan_or_infinite. rewrite FloatAxioms.sqrt_spec. sf_cases. Qed.

Lemma div_zero_or_nan (a b : float) :
  zero_or_nan a -> zero_or_nan b -> Prim2SF (a / b) = S754_nan.
Proof. unfold is_zeroF, zero_or_nan, nan_or_infinite. rewrite FloatAxioms.div_spec. sf_cases. Qed.

Lemma div_by_zero_or_nan (a b : float) : zero_or_nan b -> nan_or_infinite (a / b).
Proof. unfold is_zeroF, zero_or_nan, nan_or_infinite. rewrite FloatAxioms.div_spec. sf_cases. Qed.

Lemma reduce_indexed_invariant {A B} (P : B -> Prop) (f : B -> A -> nat -> B) (l : list A) :
  forall (i : nat) (acc : B),
    (forall acc a i, P acc -> In a l -> P (f acc a i)) ->
    P acc -> P (reduce_indexed f i l acc).
Proof.
  induction l as [|a l IH]; intros i acc Hstep Hacc; [exact Hacc|].
  cbn [reduce_indexed]. apply IH.
  - intros acc' a' i' Hacc' Hin. apply Hstep; [assumption|now right].
  - apply Hstep; [assumption|now left].
Qed.

Lemma all_zero_In (v : list float) (x : float) : all_zero v -> In x v -> is_zeroF x.
Proof.
  unfold all_zero. rewrite Forall_forall. intros Hv Hx.
  apply is_zero_is_zeroF, Hv. now apply list_elem_of_In.
Qed.

Lemma magnitude_all_zero (v : list float) : all_zero v -> is_zeroF (magnitude v).
Proof.
  intros Hv. unfold magnitude, sum_squares. apply sqrt_zero.
  apply reduce_indexed_invariant.
  - intros acc a _ Hacc Hin. apply add_zero; [assumption|].
    pose proof (all_zero_In v a Hv Hin). now apply mul_zero.
  - exact I.
Qed.

Lemma index_num_all_zero (v : list float) (i : nat) : all_zero v -> zero_or_nan (index_num v i).
Proof.
  intros Hv. unfold index_num. destruct (nth_in_or_default i v nan) as [Hin| ->].
  - apply zero_zero_or_nan. now apply (all_zero_In v).
  - exact I.
Qed.

Lemma cosineSimilarity_magnitudes (vecA vecB : list float) :
  cosineSimilarity vecA vecB =
  reduce_indexed (fun sum a i => sum + a * index_num vecB i) 0 vecA 0
  / (magnitude vecA * magnitude vecB).
Proof. reflexivity. Qed.

(** The similarity to or of a vector whose components are all zero is NaN. *)
Lemma cosineSimilarity_all_zero (vecA vecB : list float) :
  all_zero vecA \/ all_zero vecB ->
  Prim2SF (cosineSimilarity vecA vecB) = S754_nan.
Proof.
  intros Hzero. rewrite cosineSimilarity_magnitudes. apply div_zero_or_nan.
  - apply reduce_indexed_invariant; [|exact I].
    intros acc a i Hacc Hin. apply add_zero_or_nan; [assumption|].
    destruct Hzero as [HA|HB].
    + apply mul_zero_or_nan_l, zero_zero_or_nan. now apply (all_zero_In vecA).
    + apply mul_zero_or_nan_r. now apply index_num_all_zero.
  - destruct Hzero as [HA|HB].
    + apply mul_zero_or_nan_l, zero_zero_or_nan. now apply magnitude_all_zero.
    + apply mul_zero_or_nan_r, zero_zero_or_nan. now apply magnitude_all_zero.
Qed.

(** When a computed magnitude is zero, the division is by zero or by NaN. *)
Lemma cosineSimilarity_zero_magnitude (vecA vecB : list float) :
  PrimFloat.is_zero (magnitude vecA) = true \/ PrimFloat.is_zero (magnitude vecB) = true ->
  nan_or_infinite (cosineSimilarity vecA vecB).
Proof.
  intros Hzero. rewrite cosineSimilarity_magnitudes. apply div_by_zero_or_nan.
  destruct Hzero as [HA|HB].
  - now apply mul_zero_or_nan_l, zero_zero_or_nan, is_zero_is_zeroF.
  - now apply mul_zero_or_nan_r, zero_zero_or_nan, is_zero_is_zeroF.
Qed.

End Numbers.

(** ** The semantic re-rank *)

Lemma sort_insert_Permutation {A} (cmp : A -> A -> Z) (x : A) (l : list A) :
  Permutation (sort_insert cmp x l) (x :: l).
Proof.
  induction l as [|y l IH]; simpl; [reflexivity|].
  destruct (cmp x y <=? 0); [reflexivity|].
  rewrite IH. apply perm_swap.
Qed.

(** The sort rearranges its input and loses nothing. *)
Lemma js_sort_Permutation {A} (cmp : A -> A -> Z) (l : list A) :
  Permutation (js_sort cmp l) l.
Proof.
  induction l as [|x l IH]; simpl; [reflexivity|].
  rewrite sort_insert_Permutation. now constructor.
Qed.

Lemma attach_similarity_all_zero (emb : list float) (songs : list Song) :
  forall data : list (list float),
    all_zero emb ->
    (length songs <= length data)%nat ->
    exists scored,
      attach_similarity emb songs data = Normal scored
      /\ length scored = length songs
      /\ Forall (fun song => exists sim, similarity_score song = Some sim
                                         /\ PrimFloat.is_nan sim = true) scored.
Proof.
  induction songs as [|song songs IH]; intros data Hzero Hlen.
  - exists []. repeat split. constructor.
  - destruct data as [|e data]; [simpl in Hlen; lia|].
    destruct (IH data Hzero) as (scored & Hattach & Hlength & Hnan); [simpl in Hlen; lia|].
    exists (with_similarity (cosineSimilarity emb e) song :: scored).
    cbn [attach_similarity]. rewrite Hattach. repeat split.
    + simpl. now rewrite Hlength.
    + constructor; [|assumption]. eexists. split; [reflexivity|].
      apply nan_is_nan, cosineSimilarity_all_zero. now left.
Qed.

(** C10. [cosineSimilarity] divides the dot product by the product of the
    two magnitudes, with no guard against zero.  For every call in which
    one of the vectors has magnitude zero, all its components being zero,
    the result is NaN, which is no number of [-1, 1]; more generally, the
    result lies outside [-1, 1] whenever one of the computed magnitudes is
    zero.  Such values reach the sort of the semantic re-rank: with a
    prompt embedding of magnitude zero, every song handed to the sort
    carries a NaN similarity. *)
Theorem cosineSimilarity_zero_magnitude_is_nan :
  (forall vecA vecB : list float,
      cosineSimilarity vecA vecB =
      (reduce_indexed (fun sum a i => sum + a * index_num vecB i) 0 vecA 0
       / (magnitude vecA * magnitude vecB))%float)
  /\ (forall vecA vecB : list float,
         all_zero vecA \/ all_zero vecB ->
         PrimFloat.is_nan (cosineSimilarity vecA vecB) = true
         /\ within_unit (cosineSimilarity vecA vecB) = false)
  /\ (forall vecA vecB : list float,
         PrimFloat.is_zero (magnitude vecA) = true
         \/ PrimFloat.is_zero (magnitude vecB) = true ->
         within_unit (cosineSimilarity vecA vecB) = false)
  /\ (forall (sv : Services) (songs : list Song) (emb : list float)
             (data : list (list float)),
         all_zero emb ->
         embeddings_reply sv (map embedding_text songs) = Normal data ->
         (length songs <= length data)%nat ->
         exists scored,
           rankSongsBySementicSimilarityFast sv songs emb =
           js_sort by_similarity_desc scored
           /\ length scored = length songs
           /\ Forall (fun song => exists sim, similarity_score song = Some sim
                                              /\ PrimFloat.is_nan sim = true) scored
           /\ Permutation (rankSongsBySementicSimilarityFast sv songs emb) scored).
Proof.
  split; [|split; [|split]].
  - intros vecA vecB. reflexivity.
  - intros vecA vecB Hzero.
    pose proof (cosineSimilarity_all_zero vecA vecB Hzero) as Hnan.
    split; [now apply nan_is_nan|now apply nan_outside_unit].
  - intros vecA vecB Hzero.
    now apply nan_or_infinite_outside_unit, cosineSimilarity_zero_magnitude.
  - intros sv songs emb data Hzero Hreply Hlen.
    destruct (attach_similarity_all_zero emb songs data Hzero Hlen)
      as (scored & Hattach & Hlength & Hnan).
    exists scored. unfold rankSongsBySementicSimilarityFast. rewrite Hreply, Hattach.
    repeat split; try assumption. apply js_sort_Permutation.
Qed.

Lemma cosineSimilarity_zero_magnitude_is_nan_witness :
  PrimFloat.is_nan (cosineSimilarity [0; 0]%float [1; 2]%float) = true
  /\ within_unit (cosineSimilarity [0; 0]%float [1; 2]%float) = false.
Proof.
  apply (proj1 (proj2 cosineSimilarity_zero_magnitude_is_nan) [0; 0]%float [1; 2]%float).
  left. repeat constructor.
Defined.

(** A magnitude can also be computed as zero for a vector that is not: the
    square of a small component underflows.  The division is then of a
    non-zero dot product by zero. *)
Lemma cosineSimilarity_underflow :
  PrimFloat.is_zero (magnitude [1e-200]%float) = true
  /\ cosineSimilarity [1e-200]%float [1]%float = infinity.
Proof. split; reflexivity. Qed.

(** * Further properties of the module *)

(** ** Deduplication, continued *)

Lemma filter_unseen_sublist (seen : gset string) (songs : list Song) :
  sublist (filter_unseen seen songs) songs.
Proof.
  revert seen. induction songs as [|song songs IH]; intros seen; simpl.
  - constructor.
  - destruct (decide (song_key song ∈ seen)).
    + apply sublist_cons, IH.
    + apply sublist_skip, IH.
Qed.

Lemma filter_unseen_keys (seen : gset string) (songs : list Song) :
  keys_of (filter_unseen seen songs) ∪ seen = keys_of songs ∪ seen.
Proof.
  revert seen. induction songs as [|song songs IH]; intros seen; simpl.
  - reflexivity.
  - destruct (decide (song_key song ∈ seen)) as [Hin|Hnotin].
    + rewrite IH. unfold keys_of; simpl. set_solver.
    + specialize (IH ({[song_key song]} ∪ seen)).
      unfold keys_of in IH |- *. simpl.
      apply set_eq. intros x. rewrite set_eq in IH. specialize (IH x).
      set_unfold. tauto.
Qed.

(** X1. What [removeDuplicateSongsFast] keeps: its output is a subsequence
    of its input, in the input's order; no two songs of the output have the
    same key; and every key of the input is the key of a song of the
    output.  The output is empty only for the empty input. *)
Theorem removeDuplicateSongsFast_keeps_one_per_key (songs : list Song) :
  sublist (removeDuplicateSongsFast songs) songs
  /\ NoDup (map song_key (removeDuplicateSongsFast songs))
  /\ (forall song, In song songs ->
        exists kept, In kept (removeDuplicateSongsFast songs)
                     /\ song_key kept = song_key song)
  /\ (removeDuplicateSongsFast songs = [] <-> songs = []).
Proof.
  unfold removeDuplicateSongsFast. split; [|split; [|split]].
  - apply filter_unseen_sublist.
  - apply filter_unseen_NoDup.
  - intros song Hin.
    assert (Hkey : song_key song ∈ keys_of (filter_unseen ∅ songs)).
    { pose proof (filter_unseen_keys ∅ songs) as Hkeys.
      rewrite !(right_id_L ∅ (∪)) in Hkeys. rewrite Hkeys.
      unfold keys_of. apply elem_of_list_to_set, list_elem_of_fmap.
      exists song. split; [reflexivity|now apply list_elem_of_In]. }
    unfold keys_of in Hkey.
    apply elem_of_list_to_set, list_elem_of_fmap in Hkey as (kept & Hk & Hkept).
    exists kept. split; [now apply list_elem_of_In|now symmetry].
  - split; [|now intros ->].
    destruct songs as [|song songs]; [reflexivity|]. simpl.
    destruct (decide (song_key song ∈ ∅)) as [Hin|_]; [set_solver|discriminate].
Qed.

(** X2. Deduplicating twice along the pipeline is harmless: the web
    fetcher deduplicates its own results and the fusion engine deduplicates
    the merged list again, and the outcome is the deduplication of the raw
    web results followed by the generated ones. *)
Theorem dedupe_of_deduped_prefix (webRaw aiResults : list Song) :
  removeDuplicateSongsFast (removeDuplicateSongsFast webRaw ++ aiResults) =
  removeDuplicateSongsFast (webRaw ++ aiResults).
Proof.
  unfold removeDuplicateSongsFast. rewrite !filter_unseen_app.
  rewrite (filter_unseen_fixed ∅ (filter_unseen ∅ webRaw))
    by (apply filter_unseen_NoDup || (apply Forall_forall; intros x _; set_solver)).
  f_equal.
  pose proof (filter_unseen_keys ∅ webRaw) as Hkeys.
  rewrite !(right_id_L ∅ (∪)) in Hkeys.
  now rewrite !(left_id_L ∅ (∪)), Hkeys.
Qed.

(** ** Scoring and sorting *)

(** X3. The range of the basic score: never below -6, never above 10 plus
    the number of search terms of the prompt; and a song whose title and
    artist both have at least two characters never scores below 0. *)
Theorem basic_score_bounds (prompt : string) (song : Song) :
  -6 <= basic_score prompt song <= 10 + Z.of_nat (length (searchTerms prompt))
  /\ (missing_or_short (title song) = false ->
      missing_or_short (artist song) = false ->
      0 <= basic_score prompt song).
Proof.
  pose proof (filter_length_le (fun term => Str.includes (songText song) term)
                               (searchTerms prompt)) as Hmatches.
  unfold basic_score, keywordMatches.
  split; [|intros -> ->];
    destruct (source_is song "mistral_ai_generation"), (source_is song "brave_search"),
      (year_plausible song), (impact_high song);
    try destruct (missing_or_short (title song));
    try destruct (missing_or_short (artist song)); lia.
Qed.

Lemma basic_score_bounds_witness :
  0 <= basic_score "70s road trip rock" hotel_california.
Proof.
  apply (proj2 (basic_score_bounds "70s road trip rock" hotel_california)); reflexivity.
Defined.

Section SortByKey.

Context {A : Type} (key : A -> Z) (cmp : A -> A -> Z) (P : A -> Prop).
Hypothesis cmp_key : forall a b, P a -> P b -> cmp a b = key b - key a.

Let descending (a b : A) : Prop := key b <= key a.

Lemma sort_insert_Forall (Q : A -> Prop) (x : A) (l : list A) :
  Q x -> Forall Q l -> Forall Q (sort_insert cmp x l).
Proof.
  intros Hx Hl. rewrite Forall_forall in *. intros y Hy.
  rewrite (sort_insert_Permutation cmp x l) in Hy.
  apply elem_of_cons in Hy as [->|Hy]; auto.
Qed.

Lemma sort_insert_sorted (x : A) (l : list A) :
  P x -> Forall P l -> StronglySorted descending l ->
  StronglySorted descending (sort_insert cmp x l).
Proof.
  intros Hx HP Hsorted. induction Hsorted as [|y l Hsorted IH Hy]; simpl.
  - repeat constructor.
  - apply Forall_cons in HP as [HPy HPl].
    rewrite (cmp_key x y Hx HPy).
    destruct (key y - key x <=? 0) eqn:Hcmp.
    + apply Z.leb_le in Hcmp. constructor; [now constructor|].
      constructor; [unfold descending; lia|].
      eapply Forall_impl; [exact Hy|]. unfold descending. simpl. intros z Hz. lia.
    + apply Z.leb_gt in Hcmp. constructor; [now apply IH|].
      apply sort_insert_Forall; [unfold descending; lia|assumption].
Qed.

Lemma js_sort_Forall (Q : A -> Prop) (l : list A) :
  Forall Q l -> Forall Q (js_sort cmp l).
Proof.
  intros Hl. rewrite Forall_forall in *. intros y Hy.
  rewrite (js_sort_Permutation cmp l) in Hy. auto.
Qed.

Lemma js_sort_sorted (l : list A) :
  Forall P l -> StronglySorted descending (js_sort cmp l).
Proof.
  induction l as [|x l IH]; intros HP; simpl; [constructor|].
  apply Forall_cons in HP as [Hx Hl].
  apply sort_insert_sorted; [assumption|now apply js_sort_Forall|now apply IH].
Qed.

Lemma sort_insert_stable (v : Z) (x : A) (l : list A) :
  P x -> Forall P l ->
  List.filter (fun a => key a =? v) (sort_insert cmp x l) =
  List.filter (fun a => key a =? v) (x :: l).
Proof.
  intros Hx HP. induction l as [|y l IH]; [reflexivity|].
  apply Forall_cons in HP as [HPy HPl]. cbn [sort_insert].
  rewrite (cmp_key x y Hx HPy).
  destruct (key y - key x <=? 0) eqn:Hcmp; [reflexivity|].
  apply Z.leb_gt in Hcmp. cbn [List.filter]. rewrite (IH HPl). cbn [List.filter].
  destruct (key y =? v) eqn:Hy, (key x =? v) eqn:Hxv; try reflexivity.
  apply Z.eqb_eq in Hy, Hxv. lia.
Qed.

Lemma js_sort_stable (v : Z) (l : list A) :
  Forall P l ->
  List.filter (fun a => key a =? v) (js_sort cmp l) = List.filter (fun a => key a =? v) l.
Proof.
  induction l as [|x l IH]; intros HP; [reflexivity|].
  apply Forall_cons in HP as [Hx Hl]. cbn [js_sort fold_right].
  fold (js_sort cmp l).
  rewrite sort_insert_stable by (assumption || now apply js_sort_Forall).
  cbn [List.filter]. now rewrite (IH Hl).
Qed.

End SortByKey.

Lemma by_basicScore_desc_key (a b : Song) :
  is_scored a -> is_scored b ->
  by_basicScore_desc a b = score_of b - score_of a.
Proof.
  unfold is_scored, by_basicScore_desc, score_of.
  destruct (basicScore a), (basicScore b); simpl; intros Ha Hb;
    try reflexivity; contradiction.
Qed.

Lemma scored_songs_are_scored (prompt : string) (songs : list Song) :
  Forall is_scored (map (score_song prompt) songs).
Proof. apply Forall_forall. intros c Hc. apply list_elem_of_fmap in Hc as (s & -> & _). exact I. Qed.

(** X4. The pre-filter sort is a stable sort by descending basic score:
    the scored songs come out rearranged, in non-increasing order of score,
    and songs of equal score keep the order they had. *)
Theorem prefilter_sort_is_stable (prompt : string) (songs : list Song) :
  let sorted := js_sort by_basicScore_desc (map (score_song prompt) songs) in
  Permutation sorted (map (score_song prompt) songs)
  /\ StronglySorted (fun a b => score_of b <= score_of a) sorted
  /\ forall v : Z,
       List.filter (fun c => score_of c =? v) sorted =
       List.filter (fun c => score_of c =? v) (map (score_song prompt) songs).
Proof.
  intros sorted. split; [apply js_sort_Permutation|]. split.
  - apply (js_sort_sorted score_of by_basicScore_desc is_scored by_basicScore_desc_key).
    apply scored_songs_are_scored.
  - intros v.
    apply (js_sort_stable score_of by_basicScore_desc is_scored by_basicScore_desc_key).
    apply scored_songs_are_scored.
Qed.

(** ** The semantic re-rank, continued *)

Lemma slice_to_take {A} (n : Z) (l : list A) : exists m, slice_to n l = take m l.
Proof. unfold slice_to. destruct (n <? 0); eexists; reflexivity. Qed.

Lemma slice_to_sublist {A} (n : Z) (l : list A) : sublist (slice_to n l) l.
Proof. destruct (slice_to_take n l) as [m ->]. apply sublist_take. Qed.

Lemma slice_to_length {A} (n : Z) (l : list A) :
  0 <= n -> Z.of_nat (length (slice_to n l)) <= n.
Proof.
  intros Hn. unfold slice_to.
  replace (n <? 0) with false by (symmetry; apply Z.ltb_ge; lia).
  rewrite length_take. lia.
Qed.

Lemma attach_similarity_zip (emb : list float) (songs : list Song) :
  forall data : list (list float),
    (length songs <= length data)%nat ->
    attach_similarity emb songs data =
    Normal (zip_with (fun song e => with_similarity (cosineSimilarity emb e) song) songs data).
Proof.
  induction songs as [|song songs IH]; intros data Hlen; [reflexivity|].
  destruct data as [|e data]; [simpl in Hlen; lia|].
  cbn [attach_similarity zip_with]. rewrite IH by (simpl in Hlen; lia). reflexivity.
Qed.

Lemma attach_similarity_short (emb : list float) (songs : list Song) :
  forall data : list (list float),
    (length data < length songs)%nat ->
    exists err, attach_similarity emb songs data = Throw err.
Proof.
  induction songs as [|song songs IH]; intros data Hlen; [simpl in Hlen; lia|].
  destruct data as [|e data]; [eexists; reflexivity|].
  destruct (IH data) as [err Herr]; [simpl in Hlen; lia|].
  exists err. cbn [attach_similarity]. now rewrite Herr.
Qed.

Lemma zip_with_similarity_from (emb : list float) (songs : list Song) :
  forall data : list (list float),
    (length songs <= length data)%nat ->
    Forall2 ranked_from
            (zip_with (fun song e => with_similarity (cosineSimilarity emb e) song) songs data)
            songs.
Proof.
  induction songs as [|song songs IH]; intros data Hlen; [constructor|].
  destruct data as [|e data]; [simpl in Hlen; lia|].
  cbn [zip_with]. constructor; [right; eexists; reflexivity|].
  apply IH. simpl in Hlen. lia.
Qed.

Lemma Forall2_refl_ranked (songs : list Song) : Forall2 ranked_from songs songs.
Proof. induction songs; constructor; [now left|assumption]. Qed.

(** Whatever the embedding service answers, the re-rank returns the songs
    it was given, rearranged at most and with a similarity attached at most. *)
Lemma rank_from (sv : Services) (songs : list Song) (emb : list float) :
  exists arranged,
    Permutation (rankSongsBySementicSimilarityFast sv songs emb) arranged
    /\ Forall2 ranked_from arranged songs.
Proof.
  unfold rankSongsBySementicSimilarityFast.
  destruct (embeddings_reply sv (map embedding_text songs)) as [data|err].
  - destruct (le_lt_dec (length songs) (length data)) as [Hle|Hlt].
    + rewrite (attach_similarity_zip emb songs data Hle).
      eexists. split; [apply js_sort_Permutation|now apply zip_with_similarity_from].
    + destruct (attach_similarity_short emb songs data Hlt) as [err ->].
      exists songs. split; [reflexivity|apply Forall2_refl_ranked].
  - exists songs. split; [reflexivity|apply Forall2_refl_ranked].
Qed.



(** ** The fusion engine, continued *)

Lemma ranked_from_key (c song : Song) : ranked_from c song -> song_key c = song_key song.
Proof. intros [->|[sim ->]]; reflexivity. Qed.

Lemma ranked_from_keys (l1 l2 : list Song) :
  Forall2 ranked_from l1 l2 -> map song_key l1 = map song_key l2.
Proof.
  induction 1 as [|c s l1 l2 Hcs _ IH]; [reflexivity|].
  simpl. now rewrite (ranked_from_key c s Hcs), IH.
Qed.

Lemma scored_keys (prompt : string) (songs : list Song) :
  map song_key (map (score_song prompt) songs) = map song_key songs.
Proof. rewrite map_map. now apply map_ext. Qed.

(** The ranked list of [combineAndVerifyAlignmentFast] is its list of top
    candidates, rearranged and with similarities attached at most. *)
Lemma ranked_songs_from_top (sv : Services) (top : list Song) (emb : option (list float)) :
  exists arranged,
    Permutation
      match emb with
      | Some embedding =>
          if negb skipSemanticSimilarity && (0 <? length top)%nat
          then rankSongsBySementicSimilarityFast sv top embedding
          else top
      | None => top
      end arranged
    /\ Forall2 ranked_from arranged top.
Proof.
  destruct emb as [embedding|];
    [destruct (negb skipSemanticSimilarity && (0 <? length top)%nat)|];
    try (exists top; split; [reflexivity|apply Forall2_refl_ranked]).
  apply rank_from.
Qed.

(** X6. What the fusion engine sends to verification: at most 10
    candidates, no two with the same key, each a song of the merged and
    deduplicated list with its basic score attached (and a similarity, when
    the re-rank ran).  The verification service is consulted on exactly that
    list: when it answers an array there, the engine returns the array
    filtered and cut. *)
Theorem verification_candidates_invariants (sv : Services) (webResults aiResults : list Song)
    (prompt : string) (emb : option (list float)) :
  let candidates := verification_candidates sv webResults aiResults prompt emb in
  (length candidates <= 10)%nat
  /\ NoDup (map song_key candidates)
  /\ (forall c, In c candidates ->
        exists song, In song (removeDuplicateSongsFast (webResults ++ aiResults))
                     /\ ranked_from c (score_song prompt song))
  /\ (forall (c : Constraints) (verified : list Song),
        removeDuplicateSongsFast (webResults ++ aiResults) <> [] ->
        verification_reply sv prompt candidates = Normal (JsonArray verified) ->
        combineAndVerifyAlignmentFast sv webResults aiResults prompt emb c =
        Normal (slice_to (or_default (targetCount c) 12)
                         (List.filter (verified_keep c) verified))).
Proof.
  intros candidates. subst candidates. unfold verification_candidates.
  set (allSongs := removeDuplicateSongsFast (webResults ++ aiResults)).
  set (sorted := js_sort by_basicScore_desc (map (score_song prompt) allSongs)).
  set (top := slice_to maxCandidatesForEmbedding sorted).
  destruct (ranked_songs_from_top sv top emb) as (arranged & Hperm & Hfrom).
  set (ranked := match emb with Some _ => _ | None => _ end) in *.
  assert (Hsorted : Permutation sorted (map (score_song prompt) allSongs))
    by apply js_sort_Permutation.
  split; [|split; [|split]].
  - pose proof (slice_to_length 10 ranked). lia.
  - eapply sublist_NoDup; [|apply fmap_sublist, slice_to_sublist].
    change (NoDup (map song_key ranked)).
    rewrite Hperm, (ranked_from_keys arranged top Hfrom).
    eapply sublist_NoDup; [|apply fmap_sublist, slice_to_sublist].
    change (NoDup (map song_key sorted)).
    rewrite Hsorted, scored_keys. apply filter_unseen_NoDup.
  - intros c Hc. apply list_elem_of_In in Hc.
    eapply elem_of_sublist in Hc; [|apply slice_to_sublist].
    rewrite Hperm in Hc.
    apply list_elem_of_lookup in Hc as [i Hi].
    eapply Forall2_lookup_l in Hi as (s & Hs & Hcs); [|exact Hfrom].
    assert (Hin : s ∈ top) by (apply list_elem_of_lookup; eauto).
    eapply elem_of_sublist in Hin; [|apply slice_to_sublist].
    rewrite Hsorted in Hin. apply list_elem_of_fmap in Hin as (song & -> & Hsong).
    exists song. split; [now apply list_elem_of_In|assumption].
  - intros c verified Hne Hreply. unfold combineAndVerifyAlignmentFast.
    fold allSongs. fold sorted. fold top. fold ranked.
    destruct allSongs as [|song songs]; [contradiction|].
    cbn [length Nat.eqb]. now rewrite Hreply.
Qed.

Lemma alignment_not_low (song : Song) :
  alignment_low song = false ->
  exists a, alignment_score song = Some a /\ Qle 6 a.
Proof.
  unfold alignment_low. destruct (alignment_score song) as [a|]; [|discriminate].
  intros Hlow. apply orb_false_iff in Hlow as [_ Hle].
  apply negb_false_iff, Qle_bool_iff in Hle. now exists a.
Qed.

(** Whenever the fusion engine returns, its list is a cut of songs that the
    client-side filter kept. *)
Lemma fusion_output_kept (sv : Services) (webResults aiResults : list Song)
    (prompt : string) (emb : option (list float)) (c : Constraints) (aligned : list Song) :
  combineAndVerifyAlignmentFast sv webResults aiResults prompt emb c = Normal aligned ->
  exists filtered,
    aligned = slice_to (or_default (targetCount c) 12) filtered
    /\ forall song, In song filtered ->
         alignment_low song = false /\ artist_check c song = true.
Proof.
  unfold combineAndVerifyAlignmentFast.
  destruct (length (removeDuplicateSongsFast (webResults ++ aiResults)) =? 0)%nat.
  { intros [= <-]. exists []. split; [|intros song []].
    unfold slice_to. destruct (_ <? 0); now rewrite take_nil. }
  match goal with
  | |- context [verification_reply sv prompt ?cands] =>
      destruct (verification_reply sv prompt cands) as [verified|err]
  end; [|discriminate].
  intros [= <-]. eexists. split; [reflexivity|].
  destruct verified as [songs|]; [|intros song []].
  intros song Hin. apply filter_In in Hin as [_ Hkeep]. unfold verified_keep in Hkeep.
  destruct (alignment_low song); [discriminate|now split].
Qed.

Lemma fusion_output_scored (sv : Services) (webResults aiResults : list Song)
    (prompt : string) (emb : option (list float)) (c : Constraints) (aligned : list Song) :
  combineAndVerifyAlignmentFast sv webResults aiResults prompt emb c = Normal aligned ->
  forall song, In song aligned ->
    (exists a, alignment_score song = Some a /\ Qle 6 a) /\ artist_check c song = true.
Proof.
  intros Hrun song Hin.
  destruct (fusion_output_kept _ _ _ _ _ _ _ Hrun) as (filtered & -> & Hkept).
  apply list_elem_of_In in Hin.
  eapply elem_of_sublist in Hin; [|apply slice_to_sublist].
  apply list_elem_of_In, Hkept in Hin as [Hlow Hartist].
  split; [now apply alignment_not_low|assumption].
Qed.

(** X7. What the fusion engine returns, whenever it returns: every song
    has an alignment score of at least 6 and passes the artist check, and
    the list is no longer than a positive [targetCount], or than 12 when
    [targetCount] is absent or 0. *)
Theorem aligned_songs_invariants (sv : Services) (webResults aiResults : list Song)
    (prompt : string) (emb : option (list float)) (c : Constraints) (aligned : list Song) :
  combineAndVerifyAlignmentFast sv webResults aiResults prompt emb c = Normal aligned ->
  (forall song, In song aligned ->
     (exists a, alignment_score song = Some a /\ Qle 6 a) /\ artist_check c song = true)
  /\ (forall t, targetCount c = Some t -> 0 < t -> Z.of_nat (length aligned) <= t)
  /\ (targetCount c = None \/ targetCount c = Some 0 -> Z.of_nat (length aligned) <= 12).
Proof.
  intros Hrun. split; [now apply (fusion_output_scored sv webResults aiResults prompt emb)|].
  destruct (fusion_output_kept _ _ _ _ _ _ _ Hrun) as (filtered & -> & _).
  split.
  - intros t Ht Hpos. rewrite Ht. unfold or_default.
    replace (t =? 0) with false by (symmetry; apply Z.eqb_neq; lia).
    apply slice_to_length. lia.
  - intros [Ht|Ht]; rewrite Ht; cbn [or_default Z.eqb]; now apply slice_to_length.
Qed.

Lemma aligned_songs_invariants_witness :
  forall_songs_aligned
    (map (with_alignment (8 # 1))
         (js_sort by_similarity_desc
            (map (with_similarity 1%float)
                 (map (score_song "70s road trip rock")
                      [hotel_california; go_your_own_way])))).
Proof.
  unfold forall_songs_aligned.
  apply (proj1 (aligned_songs_invariants two_song_services
                  [hotel_california; go_your_own_way] [] "70s road trip rock"
                  (Some [1; 0]%float) road_trip_constraints _ eq_refl)).
Defined.

(** ** String similarity *)

Lemma all_ascii_complete (c : ascii) : c ∈ all_ascii.
Proof.
  unfold all_ascii. apply list_elem_of_fmap. exists (nat_of_ascii c).
  split; [now rewrite ascii_nat_embedding|].
  apply list_elem_of_In, in_seq. pose proof (nat_ascii_bounded c). lia.
Qed.

Lemma all_ascii_NoDup : NoDup all_ascii.
Proof. apply (bool_decide_unpack _). vm_compute. reflexivity. Qed.

(** A set of characters has at most 256 elements. *)
Lemma char_set_size (X : gset ascii) : (size X <= 256)%nat.
Proof.
  transitivity (size (list_to_set all_ascii : gset ascii)).
  - apply subseteq_size. intros c _. apply elem_of_list_to_set, all_ascii_complete.
  - now rewrite (size_list_to_set _ all_ascii_NoDup).
Qed.

Lemma char_set_nonempty (s : string) :
  (Str.len s =? 0) = false -> (0 < size (char_set s))%nat.
Proof.
  destruct s as [|c s]; [discriminate|]. intros _.
  destruct (size (char_set (String c s))) eqn:Hsize; [|lia].
  apply size_empty_inv in Hsize. unfold char_set in Hsize. simpl in Hsize. set_solver.
Qed.

Lemma common_chars (X Y : gset ascii) : filter (fun x => x ∈ Y) X = X ∩ Y.
Proof. apply set_eq. intros x. rewrite elem_of_filter, elem_of_intersection. tauto. Qed.

Lemma ratios_checked : forallb ratio_row (seq 1 256) = true.
Proof. vm_compute. reflexivity. Qed.

Lemma ratio_in_unit_interval (i m : nat) :
  (i <= m)%nat -> (1 <= m)%nat -> (m <= 256)%nat ->
  within_0_1 (to_float i / to_float m)%float = true
  /\ (i = m -> (to_float i / to_float m)%float = 1%float)
  /\ (i = 0%nat -> (to_float i / to_float m)%float = 0%float).
Proof.
  intros Him Hm Hmax. pose proof ratios_checked as Hall.
  rewrite forallb_forall in Hall.
  assert (Hinm : In m (seq 1 256)) by (apply in_seq; lia).
  specialize (Hall m Hinm). unfold ratio_row in Hall.
  apply andb_true_iff in Hall as [Hall Hzero].
  apply andb_true_iff in Hall as [Hall Hone].
  rewrite forallb_forall in Hall.
  assert (Hini : In i (seq 0 (S m))) by (apply in_seq; lia).
  split; [exact (Hall i Hini)|]. split.
  - intros ->. now apply FloatAxioms.Leibniz.eqb_spec.
  - intros ->. now apply FloatAxioms.Leibniz.eqb_spec.
Qed.

(** X8. The string similarity of the catalog match is symmetric, always a
    number between 0 and 1, exactly 1 for two non-empty strings with the
    same set of characters up to case (anagrams, for instance), and exactly
    0 for two different strings without a common character. *)
Theorem calculateStringSimilarityFast_range (str1 str2 : string) :
  calculateStringSimilarityFast str1 str2 = calculateStringSimilarityFast str2 str1
  /\ within_0_1 (calculateStringSimilarityFast str1 str2) = true
  /\ (str1 <> EmptyString -> str2 <> EmptyString -> char_set str1 = char_set str2 ->
      calculateStringSimilarityFast str1 str2 = 1%float)
  /\ (str1 <> str2 -> char_set str1 ∩ char_set str2 = ∅ ->
      calculateStringSimilarityFast str1 str2 = 0%float).
Proof.
  unfold calculateStringSimilarityFast. rewrite !common_chars.
  rewrite (String.eqb_sym str2 str1), (orb_comm (Str.len str2 =? 0)),
    (comm_L (∩) (char_set str2)), (Nat.max_comm (size (char_set str2))).
  split; [reflexivity|].
  destruct (String.eqb_spec str1 str2) as [Heq|Hneq].
  { repeat split; try reflexivity. intros Hne. contradiction. }
  destruct (Str.len str1 =? 0) eqn:Hlen1.
  { repeat split; try reflexivity. intros Hne. destruct str1; [contradiction|discriminate]. }
  destruct (Str.len str2 =? 0) eqn:Hlen2.
  { repeat split; try reflexivity. intros _ Hne. destruct str2; [contradiction|discriminate]. }
  cbn [orb].
  pose proof (char_set_nonempty str1 Hlen1) as Hpos1.
  pose proof (char_set_size (char_set str1)) as Hmax1.
  pose proof (char_set_size (char_set str2)) as Hmax2.
  assert (Hcommon : (size (char_set str1 ∩ char_set str2) <= size (char_set str1))%nat)
    by (apply subseteq_size; set_solver).
  destruct (ratio_in_unit_interval
              (size (char_set str1 ∩ char_set str2))
              (Nat.max (size (char_set str1)) (size (char_set str2))))
    as (Hrange & Hone & Hzero); try lia.
  split; [exact Hrange|]. split.
  - intros _ _ Hsame. apply Hone. rewrite Hsame, (idemp_L (∩)). lia.
  - intros _ Hdisjoint. apply Hzero. rewrite Hdisjoint. apply size_empty.
Qed.

Lemma calculateStringSimilarityFast_range_witness :
  calculateStringSimilarityFast "listen" "Silent" = 1%float.
Proof.
  apply (proj1 (proj2 (proj2 (calculateStringSimilarityFast_range "listen" "Silent")))).
  - discriminate.
  - discriminate.
  - apply (bool_decide_unpack _). vm_compute. reflexivity.
Defined.

(** ** The catalog resolver, continued *)

Lemma first_decent_match_member (tracks : list Track) (song : Song) (t : Track) :
  first_decent_match tracks song = Normal (Some t) -> In t tracks.
Proof.
  induction tracks as [|t0 more IH]; [discriminate|]. cbn [first_decent_match].
  destruct (title song) as [target_title|]; [|discriminate].
  destruct (artist_similarities t0 song) as [sims|err]; [|discriminate].
  destruct (_ <? _)%float.
  - intros [= ->]. now left.
  - intros Hmore. right. now apply IH.
Qed.

Lemma findBestTrackMatchFast_member (tracks : list Track) (song : Song) (t : Track) :
  findBestTrackMatchFast tracks song = Normal (Some t) -> In t tracks.
Proof.
  unfold findBestTrackMatchFast. destruct tracks as [|first more]; [discriminate|].
  destruct (first_decent_match (first :: more) song) as [[t0|]|err] eqn:Hloop;
    [| |discriminate].
  - intros [= <-]. now apply (first_decent_match_member _ song).
  - intros [= <-]. now left.
Qed.

Lemma try_strategies_provenance (sv : Services) (token : string) (song : Song)
    (queries : list string) (r : ResolvedTrack) :
  try_strategies sv token song queries = Normal (Some r) ->
  classicMetadata r = song
  /\ In (search_strategy r) queries
  /\ exists tracks,
       spotify_reply sv (search_strategy r) token = Normal tracks /\ In (track r) tracks.
Proof.
  induction queries as [|query more IH]; [discriminate|]. cbn [try_strategies].
  destruct (spotify_reply sv query token) as [tracks|err] eqn:Hreply; [|discriminate].
  destruct (findBestTrackMatchFast tracks song) as [[best|]|err] eqn:Hbest; [| |discriminate].
  - intros [= <-]. cbn. split; [reflexivity|]. split; [now left|].
    exists tracks. split; [assumption|]. now apply (findBestTrackMatchFast_member _ song).
  - intros Hmore. destruct (IH Hmore) as (Hsong & Hin & Htracks).
    split; [assumption|]. split; [now right|assumption].
Qed.

Lemma concat_batches_of {A} (n : nat) (l : list A) :
  forall fuel : nat, (length l <= fuel)%nat -> concat (batches_of fuel (S n) l) = l.
Proof.
  intros fuel. revert l. induction fuel as [|fuel IH]; intros l Hfuel.
  - destruct l; [reflexivity|simpl in Hfuel; lia].
  - destruct l as [|x l]; [reflexivity|]. cbn [batches_of concat].
    rewrite IH; [apply take_drop|]. rewrite length_drop. simpl in *. lia.
Qed.

Lemma omap_concat {A B} (f : A -> option B) (ls : list (list A)) :
  concat (map (omap f) ls) = omap f (concat ls).
Proof.
  induction ls as [|l ls IH]; [reflexivity|]. simpl. now rewrite IH, omap_app.
Qed.

Lemma omap_length_le {A B} (f : A -> option B) (l : list A) :
  (length (omap f l) <= length l)%nat.
Proof.
  induction l as [|x l IH]; [reflexivity|]. cbn. destruct (f x); simpl; lia.
Qed.

Lemma searchTracksOnSpotifyFast_omap (sv : Services) (songs : list Song) (token : string) :
  searchTracksOnSpotifyFast sv songs token = omap (resolve_song sv token) songs.
Proof.
  unfold searchTracksOnSpotifyFast, maxConcurrentRequests.
  now rewrite omap_concat, concat_batches_of.
Qed.

Lemma resolved_from_song (sv : Services) (songs : list Song) (token : string)
    (r : ResolvedTrack) :
  In r (searchTracksOnSpotifyFast sv songs token) ->
  In (classicMetadata r) songs
  /\ try_strategies sv token (classicMetadata r) (searchStrategies (classicMetadata r)) =
     Normal (Some r).
Proof.
  rewrite searchTracksOnSpotifyFast_omap. intros Hr.
  apply list_elem_of_In, list_elem_of_omap in Hr as (song & Hsong & Hres).
  unfold resolve_song in Hres.
  destruct (try_strategies sv token song (searchStrategies song)) as [found|err] eqn:Htry;
    [|discriminate].
  subst found. destruct (try_strategies_provenance _ _ _ _ _ Htry) as (Hmeta & _).
  rewrite Hmeta. split; [now apply list_elem_of_In|assumption].
Qed.

(** X9. The batching of the catalog resolver is invisible in its result:
    the resolved tracks are those of the songs that resolve, in the order
    of the songs.  There are never more tracks than songs, and every track
    returned carries the song it was found for, one of that song's two
    queries as its search strategy, and is one of the candidates the
    catalog returned for that query. *)
Theorem searchTracksOnSpotifyFast_in_order (sv : Services) (songs : list Song)
    (token : string) :
  searchTracksOnSpotifyFast sv songs token = omap (resolve_song sv token) songs
  /\ (length (searchTracksOnSpotifyFast sv songs token) <= length songs)%nat
  /\ forall r, In r (searchTracksOnSpotifyFast sv songs token) ->
       In (classicMetadata r) songs
       /\ In (search_strategy r) (searchStrategies (classicMetadata r))
       /\ exists tracks,
            spotify_reply sv (search_strategy r) token = Normal tracks
            /\ In (track r) tracks.
Proof.
  split; [apply searchTracksOnSpotifyFast_omap|]. split.
  - rewrite searchTracksOnSpotifyFast_omap. apply omap_length_le.
  - intros r Hr. destruct (resolved_from_song sv songs token r Hr) as [Hsong Htry].
    split; [assumption|].
    now destruct (try_strategies_provenance _ _ _ _ _ Htry) as (_ & Hq & Htracks).
Qed.

Lemma try_strategies_untitled (sv : Services) (token : string) (song : Song)
    (queries : list string) (r : ResolvedTrack) :
  title song = None ->
  try_strategies sv token song queries <> Normal (Some r).
Proof.
  intros Htitle. induction queries as [|query more IH]; [discriminate|].
  cbn [try_strategies].
  destruct (spotify_reply sv query token) as [[|t tracks]|err]; [|cbn|discriminate].
  - cbn [findBestTrackMatchFast]. apply IH.
  - rewrite Htitle. discriminate.
Qed.

(** X10. When the resolver gives a song up: a song without a title never
    resolves, whatever the catalog answers; and a failure of the strict
    query loses the song, the loose query not being tried after it (the
    [catch] is around the whole loop), as does a failure of the loose query
    after an empty answer to the strict one. *)
Theorem resolve_song_gives_up (sv : Services) (token : string) (song : Song) :
  (title song = None -> resolve_song sv token song = None)
  /\ (forall err, spotify_reply sv (strict_query song) token = Throw err ->
                  resolve_song sv token song = None)
  /\ (forall err, spotify_reply sv (strict_query song) token = Normal [] ->
                  spotify_reply sv (loose_query song) token = Throw err ->
                  resolve_song sv token song = None).
Proof.
  split; [|split].
  - intros Htitle. unfold resolve_song.
    destruct (try_strategies sv token song (searchStrategies song)) as [[r|]|err] eqn:Htry;
      try reflexivity.
    now destruct (try_strategies_untitled sv token song (searchStrategies song) r Htitle).
  - intros err Hstrict. unfold resolve_song, strict_query in *.
    cbn [searchStrategies List.nth try_strategies] in *. now rewrite Hstrict.
  - intros err Hstrict Hloose. unfold resolve_song, strict_query, loose_query in *.
    cbn [searchStrategies List.nth try_strategies] in *.
    rewrite Hstrict. cbn [findBestTrackMatchFast]. now rewrite Hloose.
Qed.

Lemma resolve_song_gives_up_witness :
  resolve_song strict_poor_loose_exact "token"
    (mkSong None (Some "Adele") None None None None None None None None None) = None.
Proof.
  apply (proj1 (resolve_song_gives_up strict_poor_loose_exact "token"
                  (mkSong None (Some "Adele") None None None None None None None None None))).
  reflexivity.
Defined.

(** ** Cosine similarity, continued *)

Section Mismatch.

Local Open Scope float_scope.

Lemma nan_absorbs_add (a b : float) : Prim2SF a = S754_nan -> Prim2SF (a + b) = S754_nan.
Proof. intros Ha. rewrite FloatAxioms.add_spec, Ha. reflexivity. Qed.

Lemma add_nan (a b : float) : Prim2SF b = S754_nan -> Prim2SF (a + b) = S754_nan.
Proof.
  intros Hb. rewrite FloatAxioms.add_spec, Hb. unfold SF64add, SFadd.
  destruct (Prim2SF a) as [[]|[]| |[] ? ?]; reflexivity.
Qed.

Lemma mul_nan (a b : float) : Prim2SF b = S754_nan -> Prim2SF (a * b) = S754_nan.
Proof.
  intros Hb. rewrite FloatAxioms.mul_spec, Hb. unfold SF64mul, SFmul.
  destruct (Prim2SF a) as [[]|[]| |[] ? ?]; reflexivity.
Qed.

Lemma nan_div (a b : float) : Prim2SF a = S754_nan -> Prim2SF (a / b) = S754_nan.
Proof. intros Ha. rewrite FloatAxioms.div_spec, Ha. reflexivity. Qed.

Lemma dot_product_nan_stays (vecB : list float) (l : list float) :
  forall (i : nat) (acc : float),
    Prim2SF acc = S754_nan ->
    Prim2SF (reduce_indexed (fun sum a i => sum + a * index_num vecB i) i l acc) = S754_nan.
Proof.
  induction l as [|a l IH]; intros i acc Hacc; [exact Hacc|].
  cbn [reduce_indexed]. apply IH. now apply nan_absorbs_add.
Qed.

Lemma dot_product_past_end (vecB : list float) (l : list float) :
  forall (i : nat) (acc : float),
    (i <= length vecB < i + length l)%nat ->
    Prim2SF (reduce_indexed (fun sum a i => sum + a * index_num vecB i) i l acc) = S754_nan.
Proof.
  induction l as [|a l IH]; intros i acc Hlen; [simpl in Hlen; lia|].
  cbn [reduce_indexed]. destruct (le_lt_dec (length vecB) i) as [Hpast|Hin].
  - apply dot_product_nan_stays, add_nan, mul_nan.
    unfold index_num. now rewrite nth_overflow.
  - apply IH. simpl in Hlen. lia.
Qed.

(** X11. Vectors of different dimensions: when the second vector is
    shorter than the first, the missing components are read as [undefined]
    and the similarity is NaN. *)
Theorem cosineSimilarity_shorter_vector (vecA vecB : list float) :
  (length vecB < length vecA)%nat ->
  PrimFloat.is_nan (cosineSimilarity vecA vecB) = true.
Proof.
  intros Hlen. apply nan_is_nan. rewrite cosineSimilarity_magnitudes.
  apply nan_div, dot_product_past_end. lia.
Qed.

Lemma cosineSimilarity_shorter_vector_witness :
  PrimFloat.is_nan (cosineSimilarity [1; 2; 3] [1; 2]) = true.
Proof. apply cosineSimilarity_shorter_vector. simpl. lia. Defined.

End Mismatch.

(** ** The generative fetcher *)

Lemma with_source_score (prompt : string) (song : Song) :
  -1 <= basic_score prompt (with_source "mistral_ai_generation" song).
Proof.
  unfold basic_score, keywordMatches.
  change (source_is (with_source "mistral_ai_generation" song) "mistral_ai_generation")
    with true.
  cbv iota.
  destruct (year_plausible _), (impact_high _), (missing_or_short (title _)),
    (missing_or_short (artist _)); lia.
Qed.

(** X12. The generative fetcher never fails and never returns more than it
    was asked for: on a failed call or a reply that is no array it returns
    the empty list; otherwise its songs are the first [targetCount] of the
    reply (the first 15 when [targetCount] is absent or 0), each marked
    as generated whatever source the reply gave it, so that none scores
    below -1 in the fusion engine. *)
Theorem generateAIRecommendationsFast_bounds (sv : Services) (refined : string)
    (c : Constraints) :
  (forall t, targetCount c = Some t -> 0 < t ->
             Z.of_nat (length (generateAIRecommendationsFast sv refined c)) <= t)
  /\ (targetCount c = None \/ targetCount c = Some 0 ->
      Z.of_nat (length (generateAIRecommendationsFast sv refined c)) <= 15)
  /\ (forall song, In song (generateAIRecommendationsFast sv refined c) ->
        source song = Some "mistral_ai_generation"
        /\ forall prompt, -1 <= basic_score prompt song)
  /\ (generation_reply sv refined c = Normal JsonOther
      \/ (exists err, generation_reply sv refined c = Throw err) ->
      generateAIRecommendationsFast sv refined c = []).
Proof.
  unfold generateAIRecommendationsFast.
  destruct (generation_reply sv refined c) as [[parsed|]|err].
  - split; [|split; [|split]].
    + intros t Ht Hpos. rewrite length_map, Ht. unfold or_default.
      replace (t =? 0) with false by (symmetry; apply Z.eqb_neq; lia).
      apply slice_to_length. lia.
    + rewrite length_map.
      intros [Ht|Ht]; rewrite Ht; cbn [or_default Z.eqb]; now apply slice_to_length.
    + intros song Hin. apply in_map_iff in Hin as (raw & <- & _).
      split; [reflexivity|]. intros prompt. apply with_source_score.
    + intros [Hother|[err Herr]]; discriminate.
  - split; [|split; [|split]]; try (intros; simpl; lia); [intros song []|reflexivity].
  - split; [|split; [|split]]; try (intros; simpl; lia); [intros song []|reflexivity].
Qed.

(** ** The number pattern, continued *)

Section NumberCapture.

Import Regex.

(** What the greedy [\d+] hands to its continuation is a position reached
    over a non-empty run of digits. *)
Lemma iterate_digit_consumed (k : cont) (fuel : nat) :
  forall (p0 : pos) cap (res : option (list ascii)),
    iterate (run false digit) k fuel p0 cap = Some res ->
    exists (ds : list ascii) (p' : pos),
      ds <> [] /\ Forall (fun c => Str.is_digit c = true) ds
      /\ rest p0 = ds ++ rest p' /\ k p' cap = Some res.
Proof.
  induction fuel as [|fuel IH]; intros p0 cap res.
  - rewrite iterate_O, run_digit. destruct (rest p0) as [|c r] eqn:Hrest; [discriminate|].
    destruct (Str.is_digit c) eqn:Hc; [|discriminate]. intros Hk.
    exists [c], (mkPos (Some c) r). repeat split; [discriminate|repeat constructor; exact Hc|exact Hk].
  - rewrite iterate_S, run_digit. destruct (rest p0) as [|c r] eqn:Hrest; [discriminate|].
    destruct (Str.is_digit c) eqn:Hc; [|discriminate]. cbn [rest].
    destruct (length r <? length (c :: r))%nat.
    + destruct (iterate (run false digit) k fuel (mkPos (Some c) r) cap) as [res'|] eqn:Hmore.
      * intros [= <-]. destruct (IH _ _ _ Hmore) as (ds & p' & Hne & Hds & Hr & Hk).
        exists (c :: ds), p'. cbn [rest] in Hr. repeat split; try assumption.
        -- discriminate.
        -- now constructor.
        -- now rewrite Hr.
      * intros Hk. exists [c], (mkPos (Some c) r).
        repeat split; [discriminate|repeat constructor; exact Hc|exact Hk].
    + intros Hk. exists [c], (mkPos (Some c) r).
      repeat split; [discriminate|repeat constructor; exact Hc|exact Hk].
Qed.

Lemma match_at_number_digits (p : pos) (cap : list ascii) :
  match_at false numberPattern p = Some (Some cap) ->
  cap <> [] /\ Forall (fun c => Str.is_digit c = true) cap.
Proof.
  rewrite match_at_number. destruct (at_boundary p); [|discriminate]. intros Hrun.
  apply iterate_digit_consumed in Hrun as (ds & p' & Hne & Hds & Hrest & Hk).
  unfold after_digits in Hk. cbn [run] in Hk.
  destruct (at_boundary p'); [|discriminate]. injection Hk as <-.
  rewrite Hrest, length_app, Nat.add_sub, take_app_length. now split.
Qed.

Lemma match_at_number_group (p : pos) : match_at false numberPattern p <> Some None.
Proof.
  rewrite match_at_number. destruct (at_boundary p); [|discriminate]. intros Hrun.
  apply iterate_digit_consumed in Hrun as (ds & p' & _ & _ & _ & Hk).
  unfold after_digits in Hk. cbn [run] in Hk. destruct (at_boundary p'); discriminate.
Qed.

Lemma search_number_digits (s : list ascii) :
  forall (prev : option ascii) (cap : list ascii),
    search false numberPattern prev s = Some (Some cap) ->
    cap <> [] /\ Forall (fun c => Str.is_digit c = true) cap.
Proof.
  induction s as [|c s IH]; intros prev cap; cbn [search];
    destruct (match_at false numberPattern (mkPos prev _)) as [[cap'|]|] eqn:Hmatch;
    try discriminate.
  - intros [= <-]. now apply (match_at_number_digits _ _ Hmatch).
  - intros [= <-]. now apply (match_at_number_digits _ _ Hmatch).
  - intros Hmore. now apply (IH (Some c)).
Qed.

Lemma digit_value_range (c : ascii) : Str.is_digit c = true -> 0 <= digit_value c <= 9.
Proof.
  unfold Str.is_digit, digit_value. intros Hc.
  apply andb_true_iff in Hc as [Hlo Hhi]. apply Nat.leb_le in Hlo, Hhi. lia.
Qed.

Lemma parseInt_digits_nonneg (ds : list ascii) :
  Forall (fun c => Str.is_digit c = true) ds ->
  forall acc, 0 <= acc -> 0 <= fold_left (fun acc c => 10 * acc + digit_value c) ds acc.
Proof.
  induction 1 as [|c ds Hc _ IH]; intros acc Hacc; [exact Hacc|].
  cbn [fold_left]. apply IH. pose proof (digit_value_range c Hc). lia.
Qed.

Lemma extractNumber_nonneg (prompt : string) (n : Number) :
  extractNumberFromPrompt prompt = Some n ->
  n = Huge \/ exists z, n = Exact z /\ 0 <= z < 2 ^ 53.
Proof.
  unfold extractNumberFromPrompt, match1.
  destruct (search false numberPattern None (list_ascii_of_string prompt))
    as [[cap|]|] eqn:Hsearch; try discriminate.
  intros [= <-]. apply search_number_digits in Hsearch as [_ Hds].
  unfold to_number. destruct (_ <? _) eqn:Hexact; [|now left].
  right. eexists. split; [reflexivity|]. apply Z.ltb_lt in Hexact. split; [|exact Hexact].
  unfold parseInt. rewrite list_ascii_of_string_of_list_ascii.
  now apply parseInt_digits_nonneg.
Qed.

End NumberCapture.

(** ** Prompt analysis, continued *)

Lemma split_space_no_space (s : string) :
  Forall (fun piece => Str.includes piece " " = false) (Str.split_space s).
Proof.
  induction s as [|c s IH]; cbn [Str.split_space]; [repeat constructor|].
  destruct (Ascii.eqb c " ") eqn:Hc; [constructor; [reflexivity|assumption]|].
  destruct (Str.split_space s) as [|piece pieces].
  - repeat constructor. cbn [Str.includes Str.startsWith].
    now rewrite (Ascii.eqb_sym " " c), Hc.
  - apply Forall_cons in IH as [Hpiece Hpieces]. constructor; [|assumption].
    cbn [Str.includes Str.startsWith]. rewrite (Ascii.eqb_sym " " c), Hc. exact Hpiece.
Qed.

Lemma fallback_count_range (prompt : string) :
  let fallbackCount := number_or (extractNumberFromPrompt prompt) 10 in
  1 <= number_min fallbackCount 3 <= 3
  /\ number_min fallbackCount 3 <= number_min fallbackCount 15 <= 15.
Proof.
  unfold number_or. destruct (extractNumberFromPrompt prompt) as [n|] eqn:Hn;
    [|cbn; lia].
  apply extractNumber_nonneg in Hn as [->|(z & -> & Hz)]; [cbn; lia|].
  destruct (z =? 0) eqn:Hzero; [cbn; lia|].
  apply Z.eqb_neq in Hzero. cbn [number_min]. lia.
Qed.

(** X13. The analyzer degrades to its heuristics whenever the completion
    call fails, the embedding call fails, or the embedding call answers no
    vector; the analysis it then returns always asks for between 1 and 15
    songs, requires at least 1 and at most 3 of them and never more than it
    asks for, has at most 5 keywords, each longer than 2 characters and
    free of spaces, keeps the prompt as refined prompt, and carries no
    embedding. *)
Theorem analysis_fallback_invariants (sv : Services) (prompt : string) :
  (exists err, analysis_reply sv prompt = Throw err)
  \/ (exists err, embeddings_reply sv [prompt] = Throw err)
  \/ embeddings_reply sv [prompt] = Normal [] ->
  let analysis := analyzeUserPromptFast sv prompt in
  (exists t m,
      targetCount (constraints analysis) = Some t
      /\ minCount (constraints analysis) = Some m
      /\ 1 <= m <= 3 /\ m <= t <= 15)
  /\ (length (keywords analysis) <= 5)%nat
  /\ Forall (fun w => (2 < String.length w)%nat /\ Str.includes w " " = false)
            (keywords analysis)
  /\ refinedPrompt analysis = prompt
  /\ originalEmbedding analysis = None.
Proof.
  intros Hfail analysis.
  assert (Hfallback : analysis = analysis_fallback prompt).
  { subst analysis. unfold analyzeUserPromptFast.
    destruct Hfail as [[err ->]|[[err ->]| ->]];
      try reflexivity; destruct (analysis_reply sv prompt); reflexivity. }
  rewrite Hfallback. unfold analysis_fallback.
  cbn [constraints targetCount minCount keywords refinedPrompt originalEmbedding].
  pose proof (fallback_count_range prompt) as Hcount. cbn zeta in Hcount.
  split; [|split; [|split; [|split]]]; try reflexivity.
  - eexists _, _. split; [reflexivity|]. split; [reflexivity|]. lia.
  - rewrite length_take. lia.
  - apply Forall_forall. intros w Hw.
    eapply elem_of_sublist in Hw; [|apply sublist_take].
    apply list_elem_of_In, filter_In in Hw as [Hin Hlen].
    split; [apply Z.ltb_lt in Hlen; unfold Str.len in Hlen; lia|].
    pose proof (split_space_no_space prompt) as Hpieces.
    rewrite Forall_forall in Hpieces. apply Hpieces. now apply list_elem_of_In.
Qed.

Lemma analysis_fallback_invariants_witness :
  originalEmbedding (analyzeUserPromptFast verification_down_no_embedding
                       "40 upbeat songs by Adele") = None.
Proof.
  apply (analysis_fallback_invariants verification_down_no_embedding
           "40 upbeat songs by Adele").
  right. left. eexists. reflexivity.
Defined.

(** ** The entry point, continued *)

Lemma workflow_result (sv : Services) (prompt token : string) (tracks : list ResolvedTrack) :
  workflow sv prompt token = Normal tracks ->
  exists aligned,
    alignedSongs_of sv prompt = Normal aligned
    /\ tracks = searchTracksOnSpotifyFast sv
                  (slice_to (resolve_limit (constraints (analyzeUserPromptFast sv prompt)))
                            aligned) token.
Proof.
  unfold workflow. destruct (alignedSongs_of sv prompt) as [aligned|err]; [|discriminate].
  destruct (too_few _ aligned); [discriminate|]. intros [= <-]. now exists aligned.
Qed.

(** X14. What the entry point returns: never more tracks than a
    non-negative [targetCount], and never more than 15; nothing at all when
    the analysis carries no [targetCount]; and only tracks found for songs
    that the verification rated at least 6 and that pass the artist check. *)
Theorem generateClassicRecommendations_bounds (sv : Services) (prompt token : string)
    (tracks : list ResolvedTrack) :
  generateClassicRecommendations sv prompt token = Normal tracks ->
  let c := constraints (analyzeUserPromptFast sv prompt) in
  (forall t, targetCount c = Some t -> 0 <= t ->
             Z.of_nat (length tracks) <= Z.min t 15)
  /\ (targetCount c = None -> tracks = [])
  /\ (forall r, In r tracks ->
        (exists a, alignment_score (classicMetadata r) = Some a /\ Qle 6 a)
        /\ artist_check c (classicMetadata r) = true).
Proof.
  intros Hrun c. unfold generateClassicRecommendations in Hrun.
  destruct (workflow sv prompt token) as [found|err] eqn:Hflow.
  - injection Hrun as ->.
    destruct (workflow_result sv prompt token tracks Hflow) as (aligned & Haligned & ->).
    fold c. split; [|split].
    + intros t Ht Hpos. unfold resolve_limit. rewrite Ht.
      pose proof (omap_length_le (resolve_song sv token) (slice_to (Z.min t 15) aligned)).
      pose proof (slice_to_length (Z.min t 15) aligned).
      rewrite searchTracksOnSpotifyFast_omap. lia.
    + intros Hnone. unfold resolve_limit. rewrite Hnone. reflexivity.
    + intros r Hr. apply resolved_from_song in Hr as [Hsong _].
      apply list_elem_of_In in Hsong.
      eapply elem_of_sublist in Hsong; [|apply slice_to_sublist].
      apply list_elem_of_In in Hsong. unfold alignedSongs_of in Haligned.
      exact (fusion_output_scored _ _ _ _ _ _ _ Haligned _ Hsong).
  - injection Hrun as <-. split; [|split].
    + intros t Ht Hpos. simpl. lia.
    + reflexivity.
    + intros r [].
Qed.

Lemma generateClassicRecommendations_bounds_witness :
  Z.of_nat (length three_song_tracks) <= Z.min 12 15 /\ length three_song_tracks = 3%nat.
Proof.
  split; [|reflexivity].
  apply (proj1 (generateClassicRecommendations_bounds three_song_services
                  "70s road trip rock" "token" three_song_tracks
                  ltac:(vm_compute; reflexivity)) 12).
  - reflexivity.
  - lia.
Defined.

(** ** The matcher of the search patterns *)

Section RxSound.

Import Rx.
Variable icase : bool.

Lemma iterate_sound (r : re) (k : cont) :
  (forall p caps k' res,
      run icase r p caps k' = Some res ->
      exists w p' caps',
        Regex.rest p = w ++ Regex.rest p' /\ matches_with icase r caps w caps'
        /\ k' p' caps' = Some res) ->
  forall (fuel : nat) p0 caps0 res,
    iterate (run icase r) k fuel p0 caps0 = Some res ->
    exists w p' caps',
      Regex.rest p0 = w ++ Regex.rest p' /\ matches_with icase (Plus r) caps0 w caps'
      /\ k p' caps' = Some res.
Proof.
  intros Hr fuel. induction fuel as [|fuel IH]; intros p0 caps0 res Hrun.
  - cbn [iterate] in Hrun. apply Hr in Hrun as (w & p' & caps' & Hrest & Hw & Hk).
    exists w, p', caps'. repeat split; [assumption|now constructor|assumption].
  - cbn [iterate] in Hrun. apply Hr in Hrun as (w & p' & caps' & Hrest & Hw & Hk).
    destruct (length (Regex.rest p') <? length (Regex.rest p0))%nat.
    + destruct (iterate (run icase r) k fuel p' caps') as [res'|] eqn:Hmore.
      * injection Hk as <-.
        apply IH in Hmore as (w2 & p2 & caps2 & Hrest2 & Hw2 & Hk2).
        exists (w ++ w2), p2, caps2.
        repeat split; [|eapply matches_plus_more; eassumption|assumption].
        now rewrite Hrest, Hrest2, app_assoc.
      * exists w, p', caps'. repeat split; [assumption|now constructor|assumption].
    + exists w, p', caps'. repeat split; [assumption|now constructor|assumption].
Qed.

(** Whatever the matcher hands to its continuation has been matched. *)
Lemma run_sound (r : re) :
  forall p caps k res,
    run icase r p caps k = Some res ->
    exists w p' caps',
      Regex.rest p = w ++ Regex.rest p' /\ matches_with icase r caps w caps'
      /\ k p' caps' = Some res.
Proof.
  induction r as [c|negated ranges space|r1 IH1 r2 IH2|r1 IH1 r2 IH2|r1 IH1|i r1 IH1| |];
    intros p caps k res Hrun; cbn [run] in Hrun.
  - destruct (Regex.rest p) as [|x xs] eqn:Hrest; [discriminate|].
    destruct (Regex.lit_matches icase c x) eqn:Hx; [|discriminate].
    exists [x], (Regex.advance x xs), caps. repeat split; [now constructor|assumption].
  - destruct (Regex.rest p) as [|x xs] eqn:Hrest; [discriminate|].
    destruct (set_matches icase negated ranges space x) eqn:Hx; [|discriminate].
    exists [x], (Regex.advance x xs), caps. repeat split; [now constructor|assumption].
  - apply IH1 in Hrun as (w1 & p1 & caps1 & Hrest1 & Hw1 & Hrun).
    apply IH2 in Hrun as (w2 & p2 & caps2 & Hrest2 & Hw2 & Hk).
    exists (w1 ++ w2), p2, caps2.
    repeat split; [|eapply matches_seq; eassumption|assumption].
    now rewrite Hrest1, Hrest2, app_assoc.
  - destruct (run icase r1 p caps k) as [res'|] eqn:Hleft.
    + injection Hrun as <-. apply IH1 in Hleft as (w & p' & caps' & Hrest & Hw & Hk).
      exists w, p', caps'. repeat split; [assumption|now constructor|assumption].
    + apply IH2 in Hrun as (w & p' & caps' & Hrest & Hw & Hk).
      exists w, p', caps'. repeat split; [assumption|now apply matches_alt_r|assumption].
  - now apply (iterate_sound r1 k IH1) in Hrun.
  - apply IH1 in Hrun as (w & p' & caps' & Hrest & Hw & Hk).
    rewrite Hrest, length_app, Nat.add_sub, take_app_length in Hk.
    exists w, p', ((i, w) :: caps'). repeat split; [assumption|now constructor|assumption].
  - destruct (Regex.at_boundary p); [|discriminate].
    exists [], p, caps. repeat split; [constructor|assumption].
  - exists [], p, caps. repeat split; [constructor|assumption].
Qed.

Lemma match_at_sound (r : re) (p p' : Regex.pos) (caps : captures) :
  match_at icase r p = Some (caps, p') ->
  exists w, Regex.rest p = w ++ Regex.rest p' /\ matches_with icase r [] w caps.
Proof.
  unfold match_at. intros Hrun.
  apply run_sound in Hrun as (w & p1 & caps1 & Hrest & Hw & [= <- <-]).
  now exists w.
Qed.

Lemma search_sound (r : re) (s : list ascii) :
  forall (prev : option ascii) (m : found),
    search icase r prev s = Some m ->
    exists w, matches_with icase r [] w (groups m).
Proof.
  induction s as [|c s IH]; intros prev m; cbn [search];
    destruct (match_at icase r (Regex.mkPos prev _)) as [[caps p']|] eqn:Hmatch;
    try discriminate.
  - intros [= <-]. apply match_at_sound in Hmatch as (w & _ & Hw). now exists w.
  - intros [= <-]. apply match_at_sound in Hmatch as (w & _ & Hw). now exists w.
  - apply IH.
Qed.

Lemma matchAll_from_sound (r : re) (fuel : nat) :
  forall (prev : option ascii) (s : list ascii) (caps : captures),
    In caps (matchAll_from icase r fuel prev s) ->
    exists w, matches_with icase r [] w caps.
Proof.
  induction fuel as [|fuel IH]; intros prev s caps; [intros []|].
  cbn [matchAll_from]. destruct (search icase r prev s) as [m|] eqn:Hsearch; [|intros []].
  intros [<-|Hmore]; [now apply (search_sound r s prev)|].
  destruct (length (Regex.rest (upto m)) <? length (Regex.rest (from m)))%nat;
    [now apply IH in Hmore|].
  destruct (Regex.rest (upto m)) as [|c s']; [destruct Hmore|now apply IH in Hmore].
Qed.

End RxSound.

(** ** The search patterns *)

Section Patterns.

Import Rx.

Ltac invert_match H := inversion H; subst; clear H.

Lemma matches_set_run (icase negated : bool) ranges space caps0 w caps1 :
  matches_with icase (Plus (Set_ negated ranges space)) caps0 w caps1 ->
  caps1 = caps0 /\ w <> []
  /\ Forall (fun x => set_matches icase negated ranges space x = true) w.
Proof.
  remember (Plus (Set_ negated ranges space)) as r eqn:Hr. intros Hw.
  induction Hw as [| | | | |r0 c0 w c1 Hone _|r0 c0 w1 c1 w2 c2 Hone _ Hmore IH| | |];
    try discriminate; injection Hr as ->.
  - invert_match Hone. repeat split; [discriminate|now repeat constructor].
  - invert_match Hone. destruct (IH eq_refl) as (-> & _ & Hall).
    repeat split; [discriminate|now constructor].
Qed.

Lemma matches_word_caps (icase : bool) (s : string) :
  forall caps0 w caps1, matches_with icase (word s) caps0 w caps1 -> caps1 = caps0.
Proof.
  induction s as [|c s IH]; intros caps0 w caps1 Hw; cbn [word] in Hw.
  - now invert_match Hw.
  - invert_match Hw.
    match goal with H : matches_with _ (Chr _) _ _ _ |- _ => invert_match H end.
    now apply IH in H5.
Qed.

Lemma artist_set_char (x : ascii) :
  set_matches true true (map (fun c => (c, c)) [","; "."; newline_char]%char) false x = true ->
  artist_char x.
Proof.
  unfold artist_char, newline_char.
  destruct x as [[] [] [] [] [] [] [] []]; intros Hx; try discriminate;
    repeat split; discriminate.
Qed.

(** Both patterns fill groups 1 and 2, and group 2, the artist, is a run of
    characters other than comma, period and line break. *)
Lemma pattern_groups (pattern : re) (w : list ascii) (caps : captures) :
  pattern = quotedPattern \/ pattern = dashPattern ->
  matches_with true pattern [] w caps ->
  exists g1 g2, group 1 caps = Some g1 /\ group 2 caps = Some g2 /\ Forall artist_char g2.
Proof.
  intros [-> | ->] Hw; unfold quotedPattern, dashPattern, one_of in Hw;
    repeat match goal with
           | H : matches_with _ (Seq _ _) _ _ _ |- _ => invert_match H
           | H : matches_with _ (Group _ _) _ _ _ |- _ => invert_match H
           | H : matches_with _ (Set_ _ _ _) _ _ _ |- _ => invert_match H
           | H : matches_with _ (Chr _) _ _ _ |- _ => invert_match H
           | H : matches_with _ Eps _ _ _ |- _ => invert_match H
           | H : matches_with _ (word _) _ _ _ |- _ => apply matches_word_caps in H; subst
           | H : matches_with _ (Plus (Set_ _ _ _)) _ _ _ |- _ =>
               apply matches_set_run in H; destruct H as (-> & ? & ?)
           end;
    eexists _, _; (split; [reflexivity|]); (split; [reflexivity|]);
    (eapply Forall_impl; [eassumption|]); apply artist_set_char.
Qed.

End Patterns.

(** ** Trimming *)

Lemma trimStart_Forall (P : ascii -> Prop) (s : string) :
  Forall P (list_ascii_of_string s) -> Forall P (list_ascii_of_string (Str.trimStart s)).
Proof.
  induction s as [|c s IH]; intros Hs; [exact Hs|]. cbn [Str.trimStart].
  destruct (Str.is_space c); [|exact Hs]. apply IH.
  cbn in Hs. now apply Forall_cons in Hs as [_ Hs].
Qed.

Lemma trimEnd_Forall (P : ascii -> Prop) (s : string) :
  Forall P (list_ascii_of_string s) -> Forall P (list_ascii_of_string (Str.trimEnd s)).
Proof.
  induction s as [|c s IH]; intros Hs; [exact Hs|]. cbn [Str.trimEnd].
  cbn in Hs. apply Forall_cons in Hs as [Hc Hs]. specialize (IH Hs).
  destruct (Str.trimEnd s) as [|c' r].
  - destruct (Str.is_space c); cbn; repeat constructor. exact Hc.
  - cbn. constructor; assumption.
Qed.

Lemma trim_Forall (P : ascii -> Prop) (s : string) :
  Forall P (list_ascii_of_string s) -> Forall P (list_ascii_of_string (Str.trim s)).
Proof. intros Hs. now apply trimEnd_Forall, trimStart_Forall. Qed.

Lemma trimStart_head (s : string) :
  match Str.trimStart s with
  | String c _ => Str.is_space c = false
  | EmptyString => True
  end.
Proof.
  induction s as [|c s IH]; [exact I|]. cbn [Str.trimStart].
  destruct (Str.is_space c) eqn:Hc; [exact IH|exact Hc].
Qed.

Lemma trimEnd_head (s : string) :
  match s with String c _ => Str.is_space c = false | EmptyString => True end ->
  match Str.trimEnd s with String c _ => Str.is_space c = false | EmptyString => True end.
Proof.
  destruct s as [|c s]; [trivial|]. intros Hc. cbn [Str.trimEnd].
  destruct (Str.trimEnd s); [rewrite Hc|]; exact Hc.
Qed.

Lemma last_char_cons (prev : option ascii) (c : ascii) (l : list ascii) :
  last_char prev (c :: l) = last_char None (c :: l).
Proof. reflexivity. Qed.

Lemma trimEnd_last (s : string) :
  match last_char None (list_ascii_of_string (Str.trimEnd s)) with
  | Some c => Str.is_space c = false
  | None => True
  end.
Proof.
  induction s as [|c s IH]; [exact I|]. cbn [Str.trimEnd].
  destruct (Str.trimEnd s) as [|c' r].
  - destruct (Str.is_space c) eqn:Hc; [exact I|exact Hc].
  - cbn [list_ascii_of_string] in IH |- *.
    change (last_char None (c :: c' :: list_ascii_of_string r))
      with (last_char (Some c) (c' :: list_ascii_of_string r)).
    now rewrite last_char_cons.
Qed.

(** [trim] leaves no white space at either end. *)
Lemma trim_trimmed (s : string) : trimmed (Str.trim s).
Proof.
  unfold trimmed, Str.trim. split; [apply trimEnd_head, trimStart_head|apply trimEnd_last].
Qed.

(** ** The year pattern *)

Section Year.

Import Rx.

Ltac invert_match H := inversion H; subst; clear H.

Lemma range_matches (lo hi x : ascii) :
  set_matches false false [(lo, hi)] false x = true ->
  (nat_of_ascii lo <= nat_of_ascii x <= nat_of_ascii hi)%nat.
Proof.
  unfold set_matches, Regex.cls_matches, Regex.in_class, Regex.in_ranges. cbn.
  rewrite !orb_false_r, andb_true_iff, !Nat.leb_le. tauto.
Qed.

Lemma chr_matches (c x : ascii) : Regex.lit_matches false c x = true -> x = c.
Proof. unfold Regex.lit_matches. intros Hx. symmetry. now apply Ascii.eqb_eq. Qed.

Lemma year_digits (w : list ascii) (caps : captures) :
  matches_with false yearPattern [] w caps ->
  exists digits,
    group 1 caps = Some digits
    /\ 1950 <= parseInt (string_of_list_ascii digits) <= 2029.
Proof.
  unfold yearPattern, range. intros Hw.
  repeat match goal with
         | H : matches_with _ (Seq _ _) _ _ _ |- _ => invert_match H
         | H : matches_with _ (Group _ _) _ _ _ |- _ => invert_match H
         | H : matches_with _ (Alt _ _) _ _ _ |- _ => invert_match H
         | H : matches_with _ Bound _ _ _ |- _ => invert_match H
         | H : matches_with _ (Chr _) _ _ _ |- _ => invert_match H
         | H : matches_with _ (Set_ _ _ _) _ _ _ |- _ => invert_match H
         end;
    repeat match goal with
           | H : Regex.lit_matches false _ _ = true |- _ => apply chr_matches in H; subst
           | H : set_matches false false _ false _ = true |- _ => apply range_matches in H
           end;
    eexists; (split; [reflexivity|]);
    unfold parseInt; rewrite list_ascii_of_string_of_list_ascii;
    cbn [app fold_left]; unfold digit_value;
    change (nat_of_ascii "0") with 48%nat in *; change (nat_of_ascii "1") with 49%nat in *;
    change (nat_of_ascii "2") with 50%nat in *; change (nat_of_ascii "5") with 53%nat in *;
    change (nat_of_ascii "9") with 57%nat in *; lia.
Qed.

Lemma extractYear_year_range (text : string) :
  (forall y, extractYear text = Some y -> 1950 <= y <= 2029) /\ True.
Proof.
  split; [|exact I]. intros y. unfold extractYear, match_.
  destruct (search false yearPattern None (list_ascii_of_string text)) as [m|] eqn:Hsearch;
    [|discriminate].
  apply search_sound in Hsearch as (w & Hw).
  apply year_digits in Hw as (digits & -> & Hy). now intros [= <-].
Qed.

(** X15. A year is mined from a text only if it lies between 1950 and
    2029; a text without a digit gives none.  The fusion engine rewards a
    mined year only up to 2024. *)
Theorem extractYear_range (text : string) :
  (forall y, extractYear text = Some y -> 1950 <= y <= 2029)
  /\ (no_digit text = true -> extractYear text = None)
  /\ (forall (song : Song) (y : Z),
        extractYear text = Some y -> year song = Some y ->
        year_plausible song = (y <=? 2024)).
Proof.
  pose proof (proj1 (extractYear_year_range text)) as Hrange.
  split; [exact Hrange|]. split.
  - intros Hnone. destruct (extractYear text) as [y|] eqn:Hy; [|reflexivity].
    exfalso. revert Hy. unfold extractYear, match_.
    destruct (search false yearPattern None (list_ascii_of_string text)) as [m|] eqn:Hsearch;
      [|discriminate].
    exfalso. revert Hsearch. generalize (@None ascii).
    apply no_digit_Forall in Hnone.
    induction Hnone as [|c s Hc _ IH]; intros prev; cbn [search].
    + unfold match_at, yearPattern. cbn [run Regex.rest].
      destruct (Regex.at_boundary _); discriminate.
    + assert (Hhere : match_at false yearPattern (Regex.mkPos prev (c :: s)) = None).
      { unfold match_at, yearPattern. cbn [run Regex.rest].
        destruct (Regex.at_boundary _); [|reflexivity].
        unfold Regex.lit_matches. unfold not_digit in Hc.
        destruct c as [[] [] [] [] [] [] [] []]; try discriminate; reflexivity. }
      rewrite Hhere. apply IH.
  - intros song y Hy Hsong. apply Hrange in Hy. unfold year_plausible. rewrite Hsong.
    replace (y =? 0) with false by (symmetry; apply Z.eqb_neq; lia).
    replace (1950 <=? y) with true by (symmetry; apply Z.leb_le; lia). reflexivity.
Qed.

Lemma extractYear_range_witness : 1950 <= 2027 <= 2029.
Proof.
  apply (proj1 (extractYear_range "Best road trip songs of 2027, ranked") 2027).
  vm_compute. reflexivity.
Defined.

End Year.

(** ** Mining songs from search results *)

Lemma song_of_match_mined (originalQuery text : string) (pattern : Rx.re)
    (w : list ascii) (caps : Rx.captures) (song : Song) :
  pattern = quotedPattern \/ pattern = dashPattern ->
  matches_with true pattern [] w caps ->
  song_of_match originalQuery text caps = Some song ->
  mined_song originalQuery song.
Proof.
  intros Hpattern Hw. destruct (pattern_groups pattern w caps Hpattern Hw)
    as (g1 & g2 & Hg1 & Hg2 & Hartist).
  unfold song_of_match. rewrite Hg1, Hg2.
  destruct ((2 <? length g1)%nat && (2 <? length g2)%nat); [|discriminate].
  intros [= <-]. unfold mined_song. cbn.
  repeat split; try reflexivity.
  - eexists _, _. split; [reflexivity|]. split; [reflexivity|].
    split; [apply trim_trimmed|]. split; [apply trim_trimmed|].
    apply trim_Forall. now rewrite list_ascii_of_string_of_list_ascii.
  - destruct (extractYear text) as [y|] eqn:Hy; [|exact I].
    now apply (proj1 (extractYear_year_range text)).
Qed.

Lemma songs_of_pattern_mined (originalQuery text : string) (pattern : Rx.re) :
  pattern = quotedPattern \/ pattern = dashPattern ->
  Forall (mined_song originalQuery) (songs_of_pattern originalQuery text pattern).
Proof.
  intros Hpattern. apply Forall_forall. intros song Hsong.
  unfold songs_of_pattern in Hsong.
  apply list_elem_of_omap in Hsong as (caps & Hcaps & Hsong).
  eapply elem_of_sublist in Hcaps; [|apply sublist_take].
  apply list_elem_of_In in Hcaps. unfold Rx.matchAll in Hcaps.
  apply matchAll_from_sound in Hcaps as (w & Hw).
  exact (song_of_match_mined _ _ _ _ _ _ Hpattern Hw Hsong).
Qed.

Lemma mine_patterns_mined (originalQuery text : string) (patterns : list Rx.re) :
  Forall (fun pattern => pattern = quotedPattern \/ pattern = dashPattern) patterns ->
  forall songs,
    Forall (mined_song originalQuery) songs ->
    Forall (mined_song originalQuery) (mine_patterns originalQuery text patterns songs).
Proof.
  induction 1 as [|pattern more Hpattern _ IH]; intros songs Hsongs; [exact Hsongs|].
  cbn [mine_patterns].
  assert (Hmore : Forall (mined_song originalQuery)
                         (songs ++ songs_of_pattern originalQuery text pattern)).
  { apply Forall_app. split; [assumption|now apply songs_of_pattern_mined]. }
  destruct (3 <=? _)%nat; [exact Hmore|now apply IH].
Qed.

Lemma fold_mined (originalQuery : string) (results : list WebResult) :
  forall songs,
    Forall (mined_song originalQuery) songs ->
    Forall (mined_song originalQuery)
           (fold_left (fun songs r =>
                         mine_patterns originalQuery (result_text r)
                                       [quotedPattern; dashPattern] songs)
                      results songs).
Proof.
  induction results as [|r results IH]; intros songs Hsongs; [exact Hsongs|].
  cbn [fold_left]. apply IH, mine_patterns_mined; [|assumption].
  constructor; [now left|]. constructor; [now right|constructor].
Qed.

Lemma Forall_slice_to {A} (P : A -> Prop) (n : Z) (l : list A) :
  Forall P l -> Forall P (slice_to n l).
Proof.
  intros Hl. destruct (slice_to_take n l) as [m ->]. now apply Forall_take.
Qed.

Lemma extract_mined (data : BraveData) (originalQuery : string) :
  Forall (mined_song originalQuery) (extractSongsFromBraveResultsFast data originalQuery).
Proof.
  unfold extractSongsFromBraveResultsFast. destruct data as [results|]; [|constructor].
  apply Forall_slice_to, fold_mined. constructor.
Qed.

Lemma extract_length (data : BraveData) (originalQuery : string) :
  (length (extractSongsFromBraveResultsFast data originalQuery) <= 8)%nat.
Proof.
  unfold extractSongsFromBraveResultsFast. destruct data as [results|]; [|simpl; lia].
  match goal with |- context [slice_to 8 ?l] => pose proof (slice_to_length 8 l) end. lia.
Qed.

(** X16. What is mined from a search response: at most 8 songs, read from
    the first 5 results only, and nothing from a response without results.
    Every mined song is marked as a web-search result of the query, with
    the placeholder genre, has a title and an artist without white space at
    either end, an artist without comma, period or line break, a year
    between 1950 and 2029 if any, and no score yet. *)
Theorem extractSongsFromBraveResultsFast_invariants (data : BraveData)
    (originalQuery : string) :
  (length (extractSongsFromBraveResultsFast data originalQuery) <= 8)%nat
  /\ Forall (mined_song originalQuery) (extractSongsFromBraveResultsFast data originalQuery)
  /\ (data = None \/ data = Some [] ->
      extractSongsFromBraveResultsFast data originalQuery = [])
  /\ (forall results extra,
        data = Some (results ++ extra) -> length results = 5%nat ->
        extractSongsFromBraveResultsFast data originalQuery =
        extractSongsFromBraveResultsFast (Some results) originalQuery).
Proof.
  split; [apply extract_length|]. split; [apply extract_mined|]. split.
  - intros [-> | ->]; reflexivity.
  - intros results extra -> Hlen. unfold extractSongsFromBraveResultsFast.
    assert (Hfive : forall l : list WebResult, slice_to 5 l = take 5 l) by reflexivity.
    rewrite !Hfive, <- Hlen, take_app_length. now rewrite take_ge.
Qed.

Lemma extractSongsFromBraveResultsFast_invariants_witness :
  extractSongsFromBraveResultsFast (Some (five_results ++ [sixth_result])) "rock" =
  extractSongsFromBraveResultsFast (Some five_results) "rock".
Proof.
  apply (proj2 (proj2 (proj2 (extractSongsFromBraveResultsFast_invariants
                                (Some (five_results ++ [sixth_result])) "rock")))
           five_results [sixth_result]); reflexivity.
Defined.

Lemma brave_reply_of_mined (brave_search : string -> completion BraveData) (query : string) :
  Forall (mined_song query) (brave_reply_of brave_search query)
  /\ (length (brave_reply_of brave_search query) <= 8)%nat.
Proof.
  unfold brave_reply_of. destruct (brave_search query) as [data|err].
  - split; [apply extract_mined|apply extract_length].
  - split; [constructor|simpl; lia].
Qed.

Lemma concat_length_bound {A B} (f : A -> list B) (n : nat) :
  (forall x, (length (f x) <= n)%nat) ->
  forall l, (length (concat (map f l)) <= n * length l)%nat.
Proof.
  intros Hf. induction l as [|x l IH]; [simpl; lia|].
  cbn [map concat]. rewrite length_app. cbn [length]. specialize (Hf x). lia.
Qed.

Lemma length_take_le' {A} (n : nat) (l : list A) : (length (take n l) <= n)%nat.
Proof. rewrite length_take. lia. Qed.

(** X17. The web fetcher over the real extraction: whatever the search
    service answers, it returns at most 16 songs, no two with the same key,
    each mined from the response to one of the first two queries; and the
    empty list when every search fails. *)
Theorem searchWithBraveAPIFast_mined (sv : Services)
    (brave_search : string -> completion BraveData) (queries : list string) :
  brave_reply sv = brave_reply_of brave_search ->
  (length (searchWithBraveAPIFast sv queries) <= 16)%nat
  /\ NoDup (map song_key (searchWithBraveAPIFast sv queries))
  /\ (forall song, In song (searchWithBraveAPIFast sv queries) ->
        exists query, In query (take 2 queries) /\ mined_song query song)
  /\ ((forall query, exists err, brave_search query = Throw err) ->
      searchWithBraveAPIFast sv queries = []).
Proof.
  intros Hreply. unfold searchWithBraveAPIFast, removeDuplicateSongsFast. rewrite Hreply.
  split; [|split; [|split]].
  - pose proof (sublist_length _ _ (filter_unseen_sublist ∅
        (concat (map (brave_reply_of brave_search) (take 2 queries))))) as Hsub.
    assert (Hraw : (length (concat (map (brave_reply_of brave_search) (take 2 queries)))
                    <= 16)%nat).
    { pose proof (concat_length_bound (brave_reply_of brave_search) 8
                    (fun q => proj2 (brave_reply_of_mined brave_search q)) (take 2 queries)).
      pose proof (length_take_le' 2 queries). lia. }
    lia.
  - apply filter_unseen_NoDup.
  - intros song Hsong. apply list_elem_of_In in Hsong.
    eapply elem_of_sublist in Hsong; [|apply filter_unseen_sublist].
    apply list_elem_of_In, in_concat in Hsong as (mined & Hmined & Hsong).
    apply in_map_iff in Hmined as (query & <- & Hquery).
    exists query. split; [assumption|].
    pose proof (proj1 (brave_reply_of_mined brave_search query)) as Hall.
    rewrite Forall_forall in Hall. now apply Hall, list_elem_of_In.
  - intros Hdown.
    assert (Hnone : forall query, brave_reply_of brave_search query = []).
    { intros query. unfold brave_reply_of. now destruct (Hdown query) as [err ->]. }
    destruct queries as [|q1 [|q2 more]]; cbn; rewrite ?Hnone; reflexivity.
Qed.

Lemma searchWithBraveAPIFast_mined_witness :
  (length (searchWithBraveAPIFast mined_services ["classic rock"; "road trip"]) <= 16)%nat.
Proof.
  apply (searchWithBraveAPIFast_mined mined_services one_result_search). reflexivity.
Defined.

(** ** The artist named in a prompt *)

Lemma length_string_of_list_ascii (l : list ascii) :
  String.length (string_of_list_ascii l) = length l.
Proof. induction l as [|c l IH]; [reflexivity|]. cbn. now rewrite IH. Qed.

Section ArtistShape.

Import Regex.
Variable icase : bool.
Variable ok : ascii -> bool.

Let all_ok (w : list ascii) : Prop := Forall (fun x => ok x = true) w.

(** The capture after a step is the one before it, or a text of [ok]
    characters no longer than the input that remained. *)
Let capture_ok (room : nat) (cap cap' : option (list ascii)) : Prop :=
  cap' = cap \/ exists c, cap' = Some c /\ all_ok c /\ (length c <= room)%nat.

Let step_ok (r : re) : Prop :=
  forall p cap k res,
    run icase r p cap k = Some res ->
    exists w p' cap',
      rest p = w ++ rest p' /\ all_ok w /\ capture_ok (length (rest p)) cap cap'
      /\ k p' cap' = Some res.

Lemma capture_ok_trans (n m : nat) (cap cap' cap'' : option (list ascii)) :
  (m <= n)%nat -> capture_ok n cap cap' -> capture_ok m cap' cap'' ->
  capture_ok n cap cap''.
Proof.
  intros Hmn H1 [->|(c & -> & Hc & Hlen)]; [exact H1|].
  right. exists c. repeat split; [assumption|lia].
Qed.

Lemma iterate_only (r : re) (k : cont) :
  step_ok r ->
  forall (fuel : nat) p0 cap0 res,
    iterate (run icase r) k fuel p0 cap0 = Some res ->
    exists w p' cap',
      rest p0 = w ++ rest p' /\ all_ok w /\ capture_ok (length (rest p0)) cap0 cap'
      /\ k p' cap' = Some res.
Proof.
  intros Hr fuel. induction fuel as [|fuel IH]; intros p0 cap0 res Hrun.
  - cbn [iterate] in Hrun. now apply Hr in Hrun.
  - cbn [iterate] in Hrun. apply Hr in Hrun as (w & p' & cap' & Hrest & Hw & Hcap & Hk).
    destruct (length (rest p') <? length (rest p0))%nat eqn:Hless.
    + destruct (iterate (run icase r) k fuel p' cap') as [res'|] eqn:Hmore.
      * injection Hk as <-.
        apply IH in Hmore as (w2 & p2 & cap2 & Hrest2 & Hw2 & Hcap2 & Hk2).
        exists (w ++ w2), p2, cap2. split; [now rewrite Hrest, Hrest2, app_assoc|].
        split; [now apply Forall_app|]. split; [|assumption].
        apply Nat.ltb_lt in Hless.
        apply (capture_ok_trans _ (length (rest p')) _ cap'); [lia|assumption..].
      * now exists w, p', cap'.
    + now exists w, p', cap'.
Qed.

(** A pattern that consumes only [ok] characters hands on only texts of
    [ok] characters, as the matched text and as the capture. *)
Lemma run_only (r : re) : consumes_only icase ok r = true -> step_ok r.
Proof.
  induction r as [c|ranges space|r1 IH1 r2 IH2|r1 IH1|r1 IH1| |];
    cbn [consumes_only]; intros Hr p cap k res Hrun; cbn [run] in Hrun.
  - destruct (rest p) as [|x xs] eqn:Hrest; [discriminate|].
    destruct (lit_matches icase c x) eqn:Hx; [|discriminate].
    rewrite forallb_forall in Hr. specialize (Hr x). rewrite Hx in Hr.
    exists [x], (advance x xs), cap. repeat split; [|now left|assumption].
    repeat constructor. apply Hr. rewrite <- list_elem_of_In. apply all_ascii_complete.
  - destruct (rest p) as [|x xs] eqn:Hrest; [discriminate|].
    destruct (cls_matches icase ranges space x) eqn:Hx; [|discriminate].
    rewrite forallb_forall in Hr. specialize (Hr x). rewrite Hx in Hr.
    exists [x], (advance x xs), cap. repeat split; [|now left|assumption].
    repeat constructor. apply Hr. rewrite <- list_elem_of_In. apply all_ascii_complete.
  - apply andb_true_iff in Hr as [Hr1 Hr2].
    apply (IH1 Hr1) in Hrun as (w1 & p1 & cap1 & Hrest1 & Hw1 & Hcap1 & Hrun).
    apply (IH2 Hr2) in Hrun as (w2 & p2 & cap2 & Hrest2 & Hw2 & Hcap2 & Hk).
    exists (w1 ++ w2), p2, cap2. split; [now rewrite Hrest1, Hrest2, app_assoc|].
    split; [now apply Forall_app|]. split; [|assumption].
    apply (capture_ok_trans _ (length (rest p1)) _ cap1); [|assumption..].
    rewrite Hrest1, length_app. lia.
  - now apply (iterate_only r1 k (IH1 Hr)) in Hrun.
  - apply (IH1 Hr) in Hrun as (w & p' & cap' & Hrest & Hw & _ & Hk).
    rewrite Hrest, length_app, Nat.add_sub, take_app_length in Hk.
    exists w, p', (Some w). split; [assumption|]. split; [assumption|].
    split; [|assumption].
    right. exists w. split; [reflexivity|]. split; [assumption|].
    rewrite Hrest, length_app. lia.
  - destruct (at_boundary p); [|discriminate].
    exists [], p, cap. repeat split; [constructor|now left|assumption].
  - exists [], p, cap. repeat split; [constructor|now left|assumption].
Qed.

Lemma search_only (r : re) (s : list ascii) :
  consumes_only icase ok r = true ->
  forall (prev : option ascii) (c : list ascii),
    search icase r prev s = Some (Some c) -> all_ok c /\ (length c <= length s)%nat.
Proof.
  intros Hr.
  assert (Hat : forall p c, match_at icase r p = Some (Some c) ->
                  all_ok c /\ (length c <= length (rest p))%nat).
  { intros p c Hrun. unfold match_at in Hrun.
    apply (run_only r Hr) in Hrun as (w & p' & cap' & _ & _ & Hcap & [= ->]).
    destruct Hcap as [|(c' & [= <-] & Hc & Hlen)]; [discriminate|now split]. }
  induction s as [|x s IH]; intros prev c; cbn [search];
    destruct (match_at icase r (mkPos prev _)) as [cap|] eqn:Hmatch; try discriminate.
  - intros [= ->]. now apply Hat in Hmatch.
  - intros [= ->]. now apply Hat in Hmatch.
  - intros Hmore. apply IH in Hmore as [Hc Hlen]. split; [assumption|cbn [length]; lia].
Qed.

Lemma match1_only (r : re) (s m : string) :
  consumes_only icase ok r = true -> match1 icase r s = Some m ->
  all_ok (list_ascii_of_string m) /\ (String.length m <= String.length s)%nat.
Proof.
  intros Hr. unfold match1.
  destruct (search icase r None (list_ascii_of_string s)) as [[c|]|] eqn:Hsearch;
    try discriminate.
  intros [= <-]. apply (search_only r _ Hr) in Hsearch as [Hc Hlen].
  rewrite list_ascii_of_string_of_list_ascii. split; [assumption|].
  rewrite <- (string_of_list_ascii_of_string s) at 1.
  now rewrite !length_string_of_list_ascii.
Qed.

End ArtistShape.

Lemma trimStart_length (s : string) :
  (String.length (Str.trimStart s) <= String.length s)%nat.
Proof.
  induction s as [|c s IH]; [reflexivity|]. cbn [Str.trimStart].
  destruct (Str.is_space c); cbn [String.length]; lia.
Qed.

Lemma trimEnd_length (s : string) :
  (String.length (Str.trimEnd s) <= String.length s)%nat.
Proof.
  induction s as [|c s IH]; [reflexivity|]. cbn [Str.trimEnd].
  destruct (Str.trimEnd s) as [|c' r'].
  - destruct (Str.is_space c); cbn [String.length]; lia.
  - cbn [String.length] in *. lia.
Qed.

Lemma artistPatterns_letters (pattern : Regex.re) :
  In pattern artistPatterns -> consumes_only true letter_or_space pattern = true.
Proof.
  assert (Hall : forallb (consumes_only true letter_or_space) artistPatterns = true)
    by (vm_compute; reflexivity).
  rewrite forallb_forall in Hall. apply Hall.
Qed.

(** X18. Whatever [extractArtistFromPrompt] returns is made of letters and
    white space only, has no white space at either end, and is no longer
    than the prompt. *)
Theorem extractArtistFromPrompt_shape (prompt artist : string) :
  extractArtistFromPrompt prompt = Some artist ->
  Forall (fun x => letter_or_space x = true) (list_ascii_of_string artist)
  /\ trimmed artist
  /\ (String.length artist <= String.length prompt)%nat.
Proof.
  unfold extractArtistFromPrompt. intros Hfirst.
  apply first_artist_Some in Hfirst as (before & pattern & after & m & Hsplit & _ & Hm & _ & ->).
  assert (Hin : In pattern artistPatterns) by (rewrite Hsplit; apply in_elt).
  destruct (match1_only true letter_or_space pattern prompt m
              (artistPatterns_letters pattern Hin) Hm) as [Hletters Hlen].
  split; [now apply trim_Forall|]. split; [apply trim_trimmed|].
  unfold Str.trim.
  pose proof (trimEnd_length (Str.trimStart m)). pose proof (trimStart_length m). lia.
Qed.

Lemma extractArtistFromPrompt_shape_witness :
  trimmed "Pink Floyd"
  /\ (String.length "Pink Floyd" <= String.length "some relaxing music by Pink Floyd")%nat.
Proof.
  apply (extractArtistFromPrompt_shape "some relaxing music by Pink Floyd" "Pink Floyd").
  reflexivity.
Defined.

(** ** The artist after [by] *)

Section AfterBy.

Import Regex.











End AfterBy.



(** ** The first integer of a prompt *)

(** X20. [extractNumberFromPrompt] reads the first integer of the prompt
    that stands by itself.  It never returns a negative number and returns
    nothing for a prompt without a digit: a minus sign before the first
    number is not read.  The number is exact below 2^53. *)
Theorem extractNumberFromPrompt_unsigned :
  (forall (prompt : string) (n : Number),
      extractNumberFromPrompt prompt = Some n ->
      (n = Huge \/ exists z, n = Exact z /\ 0 <= z < 2 ^ 53)
      /\ no_digit prompt = false)
  /\ (forall prompt : string,
         extractNumberFromPrompt prompt =
         match first_integer prompt with
         | Some z => Some (if z <? 2 ^ 53 then Exact z else Huge)
         | None => None
         end)
  /\ (forall digits post : string,
         all_digits digits = true -> digits <> EmptyString ->
         starts_outside_word post = true -> parseInt digits < 2 ^ 53 ->
         extractNumberFromPrompt ("-" ++ digits ++ post)%string =
         Some (Exact (parseInt digits))).
Proof.
  split; [|split].
  - intros prompt n Hn. split; [now apply (extractNumber_nonneg prompt)|].
    destruct (no_digit prompt) eqn:Hnone; [|reflexivity].
    apply extractNumber_no_digit in Hnone. congruence.
  - exact extractNumber_first.
  - intros digits post Hdigits Hnonempty Hpost Hexact.
    rewrite (extractNumber_first_integer "-" digits post) by (assumption || reflexivity).
    unfold to_number. apply Z.ltb_lt in Hexact. now rewrite Hexact.
Qed.

Lemma extractNumberFromPrompt_unsigned_witness :
  extractNumberFromPrompt ("-" ++ "5" ++ " songs") = Some (Exact 5).
Proof.
  apply (proj2 (proj2 extractNumberFromPrompt_unsigned) "5" " songs");
    (reflexivity || discriminate).
Defined.

(** ** The weights of the catalog match *)

Lemma weights_checked : forallb weight_row (seq 1 256) = true.
Proof. vm_compute. reflexivity. Qed.

Lemma ratio_title_decides (i m : nat) :
  (i <= m)%nat -> (1 <= m)%nat -> (m <= 256)%nat ->
  title_decides (to_float i / to_float m)%float = true.
Proof.
  intros Him Hm Hmax. pose proof weights_checked as Hall.
  rewrite forallb_forall in Hall.
  assert (Hinm : In m (seq 1 256)) by (apply in_seq; lia).
  specialize (Hall m Hinm). unfold weight_row in Hall.
  rewrite forallb_forall in Hall. apply Hall. apply in_seq. lia.
Qed.

(** Every similarity is a quotient of two sizes. *)
Lemma similarity_is_ratio (str1 str2 : string) :
  exists i m : nat,
    (i <= m)%nat /\ (1 <= m)%nat /\ (m <= 256)%nat
    /\ calculateStringSimilarityFast str1 str2 = (to_float i / to_float m)%float.
Proof.
  unfold calculateStringSimilarityFast. rewrite common_chars.
  destruct (String.eqb str1 str2).
  { exists 1%nat, 1%nat. repeat split; lia. }
  destruct (Str.len str1 =? 0) eqn:Hlen1.
  { exists 0%nat, 1%nat. repeat split; lia. }
  destruct (Str.len str2 =? 0) eqn:Hlen2.
  { exists 0%nat, 1%nat. repeat split; lia. }
  cbn [orb].
  pose proof (char_set_nonempty str1 Hlen1) as Hpos1.
  pose proof (char_set_size (char_set str1)) as Hmax1.
  pose proof (char_set_size (char_set str2)) as Hmax2.
  assert (Hcommon : (size (char_set str1 ∩ char_set str2) <= size (char_set str1))%nat)
    by (apply subseteq_size; set_solver).
  exists (size (char_set str1 ∩ char_set str2)),
         (Nat.max (size (char_set str1)) (size (char_set str2))).
  repeat split; lia.
Qed.

Lemma similarity_title_decides (str1 str2 : string) :
  title_decides (calculateStringSimilarityFast str1 str2) = true.
Proof.
  destruct (similarity_is_ratio str1 str2) as (i & m & Him & Hm & Hmax & ->).
  now apply ratio_title_decides.
Qed.

(** The largest of some similarities is one of them. *)
Lemma math_max_title_decides (sims : list float) :
  sims <> [] -> Forall (fun a => title_decides a = true) sims ->
  title_decides (math_max sims) = true.
Proof.
  assert (Hfold : forall xs m,
             title_decides m = true -> Forall (fun a => title_decides a = true) xs ->
             title_decides
               (fold_left (fun m x =>
                             if PrimFloat.is_nan m || PrimFloat.is_nan x then nan
                             else if (m <? x)%float then x else m) xs m) = true).
  { induction xs as [|x xs IH]; intros m Hm Hxs; [exact Hm|].
    apply Forall_cons in Hxs as [Hx Hxs]. cbn [fold_left]. apply IH; [|exact Hxs].
    assert (Hnan : PrimFloat.is_nan m || PrimFloat.is_nan x = false).
    { unfold title_decides in Hm, Hx.
      destruct (PrimFloat.is_nan m); [discriminate|].
      destruct (PrimFloat.is_nan x); [discriminate|reflexivity]. }
    rewrite Hnan. now destruct (m <? x)%float. }
  destruct sims as [|x xs]; [contradiction|]. intros _ Hsims.
  apply Forall_cons in Hsims as [Hx Hxs].
  unfold math_max. cbn [fold_left]. apply Hfold; [|exact Hxs].
  assert (Hnan : PrimFloat.is_nan x = false)
    by (unfold title_decides in Hx; now destruct (PrimFloat.is_nan x)).
  assert (Hlow : (neg_infinity <? x)%float = true).
  { unfold title_decides in Hx. rewrite Hnan in Hx. cbn [negb andb] in Hx.
    now destruct (neg_infinity <? x)%float. }
  replace (PrimFloat.is_nan neg_infinity) with false by reflexivity.
  cbn [orb]. now rewrite Hnan, Hlow.
Qed.

Lemma lower_char_idem (c : ascii) : Str.lower_char (Str.lower_char c) = Str.lower_char c.
Proof. destruct c as [[] [] [] [] [] [] [] []]; reflexivity. Qed.

Lemma toLowerCase_idem (s : string) :
  Str.toLowerCase (Str.toLowerCase s) = Str.toLowerCase s.
Proof.
  induction s as [|c s IH]; [reflexivity|]. cbn [Str.toLowerCase].
  now rewrite lower_char_idem, IH.
Qed.

Lemma similarity_no_common_char (song_title : string) (t : Track) :
  no_common_char song_title t ->
  calculateStringSimilarityFast (Str.toLowerCase (name t)) (Str.toLowerCase song_title)
  = 0%float.
Proof.
  intros [Hdiff Hdisjoint]. unfold calculateStringSimilarityFast.
  destruct (String.eqb_spec (Str.toLowerCase (name t)) (Str.toLowerCase song_title))
    as [Heq|_]; [contradiction|].
  destruct (_ || _) eqn:Hempty; [reflexivity|].
  apply orb_false_iff in Hempty as [Hlen1 Hlen2].
  rewrite common_chars. unfold char_set in *. rewrite !toLowerCase_idem, Hdisjoint.
  pose proof (char_set_nonempty _ Hlen1) as Hpos1. unfold char_set in Hpos1.
  rewrite toLowerCase_idem in Hpos1.
  pose proof (char_set_size (list_to_set (list_ascii_of_string (Str.toLowerCase (name t)))))
    as Hmax1.
  pose proof (char_set_size (list_to_set (list_ascii_of_string (Str.toLowerCase song_title))))
    as Hmax2.
  rewrite size_empty. apply (ratio_in_unit_interval 0); lia.
Qed.

Section TitleDecides.

Variables (song : Song) (song_title song_artist : string).
Hypothesis song_has_title : title song = Some song_title.
Hypothesis song_has_artist : artist song = Some song_artist.

Lemma artist_similarities_decide (t : Track) :
  exists sims,
    artist_similarities t song = Normal sims
    /\ (artists t = [] -> sims = [])
    /\ (artists t <> [] -> title_decides (math_max sims) = true).
Proof.
  unfold artist_similarities. rewrite song_has_artist.
  destruct (artists t) as [|a more] eqn:Hartists.
  - exists []. split; [reflexivity|]. split; [reflexivity|]. intros Hne. contradiction.
  - eexists. split; [reflexivity|]. split; [discriminate|]. intros _.
    apply math_max_title_decides; [discriminate|].
    apply Forall_forall. intros x Hx.
    apply list_elem_of_In, in_map_iff in Hx as (artist_name & <- & _).
    apply similarity_title_decides.
Qed.

(** A candidate whose name has nothing in common with the title is passed
    over, whoever its artists are. *)
Lemma first_decent_match_passes_over (skipped rest : list Track) :
  Forall (no_common_char song_title) skipped ->
  first_decent_match (skipped ++ rest) song = first_decent_match rest song.
Proof.
  induction 1 as [|t skipped Ht _ IH]; [reflexivity|].
  cbn [app first_decent_match]. rewrite song_has_title.
  rewrite (similarity_no_common_char song_title t Ht).
  destruct (artist_similarities_decide t) as (sims & -> & Hnone & Hsome).
  replace (0.5 <? combinedScore 0 (math_max sims))%float with false; [exact IH|].
  symmetry. destruct (artists t) as [|a more].
  - rewrite Hnone by reflexivity. reflexivity.
  - specialize (Hsome ltac:(discriminate)). unfold title_decides in Hsome.
    destruct (0.5 <? combinedScore 0 (math_max sims))%float; [|reflexivity].
    now rewrite andb_false_r in Hsome.
Qed.

(** A candidate with an artist whose name is the title, up to case, is a
    decent match. *)
Lemma first_decent_match_same_title (t : Track) (more : list Track) :
  Str.toLowerCase (name t) = Str.toLowerCase song_title -> artists t <> [] ->
  first_decent_match (t :: more) song = Normal (Some t).
Proof.
  intros Hsame Hartists. cbn [first_decent_match]. rewrite song_has_title.
  unfold calculateStringSimilarityFast at 1. rewrite Hsame, String.eqb_refl.
  destruct (artist_similarities_decide t) as (sims & -> & _ & Hsome).
  specialize (Hsome Hartists). unfold title_decides in Hsome.
  destruct (0.5 <? combinedScore 1 (math_max sims))%float; [reflexivity|].
  now rewrite andb_false_r in Hsome.
Qed.

End TitleDecides.

(** X21. In [findBestTrackMatchFast] the title decides.  For a song with a
    title and an artist, candidates whose names share no character with the
    title are passed over however well their artists match, and the first
    candidate after them whose name is the title up to case and that has an
    artist is returned, whoever its artists are; when no candidate's name
    shares a character with the title, the first candidate is returned. *)
Theorem findBestTrackMatchFast_title_decides (song : Song)
    (song_title song_artist : string) (skipped : list Track) (t : Track)
    (more : list Track) :
  title song = Some song_title -> artist song = Some song_artist ->
  Forall (no_common_char song_title) skipped ->
  (Str.toLowerCase (name t) = Str.toLowerCase song_title -> artists t <> [] ->
   findBestTrackMatchFast (skipped ++ t :: more) song = Normal (Some t))
  /\ (Forall (no_common_char song_title) (t :: more) ->
      findBestTrackMatchFast (skipped ++ t :: more) song =
      Normal (List.head (skipped ++ t :: more))).
Proof.
  intros Htitle Hartist Hskipped.
  assert (Hhead : forall first others,
             skipped ++ t :: more = first :: others ->
             findBestTrackMatchFast (skipped ++ t :: more) song =
             match first_decent_match (t :: more) song with
             | Normal (Some best) => Normal (Some best)
             | Normal None => Normal (Some first)
             | Throw err => Throw err
             end).
  { intros first others Hsplit. unfold findBestTrackMatchFast.
    rewrite (first_decent_match_passes_over song song_title song_artist Htitle Hartist
               skipped (t :: more) Hskipped).
    now rewrite Hsplit. }
  destruct (skipped ++ t :: more) as [|first others] eqn:Hsplit;
    [now destruct skipped|].
  rewrite (Hhead first others eq_refl). split.
  - intros Hsame Hartists.
    now rewrite (first_decent_match_same_title song song_title song_artist Htitle Hartist).
  - intros Hnone.
    rewrite <- (app_nil_r (t :: more)).
    rewrite (first_decent_match_passes_over song song_title song_artist Htitle Hartist
               (t :: more) [] Hnone).
    reflexivity.
Qed.

Lemma findBestTrackMatchFast_title_decides_witness :
  findBestTrackMatchFast ([adele_other] ++ hello_cover :: [track_poor]) hello
  = Normal (Some hello_cover).
Proof.
  apply (findBestTrackMatchFast_title_decides hello "Hello" "Adele"
           [adele_other] hello_cover [track_poor]).
  - reflexivity.
  - reflexivity.
  - constructor; [|constructor]. split; [discriminate|].
    apply (bool_decide_unpack _). vm_compute. reflexivity.
  - reflexivity.
  - discriminate.
Defined.

(** ** The entry point without verification *)

Lemma slice_to_nil {A} (n : Z) : slice_to n (@nil A) = [].
Proof. unfold slice_to. destruct (n <? 0); apply take_nil. Qed.

(** X22. When the verification call fails, the entry point returns the
    empty array, whatever web search and generation have found: with no
    candidate the aligned list is empty, and with candidates the [catch]
    block of the fusion engine throws. *)
Theorem verification_outage_gives_nothing (sv : Services) (prompt token : string) :
  (forall request candidates, exists err,
      verification_reply sv request candidates = Throw err) ->
  generateClassicRecommendations sv prompt token = Normal [].
Proof.
  intros Hdown. unfold generateClassicRecommendations, workflow, alignedSongs_of.
  set (analysisResult := analyzeUserPromptFast sv prompt).
  set (webResults := searchWithBraveAPIFast sv (searchQueries analysisResult)).
  set (aiResults := generateAIRecommendationsFast sv (refinedPrompt analysisResult)
                      (constraints analysisResult)).
  destruct (removeDuplicateSongsFast (webResults ++ aiResults)) as [|song songs] eqn:Hall.
  - unfold combineAndVerifyAlignmentFast. rewrite Hall. cbn [length Nat.eqb].
    destruct (too_few (constraints analysisResult) []); [reflexivity|].
    now rewrite slice_to_nil, searchTracksOnSpotifyFast_omap.
  - rewrite fusion_fallback_throws; [reflexivity| |apply Hdown].
    rewrite Hall. discriminate.
Qed.

Lemma verification_outage_gives_nothing_witness :
  generateClassicRecommendations verification_down "70s road trip rock" "token" = Normal [].
Proof.
  apply (verification_outage_gives_nothing verification_down "70s road trip rock" "token").
  intros request candidates. eexists. reflexivity.
Defined.
